(** * rrdom: a virtual DOM mirroring a live document tree

    Shallow embedding of the node classes of rrdom ([RRNode],
    [RRDocument], [RRElement], ...), of their mutation contract
    ([appendChild], [insertBefore], [removeChild]), of the style
    projection of [RRElement] and of the synchronisation walk
    [buildFromDom].

    JavaScript objects are mutable and compared by identity, so virtual
    nodes live in a store indexed by addresses; every method is a
    computation in a state-and-exception monad over that store. *)

From Stdlib Require Import Ascii.
From stdpp Require Import gmap strings list fin_maps sorting.

Open Scope Z_scope.

(** ** State and exceptions *)

(** The [NodeType] enumeration of rrweb-snapshot. *)
Inductive NodeType := Document | DocumentType | Element | Text | CDATA | Comment.

Global Instance NodeType_eq_dec : EqDecision NodeType.
Proof. solve_decision. Defined.

(** Errors raised by the code ([throw new Error(...)]) and by the
    JavaScript runtime ([TypeError] on a property of [undefined]). *)
Inductive RRError :=
  | UnsupportedOperation (method : string)
  | DuplicateRoot (nodeType : NodeType)
  | ReferenceNotFound
  | NotImplemented
  | TypeError.

Inductive Outcome (S A : Type) :=
  | Ok (a : A) (s : S)
  | Throw (e : RRError) (s : S).
Arguments Ok {S A} a s.
Arguments Throw {S A} e s.

Definition M (S A : Type) : Type := S -> Outcome S A.

Definition ret {S A} (a : A) : M S A := fun s => Ok a s.
Definition bind {S A B} (m : M S A) (k : A -> M S B) : M S B :=
  fun s => match m s with
           | Ok a s' => k a s'
           | Throw e s' => Throw e s'
           end.
Definition throw {S A} (e : RRError) : M S A := fun s => Throw e s.
Definition get {S} : M S S := fun s => Ok s s.
Definition modify {S} (f : S -> S) : M S unit := fun s => Ok tt (f s).

Notation "'let!' x ':=' m 'in' k" := (bind m (fun x => k))
  (at level 10, x name, m at level 100, k at level 200, only parsing).
Notation "m ';;;' k" := (bind m (fun _ => k))
  (at level 100, k at level 200, right associativity, only parsing).

(** The final state of a computation, whether it returned or threw. *)
Definition final {S A} (o : Outcome S A) : S :=
  match o with Ok _ s => s | Throw _ s => s end.

Definition threw {S A} (o : Outcome S A) : option RRError :=
  match o with Ok _ _ => None | Throw e _ => Some e end.

(** ** Data model *)

(** Identity of a virtual node (a JavaScript object reference). *)
Abbreviation addr := positive (only parsing).

(** [serializedNodeWithId] of rrweb-snapshot, as far as this code reads
    and writes it.  [sn_type] is [None] when [NodeTypeMap] has no entry
    for the live node's kind. *)
Record serializedNodeWithId := mkSN {
  sn_type : option NodeType;
  sn_textContent : option string;
  sn_id : Z;
  sn_rootId : option Z;
}.

(** Values of the attribute bag: [string | number | boolean]. *)
Inductive AttrVal := AStr (s : string) | ANum (n : Z) | ABool (b : bool).

Global Instance AttrVal_eq_dec : EqDecision AttrVal.
Proof. solve_decision. Defined.

Record RRWindow := mkWindow { w_scrollLeft : Z; w_scrollTop : Z }.

(** The specialisations of [RRElement]. *)
Inductive ElementClass :=
  | PlainElement
  | ImageElement (src : option string) (width height : option Z)
  | MediaElement (currentTime : Z) (paused : bool)
  | IframeElement (width height src : string)
                  (contentDocument : addr) (contentWindow : RRWindow).

Record ElementData := mkElement {
  tagName : string;
  attributes : gmap string AttrVal;
  scrollLeft : Z;
  scrollTop : Z;
  shadowRoot : option addr;
  eclass : ElementClass;
}.

(** The concrete classes, with the fields each one adds to [RRNode]. *)
Inductive NodeClass :=
  | CDocument (mirror : gmap Z addr)
  | CDocumentType (name publicId systemId : string)
  | CElement (e : ElementData)
  | CText (textContent : string)
  | CComment (data : string)
  | CCDATASection (data : option string).

Record RRNode := mkNode {
  __sn : option serializedNodeWithId;
  children : list addr;
  parentElement : option addr;
  parentNode : option addr;
  cls : NodeClass;
}.

Abbreviation heap := (gmap positive RRNode) (only parsing).

(** [get nodeType()]: a pure function of the class. *)
Definition nodeType (n : RRNode) : NodeType :=
  match cls n with
  | CDocument _ => Document
  | CDocumentType _ _ _ => DocumentType
  | CElement _ => Element
  | CText _ => Text
  | CCDATASection _ => CDATA
  | CComment _ => Comment
  end.

Definition isRRElement (n : RRNode) : bool :=
  match cls n with CElement _ => true | _ => false end.

(** Field updates. *)
Definition set_sn (v : option serializedNodeWithId) (n : RRNode) : RRNode :=
  mkNode v (children n) (parentElement n) (parentNode n) (cls n).
Definition set_children (v : list addr) (n : RRNode) : RRNode :=
  mkNode (__sn n) v (parentElement n) (parentNode n) (cls n).
Definition set_parentElement (v : option addr) (n : RRNode) : RRNode :=
  mkNode (__sn n) (children n) v (parentNode n) (cls n).
Definition set_parentNode (v : option addr) (n : RRNode) : RRNode :=
  mkNode (__sn n) (children n) (parentElement n) v (cls n).
Definition set_cls (v : NodeClass) (n : RRNode) : RRNode :=
  mkNode (__sn n) (children n) (parentElement n) (parentNode n) v.

(** Reading an object, and writing one of its fields.  A reference that
    designates no object is JavaScript's [undefined]: using it raises
    [TypeError]. *)
Definition load (a : addr) : M heap RRNode :=
  fun h => match h !! a with
           | Some n => Ok n h
           | None => Throw TypeError h
           end.

Definition update (a : addr) (f : RRNode -> RRNode) : M heap unit :=
  fun h => match h !! a with
           | Some n => Ok tt (<[a := f n]> h)
           | None => Throw TypeError h
           end.

(** [new C(...)]: a fresh object. *)
Definition alloc (n : RRNode) : M heap addr :=
  fun h => let a := fresh (dom h) in Ok a (<[a := n]> h).

Definition new_node (c : NodeClass) : RRNode := mkNode None [] None None c.

(** Field reads used in statements. *)
Definition children_of (h : heap) (a : addr) : list addr :=
  match h !! a with Some n => children n | None => [] end.
Definition parentNode_of (h : heap) (a : addr) : option addr :=
  match h !! a with Some n => parentNode n | None => None end.
Definition parentElement_of (h : heap) (a : addr) : option addr :=
  match h !! a with Some n => parentElement n | None => None end.
Definition nodeType_of (h : heap) (a : addr) : option NodeType :=
  nodeType <$> h !! a.

(** ** Arrays *)

(** [Array.prototype.indexOf]: the first index holding the reference,
    [None] for JavaScript's [-1]. *)
Fixpoint indexOf (x : addr) (l : list addr) : option nat :=
  match l with
  | [] => None
  | y :: l' => if decide (y = x) then Some 0%nat
               else S <$> indexOf x l'
  end.

(** [l.splice(i, 1)] and [l.splice(i, 0, x)] for [i] within bounds. *)
Definition splice_remove (i : nat) (l : list addr) : list addr :=
  take i l ++ drop (S i) l.
Definition splice_insert (i : nat) (x : addr) (l : list addr) : list addr :=
  take i l ++ x :: drop i l.

(** [l.some(p)] where [p] reads the store. *)
Definition some_child (h : heap) (p : RRNode -> bool) (l : list addr) : bool :=
  existsb (fun s => match h !! s with Some n => p n | None => false end) l.

(** ** RRNode: the base class *)

Definition RRNode_appendChild (this newChild : addr) : M heap addr :=
  throw (UnsupportedOperation "appendChild").

Definition RRNode_insertBefore (this newChild : addr) (refChild : option addr)
  : M heap addr :=
  throw (UnsupportedOperation "insertBefore").

Definition RRNode_contains (this node : addr) : M heap bool :=
  throw NotImplemented.

Definition RRNode_removeChild (this node : addr) : M heap unit :=
  let! t := load this in
  match indexOf node (children t) with
  | Some indexOfChild =>
      update this (fun n => set_children (splice_remove indexOfChild (children n)) n);;;
      update node (set_parentElement None);;;
      update node (set_parentNode None)
  | None => ret tt
  end.

(** ** RRDocument *)

Definition RRDocument_appendChild (this childNode : addr) : M heap addr :=
  let! c := load childNode in
  let nodeType_ := nodeType c in
  (if decide (nodeType_ = Element \/ nodeType_ = DocumentType) then
     let! d := load this in
     let! h := get in
     if some_child h (fun s => bool_decide (nodeType s = nodeType_)) (children d)
     then throw (DuplicateRoot nodeType_)
     else ret tt
   else ret tt);;;
  update childNode (set_parentElement None);;;
  update childNode (set_parentNode (Some this));;;
  update this (fun n => set_children (children n ++ [childNode]) n);;;
  ret childNode.

Definition RRDocument_insertBefore (this newChild : addr) (refChild : option addr)
  : M heap addr :=
  match refChild with
  | None => RRDocument_appendChild this newChild
  | Some refChild =>
      let! d := load this in
      match indexOf refChild (children d) with
      | None => throw ReferenceNotFound
      | Some childIndex =>
          update this
            (fun n => set_children (splice_insert childIndex newChild (children n)) n);;;
          ret newChild
      end
  end.

(** ** RRElement *)

Definition RRElement_appendChild (this newChild : addr) : M heap addr :=
  update this (fun n => set_children (children n ++ [newChild]) n);;;
  update newChild (set_parentNode (Some this));;;
  update newChild (set_parentElement (Some this));;;
  ret newChild.

Definition RRElement_insertBefore (this newChild : addr) (refChild : option addr)
  : M heap addr :=
  match refChild with
  | None => RRElement_appendChild this newChild
  | Some refChild =>
      let! e := load this in
      match indexOf refChild (children e) with
      | None => throw ReferenceNotFound
      | Some childIndex =>
          update this
            (fun n => set_children (splice_insert childIndex newChild (children n)) n);;;
          ret newChild
      end
  end.

(** ** Method dispatch on the receiver's class *)

Definition appendChild (this newChild : addr) : M heap addr :=
  let! t := load this in
  match cls t with
  | CDocument _ => RRDocument_appendChild this newChild
  | CElement _ => RRElement_appendChild this newChild
  | _ => RRNode_appendChild this newChild
  end.

Definition insertBefore (this newChild : addr) (refChild : option addr)
  : M heap addr :=
  let! t := load this in
  match cls t with
  | CDocument _ => RRDocument_insertBefore this newChild refChild
  | CElement _ => RRElement_insertBefore this newChild refChild
  | _ => RRNode_insertBefore this newChild refChild
  end.

(** [removeChild] and [contains] are inherited unchanged by every class. *)
Definition removeChild (this node : addr) : M heap unit :=
  RRNode_removeChild this node.

Definition contains (this node : addr) : M heap bool :=
  RRNode_contains this node.

(** ** Style projection *)

(** Truthiness of an attribute value. *)
Definition truthy (v : AttrVal) : bool :=
  match v with
  | AStr s => negb (String.eqb s "")
  | ANum n => negb (n =? 0)
  | ABool b => b
  end.

(** [!value] for [value : string | null]. *)
Definition falsy (value : option string) : bool :=
  match value with
  | None => true
  | Some s => String.eqb s ""
  end.

(** The object returned by [get style()]: its own properties in the
    order in which the host enumerates them, string-valued but for the
    [setProperty] closure stored on the object itself. *)
Inductive StyleVal := SStr (s : string) | SSetProperty.

Global Instance StyleVal_eq_dec : EqDecision StyleVal.
Proof. solve_decision. Defined.

Abbreviation StyleObj := (list (string * StyleVal)) (only parsing).

(** The own property [k] of the object, if it has one. *)
Fixpoint obj_get (k : string) (o : StyleObj) : option StyleVal :=
  match o with
  | [] => None
  | (k', v) :: o' => if decide (k' = k) then Some v else obj_get k o'
  end.

(** Array indices: the keys that are the decimal writing, without
    leading zero, of an integer from 0 to 2^32 - 2.  An object
    enumerates them first, in increasing order, before its other keys,
    which come in the order of their creation. *)
Definition digit_of (c : Ascii.ascii) : option N :=
  let n := Ascii.N_of_ascii c in
  if ((48 <=? n) && (n <=? 57))%N then Some (n - 48)%N else None.

Fixpoint digits_value (acc : N) (s : string) : option N :=
  match s with
  | EmptyString => Some acc
  | String c s' =>
      match digit_of c with
      | Some d => digits_value (10 * acc + d)%N s'
      | None => None
      end
  end.

Definition array_index (k : string) : option N :=
  match k with
  | EmptyString => None
  | String c s' =>
      if (Ascii.eqb c "0"%char && negb (String.eqb s' ""))%bool then None
      else match digits_value 0 k with
           | Some n => if (n <=? 4294967294)%N then Some n else None
           | None => None
           end
  end.

(** Overwriting the value of a property the object has: the property
    keeps its place. *)
Fixpoint obj_replace (k : string) (v : StyleVal) (o : StyleObj) : StyleObj :=
  match o with
  | [] => []
  | (k', v') :: o' =>
      if decide (k' = k) then (k, v) :: o' else (k', v') :: obj_replace k v o'
  end.

(** Creating the array index [n]: it goes before the first key that is
    a larger index or no index at all. *)
Fixpoint obj_insert_index (n : N) (k : string) (v : StyleVal) (o : StyleObj)
  : StyleObj :=
  match o with
  | [] => [(k, v)]
  | (k', v') :: o' =>
      match array_index k' with
      | Some m => if (m <? n)%N then (k', v') :: obj_insert_index n k v o'
                  else (k, v) :: o
      | None => (k, v) :: o
      end
  end.

(** Writing the own property [k]: overwrite it, or create it. *)
Definition obj_put (k : string) (v : StyleVal) (o : StyleObj) : StyleObj :=
  match obj_get k o with
  | Some _ => obj_replace k v o
  | None =>
      match array_index k with
      | Some n => obj_insert_index n k v o
      | None => o ++ [(k, v)]
      end
  end.

(** [o[k] = v] on a plain object, for the values the code assigns (a
    string under a computed key, the closure under [setProperty]).  The
    key [__proto__] is not a data property: it is the accessor inherited
    from [Object.prototype], whose setter ignores a string, so that
    assignment leaves the object as it was.  Every other key becomes an
    own property. *)
Definition obj_set (k : string) (v : StyleVal) (o : StyleObj) : StyleObj :=
  if decide (k = "__proto__") then o else obj_put k v o.

(** [delete o[k]]. *)
Fixpoint obj_delete (k : string) (o : StyleObj) : StyleObj :=
  match o with
  | [] => []
  | (k', v') :: o' =>
      if decide (k' = k) then obj_delete k o' else (k', v') :: obj_delete k o'
  end.

Definition set_attributes (v : gmap string AttrVal) (e : ElementData) : ElementData :=
  mkElement (tagName e) v (scrollLeft e) (scrollTop e) (shadowRoot e) (eclass e).

(** [attributes[k] = v] on the plain object [attributes], for a string,
    number or boolean [v]: every key becomes an own property, except
    [__proto__], whose inherited setter ignores a primitive. *)
Definition prop_set (k : string) (v : AttrVal) (m : gmap string AttrVal)
  : gmap string AttrVal :=
  if decide (k = "__proto__") then m else <[k := v]> m.

Definition set_attribute (k : string) (v : AttrVal) (n : RRNode) : RRNode :=
  match cls n with
  | CElement e => set_cls (CElement (set_attributes (prop_set k v (attributes e)) e)) n
  | _ => n
  end.

Definition load_element (a : addr) : M heap ElementData :=
  let! n := load a in
  match cls n with
  | CElement e => ret e
  | _ => throw TypeError
  end.

(** The own property [k] of the [attributes] object of the element at
    [a], if it has one. *)
Definition attribute_of (h : heap) (a : addr) (k : string) : option AttrVal :=
  match h !! a with
  | Some n => match cls n with
              | CElement e => attributes e !! k
              | _ => None
              end
  | None => None
  end.

Section Style.

(** The primitives imported from [./style]: text to property map,
    property map to text, and the property-name normaliser. *)
Variable parseCSSText : AttrVal -> list (string * string).
Variable toCSSText : StyleObj -> string.
Variable camelize : string -> string.

(** The object built by [get style()] from the element's fields. *)
Definition style_view (e : ElementData) : StyleObj :=
  let style : StyleObj :=
    match attributes e !! "style" with
    | Some v => if truthy v
                then prod_map id SStr <$> parseCSSText v
                else []
    | None => []
    end in
  obj_set "setProperty" SSetProperty style.

(** [get style()] *)
Definition RRElement_style (this : addr) : M heap StyleObj :=
  let! e := load_element this in
  ret (style_view e).

(** The closure stored under [setProperty]; it captures the view
    [style] and the element [this], and mutates both.  The mutated
    view is returned. *)
Definition style_setProperty (this : addr) (style : StyleObj)
    (name : string) (value : option string) : M heap StyleObj :=
  match obj_get "setProperty" style with
  | Some SSetProperty =>
      let normalizedName := camelize name in
      let style' :=
        if falsy value then obj_delete normalizedName style
        else obj_set normalizedName (SStr (default "" value)) style in
      update this (set_attribute "style" (AStr (toCSSText style')));;;
      ret style'
  | _ => throw TypeError
  end.

(** [this.style.setProperty(name, value)] *)
Definition RRElement_style_setProperty (this : addr)
    (name : string) (value : option string) : M heap StyleObj :=
  let! style := RRElement_style this in
  style_setProperty this style name value.

End Style.

(** [setAttribute], [setAttributeNS], [removeAttribute], [attachShadow] *)
Definition RRElement_setAttribute (this : addr) (name attribute : string)
  : M heap unit :=
  let! _ := load_element this in
  update this (set_attribute name (AStr attribute)).

Definition RRElement_setAttributeNS (this : addr) (_namespace : option string)
    (qualifiedName value : string) : M heap unit :=
  RRElement_setAttribute this qualifiedName value.

Definition delete_attribute (k : string) (n : RRNode) : RRNode :=
  match cls n with
  | CElement e => set_cls (CElement (set_attributes (delete k (attributes e)) e)) n
  | _ => n
  end.

Definition RRElement_removeAttribute (this : addr) (name : string) : M heap unit :=
  let! _ := load_element this in
  update this (delete_attribute name).

(** ** RRDocument: factory methods *)

(** [String.prototype.toLowerCase] and [trim] on strings of ASCII
    characters, where they only touch [A]-[Z] and the six ASCII blanks.
    Outside that range the host follows the Unicode tables, which are
    not modelled: a statement that reads the lower-cased text of an
    arbitrary string assumes [ascii_only] of it. *)
Definition ascii_only (s : string) : bool :=
  forallb (fun c => (Ascii.nat_of_ascii c <? 128)%nat) (String.list_ascii_of_string s).

Definition lower_ascii (c : Ascii.ascii) : Ascii.ascii :=
  let n := Ascii.nat_of_ascii c in
  if ((65 <=? n)%nat && (n <=? 90)%nat)%bool then Ascii.ascii_of_nat (n + 32) else c.

Fixpoint toLowerCase (s : string) : string :=
  match s with
  | EmptyString => EmptyString
  | String c s' => String (lower_ascii c) (toLowerCase s')
  end.

Definition is_space (c : Ascii.ascii) : bool :=
  let n := Ascii.nat_of_ascii c in
  ((n =? 32) || ((9 <=? n) && (n <=? 13)))%nat%bool.

Fixpoint trimStart (s : string) : string :=
  match s with
  | EmptyString => EmptyString
  | String c s' => if is_space c then trimStart s' else s
  end.

Fixpoint trimEnd (s : string) : string :=
  match s with
  | EmptyString => EmptyString
  | String c s' =>
      match trimEnd s' with
      | EmptyString => if is_space c then EmptyString else String c EmptyString
      | t => String c t
      end
  end.

Definition trim (s : string) : string := trimEnd (trimStart s).

Definition new_element (tagName : string) (c : ElementClass) : RRNode :=
  new_node (CElement (mkElement tagName ∅ 0 0 None c)).

Definition RRDocument_createDocument (this : addr) : M heap addr :=
  alloc (new_node (CDocument ∅)).

Definition RRDocument_createDocumentType (this : addr)
    (qualifiedName publicId systemId : string) : M heap addr :=
  alloc (new_node (CDocumentType qualifiedName publicId systemId)).

Definition RRDocument_createElement (this : addr) (tagName : string)
  : M heap addr :=
  let lowerTagName := toLowerCase tagName in
  if decide (lowerTagName = "audio" \/ lowerTagName = "video") then
    alloc (new_element lowerTagName (MediaElement 0 true))
  else if decide (lowerTagName = "iframe") then
    let! contentDocument := alloc (new_node (CDocument ∅)) in
    alloc (new_element lowerTagName
             (IframeElement "" "" "" contentDocument (mkWindow 0 0)))
  else if decide (lowerTagName = "img") then
    alloc (new_element "img" (ImageElement None None None))
  else
    alloc (new_element lowerTagName PlainElement).

Definition RRDocument_createElementNS (this : addr) (_namespaceURI : string)
    (qualifiedName : string) : M heap addr :=
  RRDocument_createElement this qualifiedName.

Definition RRDocument_createComment (this : addr) (data : string) : M heap addr :=
  alloc (new_node (CComment data)).

Definition RRDocument_createCDATASection (this : addr) (data : option string)
  : M heap addr :=
  alloc (new_node (CCDATASection data)).

Definition RRDocument_createTextNode (this : addr) (data : string) : M heap addr :=
  alloc (new_node (CText data)).

(** ** The live tree *)

(** Identity of a live node. *)
Abbreviation lid := nat (only parsing).

(** What the walk reads from a live element. *)
Record LiveElement := mkLiveElement {
  le_isForm : bool;                       (* instanceof HTMLFormElement *)
  le_tagName : string;
  le_attributes : list (string * string);
  le_value : option string;
  le_checked : bool;
  le_selected : bool;
  le_parentValue : option (option string); (* parentElement.value *)
  le_dataURL : string;                    (* toDataURL() *)
  le_paused : bool;
  le_currentTime : Z;
  le_scrollLeft : Z;
  le_scrollTop : Z;
}.

(** The kinds of live node, by [node.nodeType]. *)
Inductive LiveKind :=
  | LDocument
  | LDocumentType (name publicId systemId : string)
  | LElement (el : LiveElement)
  | LText (textContent : string)
  | LCDATASection
  | LComment (textContent : option string)
  | LOther.

(** A live node: its identity, [parentElement || parentNode], its kind
    and its [childNodes]. *)
#[local] Unset Elimination Schemes.
Inductive LNode :=
  | LN (id : lid) (parent : option lid) (kind : LiveKind) (childNodes : list LNode).
#[local] Set Elimination Schemes.

Definition l_id (n : LNode) : lid := match n with LN i _ _ _ => i end.

(** One visit of the walk, kept as history: the live node, whether it
    carried an [__sn] record on arrival, and the id it is known under
    from then on. *)
Record Visit := mkVisit {
  v_node : lid;
  v_had_sn : bool;
  v_id : Z;
}.

(** State of a document and of its host: the store of virtual nodes,
    the [__sn] records stamped on live nodes, the local counter
    [notSerializedId] of the running [buildFromDom], and the history of
    visits, oldest first. *)
Record DomState := mkState {
  st_heap : heap;
  st_live_sn : gmap nat serializedNodeWithId;
  notSerializedId : Z;
  visits : list Visit;
}.

(** The ids generated along a history, in visit order. *)
Definition generated (vs : list Visit) : list Z :=
  v_id <$> filter (fun v => v_had_sn v = false) vs.

Definition liftH {A} (m : M heap A) : M DomState A :=
  fun st => match m (st_heap st) with
            | Ok a h => Ok a (mkState h (st_live_sn st) (notSerializedId st) (visits st))
            | Throw e h => Throw e (mkState h (st_live_sn st) (notSerializedId st) (visits st))
            end.

(** [NodeTypeMap[node.nodeType]] *)
Definition NodeTypeMap (k : LiveKind) : option NodeType :=
  match k with
  | LDocument => Some Document
  | LDocumentType _ _ _ => Some DocumentType
  | LElement _ => Some Element
  | LText _ => Some Text
  | LCDATASection => Some CDATA
  | LComment _ => Some Comment
  | LOther => None
  end.

Definition getValidTagName (element : LiveElement) : string :=
  if le_isForm element then "form"
  else trim (toLowerCase (le_tagName element)).

(** ** The mirror of a document *)

Definition load_mirror (this : addr) : M heap (gmap Z addr) :=
  let! d := load this in
  match cls d with
  | CDocument mirror => ret mirror
  | _ => throw TypeError
  end.

Definition mirror_of (h : heap) (this : addr) : gmap Z addr :=
  match h !! this with
  | Some n => match cls n with CDocument mirror => mirror | _ => ∅ end
  | None => ∅
  end.

Definition mirror_has (this : addr) (id : Z) : M heap bool :=
  let! mirror := load_mirror this in
  ret (bool_decide (is_Some (mirror !! id))).

Definition mirror_get (this : addr) (id : Z) : M heap (option addr) :=
  let! mirror := load_mirror this in
  ret (mirror !! id).

Definition mirror_set (this : addr) (id : Z) (node : addr) : M heap unit :=
  let! mirror := load_mirror this in
  update this (set_cls (CDocument (<[id := node]> mirror))).

Definition RRDocument_destroyTree (this : addr) : M heap unit :=
  update this (set_children []);;;
  let! _ := load_mirror this in
  update this (set_cls (CDocument ∅)).

(** ** buildFromDom: the synchronisation walk *)

(** Step 2 of the walk: read [node.__sn]; when absent, build a record
    with the next generated id, decrement the counter and stamp the
    record on the live node. *)
Definition identify (id : lid) (kind : LiveKind) : M DomState serializedNodeWithId :=
  fun st =>
    match st_live_sn st !! id with
    | Some serializedNodeWithId =>
        Ok serializedNodeWithId
           (mkState (st_heap st) (st_live_sn st) (notSerializedId st)
                    (visits st ++ [mkVisit id true (sn_id serializedNodeWithId)]))
    | None =>
        let serializedNodeWithId :=
          mkSN (NodeTypeMap kind) (Some "") (notSerializedId st) None in
        Ok serializedNodeWithId
           (mkState (st_heap st)
                    (<[id := serializedNodeWithId]> (st_live_sn st))
                    (notSerializedId st - 1)
                    (visits st ++ [mkVisit id false (notSerializedId st)]))
    end.

Definition set_scrollLeft (v : Z) (n : RRNode) : RRNode :=
  match cls n with
  | CElement e =>
      set_cls (CElement (mkElement (tagName e) (attributes e) v (scrollTop e)
                           (shadowRoot e) (eclass e))) n
  | _ => n
  end.

Definition set_scrollTop (v : Z) (n : RRNode) : RRNode :=
  match cls n with
  | CElement e =>
      set_cls (CElement (mkElement (tagName e) (attributes e) (scrollLeft e) v
                           (shadowRoot e) (eclass e))) n
  | _ => n
  end.

Definition set_media (paused : bool) (currentTime : Z) (n : RRNode) : RRNode :=
  match cls n with
  | CElement e =>
      match eclass e with
      | MediaElement _ _ =>
          set_cls (CElement (mkElement (tagName e) (attributes e) (scrollLeft e)
                               (scrollTop e) (shadowRoot e)
                               (MediaElement currentTime paused))) n
      | _ => n
      end
  | _ => n
  end.

(** The [case node.ELEMENT_NODE] branch: create the element and capture
    the state of the live one. *)
Definition build_element (this : addr) (elementNode : LiveElement) : M heap addr :=
  let tagName := getValidTagName elementNode in
  let! rrNode := RRDocument_createElement this tagName in
  foldr (fun '(name, value) k => update rrNode (set_attribute name (AStr value));;; k)
        (ret tt) (le_attributes elementNode);;;
  (if decide (tagName = "input" \/ tagName = "textarea" \/ tagName = "select") then
     let! h := get in
     let type := attribute_of h rrNode "type" in
     if bool_decide (type ∈ [Some (AStr "radio"); Some (AStr "checkbox");
                             Some (AStr "submit"); Some (AStr "button")])
        && negb (falsy (le_value elementNode))
     then update rrNode (set_attribute "value" (AStr (default "" (le_value elementNode))))
     else if le_checked elementNode
          then update rrNode (set_attribute "checked" (ABool (le_checked elementNode)))
          else ret tt
   else ret tt);;;
  (if decide (tagName = "option") then
     match le_parentValue elementNode with
     | None => throw TypeError
     | Some selectValue =>
         let! h := get in
         if decide (attribute_of h rrNode "value" = AStr <$> selectValue)
         then update rrNode (set_attribute "selected" (ABool (le_selected elementNode)))
         else ret tt
     end
   else ret tt);;;
  (if decide (tagName = "canvas")
   then update rrNode (set_attribute "rr_dataURL" (AStr (le_dataURL elementNode)))
   else ret tt);;;
  (if decide (tagName = "audio" \/ tagName = "video")
   then update rrNode (set_media (le_paused elementNode) (le_currentTime elementNode))
   else ret tt);;;
  (if le_scrollLeft elementNode =? 0 then ret tt
   else update rrNode (set_scrollLeft (le_scrollLeft elementNode)));;;
  (if le_scrollTop elementNode =? 0 then ret tt
   else update rrNode (set_scrollTop (le_scrollTop elementNode)));;;
  ret rrNode.

(** The [switch (node.nodeType)]: [None] is the [default: return]. *)
Definition create_node (this : addr) (serializedNodeWithId : serializedNodeWithId)
    (kind : LiveKind) : M heap (option addr) :=
  match kind with
  | LDocument =>
      if bool_decide (is_Some (sn_rootId serializedNodeWithId)
                      /\ sn_rootId serializedNodeWithId <> Some 0)
      then (let! a := RRDocument_createDocument this in ret (Some a))
      else ret (Some this)
  | LDocumentType name publicId systemId =>
      let! a := RRDocument_createDocumentType this name publicId systemId in
      ret (Some a)
  | LElement elementNode =>
      let! a := build_element this elementNode in ret (Some a)
  | LText textContent =>
      let! a := RRDocument_createTextNode this textContent in ret (Some a)
  | LCDATASection =>
      let! a := RRDocument_createCDATASection this None in ret (Some a)
  | LComment textContent =>
      let! a := RRDocument_createComment this
                  (match textContent with
                   | Some s => if String.eqb s "" then "" else s
                   | None => ""
                   end) in
      ret (Some a)
  | LOther => ret None
  end.

(** Step 3: reuse the node the mirror holds for this id, or create one
    and register it. *)
Definition resolve (this : addr) (serializedNodeWithId : serializedNodeWithId)
    (kind : LiveKind) : M heap (option addr) :=
  let! has := mirror_has this (sn_id serializedNodeWithId) in
  if negb has then
    let! created := create_node this serializedNodeWithId kind in
    match created with
    | None => ret None
    | Some rrNode =>
        update rrNode (set_sn (Some serializedNodeWithId));;;
        mirror_set this (sn_id serializedNodeWithId) rrNode;;;
        ret (Some rrNode)
    end
  else
    let! found := mirror_get this (sn_id serializedNodeWithId) in
    match found with
    | None => throw TypeError
    | Some rrNode =>
        update rrNode (set_parentElement None);;;
        update rrNode (set_parentNode None);;;
        update rrNode (set_children []);;;
        ret (Some rrNode)
    end.

(** Step 5: append the node to the virtual node of its live parent. *)
Definition attach (this rrNode : addr) (parent : option lid) : M DomState unit :=
  match parent with
  | None => ret tt
  | Some parentNode =>
      let! st := get in
      match st_live_sn st !! parentNode with
      | None => throw TypeError
      | Some parentSN =>
          let! found := liftH (mirror_get this (sn_id parentSN)) in
          match found with
          | None => throw TypeError
          | Some parentRRNode =>
              liftH (appendChild parentRRNode rrNode);;;
              liftH (update rrNode (set_parentNode (Some parentRRNode)));;;
              let! p := liftH (load parentRRNode) in
              liftH (update rrNode
                       (set_parentElement
                          (if isRRElement p then Some parentRRNode else None)))
          end
      end
  end.

Definition recurses (serializedNodeWithId : serializedNodeWithId) : bool :=
  bool_decide (sn_type serializedNodeWithId = Some Document
               \/ sn_type serializedNodeWithId = Some Element).

Fixpoint walk (this : addr) (node : LNode) {struct node} : M DomState unit :=
  match node with
  | LN id parent kind childNodes =>
      let! serializedNodeWithId := identify id kind in
      let! resolved := liftH (resolve this serializedNodeWithId kind) in
      match resolved with
      | None => ret tt
      | Some rrNode =>
          attach this rrNode parent;;;
          if recurses serializedNodeWithId then
            (fix forEach (l : list LNode) : M DomState unit :=
               match l with
               | [] => ret tt
               | node :: l' => walk this node;;; forEach l'
               end) childNodes
          else ret tt
      end
  end.

Definition walk_all (this : addr) : list LNode -> M DomState unit :=
  fix forEach (l : list LNode) : M DomState unit :=
    match l with
    | [] => ret tt
    | node :: l' => walk this node;;; forEach l'
    end.

Definition RRDocument_buildFromDom (this : addr) (dom : option LNode)
  : M DomState unit :=
  modify (fun st => mkState (st_heap st) (st_live_sn st) (-1) (visits st));;;
  match dom with
  | Some dom =>
      liftH (RRDocument_destroyTree this);;;
      walk this dom
  | None => ret tt
  end.

(** ** The earlier revision of the base class, [tree-node.ts] *)

Module TreeNode.

(** [contains(node) { return false; }] *)
Definition RRNode_contains (this node : addr) : M heap bool :=
  ret false.

(** [removeChild(node) {}] *)
Definition RRNode_removeChild (this node : addr) : M heap unit :=
  ret tt.

End TreeNode.

(** ** A sample implementation of the style primitives *)

(** Modelled from the spec: the module [./style] ([parseCSSText],
    [toCSSText], [camelize]) is not among the sources; the spec describes
    it as two pure functions, text to property map and property map to
    text, plus a normaliser from kebab-case names to camel-case keys.
    The definitions below are one such triple, for declarations written
    [name: value;].  They only serve to instantiate the style
    projection, which is parametric in its primitives. *)
Definition is_lower (c : Ascii.ascii) : bool :=
  let n := Ascii.nat_of_ascii c in ((97 <=? n) && (n <=? 122))%nat%bool.
Definition is_upper (c : Ascii.ascii) : bool :=
  let n := Ascii.nat_of_ascii c in ((65 <=? n) && (n <=? 90))%nat%bool.
Definition upper_ascii (c : Ascii.ascii) : Ascii.ascii :=
  if is_lower c then Ascii.ascii_of_nat (Ascii.nat_of_ascii c - 32) else c.

Fixpoint sample_camelize (s : string) : string :=
  match s with
  | EmptyString => EmptyString
  | String c1 s1 =>
      match s1 with
      | String c2 s2 =>
          if (Ascii.eqb c1 "-"%char && is_lower c2)%bool
          then String (upper_ascii c2) (sample_camelize s2)
          else String c1 (sample_camelize s1)
      | EmptyString => String c1 EmptyString
      end
  end.

Fixpoint sample_hyphenate (s : string) : string :=
  match s with
  | EmptyString => EmptyString
  | String c s' =>
      if is_upper c then String "-"%char (String (lower_ascii c) (sample_hyphenate s'))
      else String c (sample_hyphenate s')
  end.

Fixpoint split_on (c : Ascii.ascii) (s : string) : list string :=
  match s with
  | EmptyString => [EmptyString]
  | String x s' =>
      if Ascii.eqb x c then EmptyString :: split_on c s'
      else match split_on c s' with
           | item :: items => String x item :: items
           | [] => [String x EmptyString]
           end
  end.

Fixpoint split_first (c : Ascii.ascii) (s : string) : option (string * string) :=
  match s with
  | EmptyString => None
  | String x s' =>
      if Ascii.eqb x c then Some (EmptyString, s')
      else match split_first c s' with
           | Some (name, value) => Some (String x name, value)
           | None => None
           end
  end.

Fixpoint assoc_set (k v : string) (o : list (string * string)) : list (string * string) :=
  match o with
  | [] => [(k, v)]
  | (k', v') :: o' =>
      if decide (k' = k) then (k, v) :: o' else (k', v') :: assoc_set k v o'
  end.

Definition sample_parseCSSText (cssText : AttrVal) : list (string * string) :=
  match cssText with
  | AStr text =>
      foldl (fun res item =>
               match split_first ":"%char item with
               | Some (name, value) =>
                   assoc_set (sample_camelize (trim name)) (trim value) res
               | None => res
               end)
            [] (split_on ";"%char text)
  | _ => []
  end.

Fixpoint join_with (sep : string) (l : list string) : string :=
  match l with
  | [] => EmptyString
  | [x] => x
  | x :: l' => String.append x (String.append sep (join_with sep l'))
  end.

Definition sample_toCSSText (style : StyleObj) : string :=
  join_with " "
    (omap (fun '(name, value) =>
             match value with
             | SStr value =>
                 Some (String.append (sample_hyphenate name)
                         (String.append ": " (String.append value ";")))
             | SSetProperty => None
             end) style).

(** ** Auxiliary definitions for the statements *)

Ltac run :=
  unfold bind, load, update, ret, throw, get; simpl.

(** The store after a successful [RRDocument.appendChild]. *)
Definition appended (h : heap) (this childNode : addr) : heap :=
  let h2 := alter (fun c => set_parentNode (Some this) (set_parentElement None c))
                  childNode h in
  alter (fun n => set_children (children n ++ [childNode]) n) this h2.

Definition duplicate_root (h : heap) (d c : RRNode) : bool :=
  bool_decide (nodeType c = Element \/ nodeType c = DocumentType)
  && some_child h (fun s => bool_decide (nodeType s = nodeType c)) (children d).

(** The root constraint of a document: among its children, at most one
    Element and at most one DocumentType. *)
Definition count_kind (h : heap) (k : NodeType) (l : list addr) : nat :=
  length (filter (fun s => nodeType_of h s = Some k) l).

Definition root_constraint (h : heap) (this : addr) : Prop :=
  (count_kind h Element (children_of h this) <= 1)%nat
  /\ (count_kind h DocumentType (children_of h this) <= 1)%nat.

(** The ids [start], [start - 1], ..., [n] of them. *)
Fixpoint neg_seq (start : Z) (n : nat) : list Z :=
  match n with
  | O => []
  | S n' => start :: neg_seq (start - 1) n'
  end.

(** [extends st st']: [st'] is reached from [st] by visits that stamp
    live nodes and draw generated ids from the counter, one below the
    other. *)
Definition extends (st st' : DomState) : Prop :=
  exists new,
    visits st' = visits st ++ new
    /\ generated new = neg_seq (notSerializedId st) (length (generated new))
    /\ notSerializedId st' = notSerializedId st - Z.of_nat (length (generated new))
    /\ (forall l sn, st_live_sn st !! l = Some sn -> st_live_sn st' !! l = Some sn)
    /\ Forall (fun v =>
                 (exists sn, st_live_sn st' !! v_node v = Some sn /\ sn_id sn = v_id v)
                 /\ (v_had_sn v = false -> st_live_sn st !! v_node v = None)) new.

Definition preserves {A} (m : M DomState A) : Prop :=
  forall st, extends st (final (m st)).

(** A document (1) just created, in a host that has stamped nothing. *)
Definition fresh_state : DomState :=
  mkState {[ 1%positive := new_node (CDocument ∅) ]} ∅ 0 [].

Definition sample_live_element (tag : string) (attrs : list (string * string))
  : LiveElement :=
  mkLiveElement false tag attrs None false false None "" false 0 0 0.

(** The live tree [<html><body><div id="a">hi</div></body></html>]. *)
Definition sample_dom : LNode :=
  LN 0 None LDocument
    [LN 1 (Some 0%nat) (LElement (sample_live_element "HTML" []))
       [LN 2 (Some 1%nat) (LElement (sample_live_element "BODY" []))
          [LN 3 (Some 2%nat) (LElement (sample_live_element "DIV" [("id", "a")]))
             [LN 4 (Some 3%nat) (LText "hi") []]]]].

(** A live document alone, and the same document after the host gave
    it a child element. *)
Definition lone_dom : LNode := LN 0 None LDocument [].
Definition grown_dom : LNode :=
  LN 0 None LDocument [LN 1 (Some 0%nat) (LElement (sample_live_element "HTML" [])) []].

(** ** Sample stores *)

(** A document (1) holding a doctype (5) and the element [html] (2);
    a detached [div] (3), a detached text (4), a detached comment (6),
    and an element [body] (7) holding the element [p] (8). *)
Definition sample_store : heap :=
  <[1%positive := mkNode None [5; 2]%positive None None (CDocument ∅)]>
  (<[2%positive := mkNode None [] None (Some 1%positive)
                     (CElement (mkElement "html" ∅ 0 0 None PlainElement))]>
  (<[3%positive := new_element "div" PlainElement]>
  (<[4%positive := new_node (CText "hi")]>
  (<[5%positive := mkNode None [] None (Some 1%positive)
                     (CDocumentType "html" "" "")]>
  (<[6%positive := new_node (CComment "note")]>
  (<[7%positive := mkNode None [8%positive] None None
                     (CElement (mkElement "body" ∅ 0 0 None PlainElement))]>
  (<[8%positive := mkNode None [] (Some 7%positive) (Some 7%positive)
                     (CElement (mkElement "p" ∅ 0 0 None PlainElement))]>
   ∅))))))).

(** An element that carries a [style] attribute of two declarations. *)
Definition styled_element : ElementData :=
  mkElement "div" {[ "style" := AStr "color: blue; background-color: red;" ]}
            0 0 None PlainElement.

Definition styled_store : heap :=
  <[3%positive := new_node (CElement styled_element)]> sample_store.

(** ** RRWindow *)

(** [ScrollToOptions]: a coordinate is present when
    [typeof options.left === 'number']. *)
Record ScrollToOptions := mkScrollTo {
  opt_left : option Z;
  opt_top : option Z;
}.

Definition RRWindow_scrollTo (w : RRWindow) (options : option ScrollToOptions)
  : RRWindow :=
  match options with
  | None => w
  | Some options =>
      let w1 := match opt_left options with
                | Some x => mkWindow x (w_scrollTop w)
                | None => w
                end in
      match opt_top options with
      | Some y => mkWindow (w_scrollLeft w1) y
      | None => w1
      end
  end.

(** ** RRDocument: derived views *)

(** [node instanceof RRElement && node.tagName === tag] *)
Definition is_element_tagged (h : heap) (tag : string) (a : addr) : bool :=
  match h !! a with
  | Some n => match cls n with
              | CElement e => bool_decide (tagName e = tag)
              | _ => false
              end
  | None => false
  end.

(** [get documentElement()]: [None] is [undefined]. *)
Definition RRDocument_documentElement (h : heap) (this : addr) : option addr :=
  head (filter (fun node => is_element_tagged h "html" node = true)
               (children_of h this)).

(** [get body()] and [get head()]: [None] is [null]. *)
Definition RRDocument_body (h : heap) (this : addr) : option addr :=
  match RRDocument_documentElement h this with
  | Some documentElement =>
      head (filter (fun node => is_element_tagged h "body" node = true)
                   (children_of h documentElement))
  | None => None
  end.

Definition RRDocument_head (h : heap) (this : addr) : option addr :=
  match RRDocument_documentElement h this with
  | Some documentElement =>
      head (filter (fun node => is_element_tagged h "head" node = true)
                   (children_of h documentElement))
  | None => None
  end.

(** ** getElementsByTagName *)

Definition isRRElement_at (h : heap) (a : addr) : bool :=
  match h !! a with Some n => isRRElement n | None => false end.

(** One turn of the loop over [this.children]: a child that is an
    element contributes what the recursive call [recur] finds below it;
    any other child is passed over. *)
Definition collect_child (h : heap) (recur : addr -> option (list addr))
    (acc : option (list addr)) (child : addr) : option (list addr) :=
  match acc with
  | None => None
  | Some elements =>
      if isRRElement_at h child then
        match recur child with
        | Some found => Some (elements ++ found)
        | None => None
        end
      else Some elements
  end.

(** The method of [RRDocument] and of [RRElement] (the two bodies are
    the same text).  The recursion follows [children], which the store
    does not force to be a tree: [fuel] bounds the depth of the calls,
    and [None] means the bound was reached. *)
Fixpoint getElementsByTagName (fuel : nat) (h : heap) (this : addr)
    (tagName : string) : option (list addr) :=
  match fuel with
  | O => None
  | S fuel' =>
      let elements := if is_element_tagged h tagName this then [this] else [] in
      foldl (collect_child h (fun child => getElementsByTagName fuel' h child tagName))
            (Some elements) (children_of h this)
  end.

(** [a] is [this] or is reached from it through [children], every node
    on the way below [this] being an element. *)
Inductive element_descendant (h : heap) : addr -> addr -> Prop :=
  | ed_self (this : addr) : element_descendant h this this
  | ed_step (this child a : addr) :
      child ∈ children_of h this ->
      isRRElement_at h child = true ->
      element_descendant h child a ->
      element_descendant h this a.

(** The chains of element children below [a] have at most [n] links. *)
Fixpoint height_le (h : heap) (n : nat) (a : addr) : Prop :=
  match n with
  | O => forall c, c ∈ children_of h a -> isRRElement_at h c = false
  | S n' => forall c, c ∈ children_of h a -> isRRElement_at h c = true ->
                      height_le h n' c
  end.

(** A document tree: document (1) > [html] (2) > [head] (3), [body] (4);
    [body] > [div] (5), text (6), [div] (7); the first [div] > [span]
    (8) > [div] (9). *)
Definition tree_store : heap :=
  <[1%positive := mkNode None [2%positive] None None (CDocument ∅)]>
  (<[2%positive := mkNode None [3; 4]%positive None (Some 1%positive)
                     (CElement (mkElement "html" ∅ 0 0 None PlainElement))]>
  (<[3%positive := mkNode None [] (Some 2%positive) (Some 2%positive)
                     (CElement (mkElement "head" ∅ 0 0 None PlainElement))]>
  (<[4%positive := mkNode None [5; 6; 7]%positive (Some 2%positive) (Some 2%positive)
                     (CElement (mkElement "body" ∅ 0 0 None PlainElement))]>
  (<[5%positive := mkNode None [8%positive] (Some 4%positive) (Some 4%positive)
                     (CElement (mkElement "div" ∅ 0 0 None PlainElement))]>
  (<[6%positive := mkNode None [] (Some 4%positive) (Some 4%positive) (CText "hi")]>
  (<[7%positive := mkNode None [] (Some 4%positive) (Some 4%positive)
                     (CElement (mkElement "div" ∅ 0 0 None PlainElement))]>
  (<[8%positive := mkNode None [9%positive] (Some 5%positive) (Some 5%positive)
                     (CElement (mkElement "span" ∅ 0 0 None PlainElement))]>
  (<[9%positive := mkNode None [] (Some 8%positive) (Some 8%positive)
                     (CElement (mkElement "div" ∅ 0 0 None PlainElement))]>
   ∅)))))))).

(** The store after [RRElement.appendChild] and after a [removeChild]
    that finds its argument at index [i]. *)
Definition element_appended (h : heap) (this newChild : addr) : heap :=
  alter (fun c => set_parentElement (Some this) (set_parentNode (Some this) c))
        newChild
        (alter (fun n => set_children (children n ++ [newChild]) n) this h).

Definition removed (h : heap) (this node : addr) (i : nat) : heap :=
  alter (fun c => set_parentNode None (set_parentElement None c)) node
        (alter (fun n => set_children (splice_remove i (children n)) n) this h).

(** A sequence of [appendChild] attempts on one receiver; an attempt
    that raises is abandoned and the next one goes on from the store it
    left. *)
Fixpoint attempts (this : addr) (l : list addr) (h : heap) : heap :=
  match l with
  | [] => h
  | childNode :: l' => attempts this l' (final (appendChild this childNode h))
  end.

Ltac alter_lookup :=
  repeat first [ rewrite lookup_alter_eq
               | rewrite lookup_alter_ne by congruence ].

(** A document (1) with no children and a detached element [html] (2). *)
Definition empty_document_store : heap :=
  <[1%positive := new_node (CDocument ∅)]>
  (<[2%positive := new_element "html" PlainElement]> ∅).

(** The class [createElement] chooses for a lower-case tag name, when
    the tag is not [iframe]. *)
Definition simple_class (lowerTagName : string) : ElementClass :=
  if decide (lowerTagName = "audio" \/ lowerTagName = "video")
  then MediaElement 0 true
  else if decide (lowerTagName = "img") then ImageElement None None None
  else PlainElement.

(** Partial correctness on normal return: from a store satisfying [P],
    if [m] returns, the result and the store it leaves satisfy [Q]. *)
Definition returns {A} (P : heap -> Prop) (m : M heap A) (Q : A -> heap -> Prop)
  : Prop :=
  forall h a h', P h -> m h = Ok a h' -> Q a h'.

(** The attribute names the walk itself may write after copying the
    live attributes. *)
Definition captured_names : list string :=
  ["value"; "checked"; "selected"; "rr_dataURL"].

(** A live [canvas] and a live [input] as the walk sees them. *)
Definition sample_canvas : LiveElement :=
  mkLiveElement false "CANVAS" [("id", "c"); ("width", "300")]
                None false false None "data:image/png;base64,AAAA" false 0 0 0.

(** A live [div] one of whose attributes is named [__proto__]. *)
Definition sample_proto_div : LiveElement :=
  mkLiveElement false "DIV" [("__proto__", "x"); ("id", "c")]
                None false false None "" false 0 0 0.

(** The state left by a first call on [lone_dom]. *)
Definition walked_state : DomState :=
  final (RRDocument_buildFromDom 1%positive (Some lone_dom) fresh_state).

(** [rr] is an element whose attribute bag satisfies [Φ]. *)
Definition element_with (rr : addr) (Φ : gmap string AttrVal -> Prop) (h : heap)
  : Prop :=
  exists n e, h !! rr = Some n /\ cls n = CElement e /\ Φ (attributes e).

(** The loop copying the live attributes, as it stands in
    [build_element]. *)
Definition copy_attributes (rrNode : addr) (l : list (string * string))
  : M heap unit :=
  foldr (fun '(name, value) k => update rrNode (set_attribute name (AStr value));;; k)
        (ret tt) l.

(** The steps of [build_element] after the copy of the attributes, one
    definition per [if] of the source. *)
Definition capture_form (rrNode : addr) (elementNode : LiveElement)
    (tagName : string) : M heap unit :=
  if decide (tagName = "input" \/ tagName = "textarea" \/ tagName = "select") then
    let! h := get in
    let type := attribute_of h rrNode "type" in
    if bool_decide (type ∈ [Some (AStr "radio"); Some (AStr "checkbox");
                            Some (AStr "submit"); Some (AStr "button")])
       && negb (falsy (le_value elementNode))
    then update rrNode (set_attribute "value" (AStr (default "" (le_value elementNode))))
    else if le_checked elementNode
         then update rrNode (set_attribute "checked" (ABool (le_checked elementNode)))
         else ret tt
  else ret tt.

Definition capture_option (rrNode : addr) (elementNode : LiveElement)
    (tagName : string) : M heap unit :=
  if decide (tagName = "option") then
    match le_parentValue elementNode with
    | None => throw TypeError
    | Some selectValue =>
        let! h := get in
        if decide (attribute_of h rrNode "value" = AStr <$> selectValue)
        then update rrNode (set_attribute "selected" (ABool (le_selected elementNode)))
        else ret tt
    end
  else ret tt.

Definition capture_canvas (rrNode : addr) (elementNode : LiveElement)
    (tagName : string) : M heap unit :=
  if decide (tagName = "canvas")
  then update rrNode (set_attribute "rr_dataURL" (AStr (le_dataURL elementNode)))
  else ret tt.

Definition capture_tail (rrNode : addr) (elementNode : LiveElement)
    (tagName : string) : M heap addr :=
  (if decide (tagName = "audio" \/ tagName = "video")
   then update rrNode (set_media (le_paused elementNode) (le_currentTime elementNode))
   else ret tt);;;
  (if le_scrollLeft elementNode =? 0 then ret tt
   else update rrNode (set_scrollLeft (le_scrollLeft elementNode)));;;
  (if le_scrollTop elementNode =? 0 then ret tt
   else update rrNode (set_scrollTop (le_scrollTop elementNode)));;;
  ret rrNode.

(** [rr] is an element whose own fields satisfy [Ψ]. *)
Definition element_sat (rr : addr) (Ψ : ElementData -> Prop) (h : heap) : Prop :=
  exists n e, h !! rr = Some n /\ cls n = CElement e /\ Ψ e.

Definition element_of (h : heap) (a : addr) : option ElementData :=
  match h !! a with
  | Some n => match cls n with CElement e => Some e | _ => None end
  | None => None
  end.

(** A live radio button, checked, and a live [video] being played. *)
Definition sample_radio : LiveElement :=
  mkLiveElement false "INPUT" [("type", "radio"); ("name", "pick")]
                (Some "yes") true false None "" false 0 0 0.

Definition sample_video : LiveElement :=
  mkLiveElement false "VIDEO" [("src", "clip.mp4")]
                None false false None "" false 42 0 120.

(** A computation that records no visit and stamps no live node. *)
Definition silent {A} (m : M DomState A) : Prop :=
  forall st, visits (final (m st)) = visits st
             /\ st_live_sn (final (m st)) = st_live_sn st.

(** The type the walk reads on a node's record: the one the node
    carries, or the one generated from its kind. *)
Definition record_type (st : DomState) (id : lid) (kind : LiveKind)
  : option NodeType :=
  match st_live_sn st !! id with
  | Some serializedNodeWithId => sn_type serializedNodeWithId
  | None => NodeTypeMap kind
  end.

(** ** The order of a walk *)

(** Whether the walk goes below a node of this kind whose record has
    the type of the kind. *)
Definition descends (kind : LiveKind) : bool :=
  bool_decide (NodeTypeMap kind = Some Document \/ NodeTypeMap kind = Some Element).

(** The nodes of a live tree in document order, without what lies below
    a node that is neither a document nor an element. *)
Fixpoint walk_order (node : LNode) : list (lid * LiveKind) :=
  match node with
  | LN id _ kind childNodes =>
      (id, kind) ::
      (if descends kind
       then (fix each (l : list LNode) : list (lid * LiveKind) :=
               match l with
               | [] => []
               | child :: l' => walk_order child ++ each l'
               end) childNodes
       else [])
  end.

Definition walk_order_all : list LNode -> list (lid * LiveKind) :=
  fix each (l : list LNode) : list (lid * LiveKind) :=
    match l with
    | [] => []
    | child :: l' => walk_order child ++ each l'
    end.

(** Every record that a listed node carries has the type of the node's
    kind. *)
Definition records_match (live : gmap lid serializedNodeWithId)
    (l : list (lid * LiveKind)) : Prop :=
  forall id kind sn, (id, kind) ∈ l -> live !! id = Some sn ->
                     sn_type sn = NodeTypeMap kind.

(** The visits that reaching the nodes [l] in turn leaves in the
    history, for the records [live] present at the start and the next id
    to generate [c]: a node with a record is known under the id of its
    record, a node without one takes [c], and the next takes [c - 1]. *)
Fixpoint expected_visits (live : gmap lid serializedNodeWithId) (c : Z)
    (l : list lid) : list Visit :=
  match l with
  | [] => []
  | id :: l' =>
      match live !! id with
      | Some sn => mkVisit id true (sn_id sn) :: expected_visits live c l'
      | None => mkVisit id false c :: expected_visits live (c - 1) l'
      end
  end.

(** The outcome [o] of a walk started in [st] has reached the nodes
    [seen], in that order, and no other; [later] is what a walk that
    returns leaves unvisited. *)
Definition reaches (st : DomState) (o : Outcome DomState unit)
    (seen later : list lid) : Prop :=
  visits (final o)
  = visits st ++ expected_visits (st_live_sn st) (notSerializedId st) seen
  /\ (threw o = None -> later = [])
  /\ (forall l, (l ∉ seen) -> st_live_sn (final o) !! l = st_live_sn st !! l).

(** A live tree in which the host has already stamped the [body]. *)
Definition stamped_state : DomState :=
  mkState {[ 1%positive := new_node (CDocument ∅) ]}
          {[ 2%nat := mkSN (Some Element) None 7 None ]} 0 [].

(** * Properties *)

(** ** Arrays *)

Lemma indexOf_None (x : addr) (l : list addr) :
  indexOf x l = None <-> x ∉ l.
Proof.
  induction l as [|y l IH]; simpl.
  - split; [intros _; apply not_elem_of_nil | done].
  - destruct (decide (y = x)) as [->|Hne].
    + split; [done | intros H; exfalso; apply H; left].
    + rewrite not_elem_of_cons. destruct (indexOf x l); simpl.
      * split; [done | intros [_ H]]. by apply IH in H.
      * split; [intros _; split; [congruence | by apply IH] | done].
Qed.

Lemma indexOf_Some (x : addr) (l : list addr) (i : nat) :
  indexOf x l = Some i ->
  exists l1 l2, l = l1 ++ (x :: l2) /\ (x ∉ l1) /\ length l1 = i.
Proof.
  revert i. induction l as [|y l IH]; intros i; simpl; [done|].
  destruct (decide (y = x)) as [->|Hne].
  - intros [= <-]. exists [], l. split; [done|]. split; [apply not_elem_of_nil | done].
  - destruct (indexOf x l) as [j|] eqn:E; simpl; [|done].
    intros [= <-]. destruct (IH j eq_refl) as (l1 & l2 & -> & Hni & Hlen).
    exists (y :: l1), l2. split; [done|]. split; [|simpl; by rewrite Hlen].
    rewrite not_elem_of_cons. split; [congruence | done].
Qed.

Lemma indexOf_elem (x : addr) (l : list addr) :
  x ∈ l -> exists i, indexOf x l = Some i.
Proof.
  intros Hin. destruct (indexOf x l) as [i|] eqn:E; [eauto|].
  by apply indexOf_None in E.
Qed.

Lemma splice_remove_app (x : addr) (l1 l2 : list addr) :
  splice_remove (length l1) (l1 ++ x :: l2) = l1 ++ l2.
Proof.
  unfold splice_remove.
  rewrite take_app_length.
  replace (S (length l1)) with (length (l1 ++ [x])) by (rewrite length_app; simpl; lia).
  replace (l1 ++ x :: l2) with ((l1 ++ [x]) ++ l2) by (by rewrite <- app_assoc).
  by rewrite drop_app_length.
Qed.

Lemma splice_insert_app (x y : addr) (l1 l2 : list addr) :
  splice_insert (length l1) y (l1 ++ x :: l2) = l1 ++ y :: x :: l2.
Proof.
  unfold splice_insert. by rewrite take_app_length, drop_app_length.
Qed.

(** ** Leaf kinds refuse children *)

(** C4. On a Text, Comment, CDATASection or DocumentType node,
    [appendChild] raises the unsupported-operation error for every
    argument, and the store it leaves is the store it was given: neither
    the receiver nor the argument nor any other object has changed. *)
Theorem appendChild_leaf_unsupported (h : heap) (this newChild : addr) (n : RRNode) :
  h !! this = Some n ->
  nodeType n ∈ [Text; Comment; CDATA; DocumentType] ->
  appendChild this newChild h = Throw (UnsupportedOperation "appendChild") h.
Proof.
  intros Hn Hk. unfold appendChild. run. rewrite Hn.
  unfold nodeType in Hk.
  destruct (cls n); try reflexivity; exfalso;
    repeat (apply elem_of_cons in Hk as [Hk|Hk]; [discriminate|]);
    by apply elem_of_nil in Hk.
Qed.

Lemma appendChild_leaf_unsupported_witness :
  appendChild 4%positive 3%positive sample_store
  = Throw (UnsupportedOperation "appendChild") sample_store.
Proof.
  apply (appendChild_leaf_unsupported sample_store 4%positive 3%positive
           (new_node (CText "hi"))).
  - reflexivity.
  - vm_compute. left.
Defined.

(** ** removeChild *)

(** C7. [removeChild] never raises.  When the argument is not a child of
    the receiver the store is unchanged; when it is, its first
    occurrence is removed from the receiver's [children], the order of
    the others is kept, both parent back-references of the removed node
    are null, and no other object changes. *)
Theorem removeChild_spec (h : heap) (this node : addr) (t : RRNode) :
  h !! this = Some t ->
  is_Some (h !! node) ->
  exists h', removeChild this node h = Ok tt h'
    /\ (node ∉ children t -> h' = h)
    /\ (node ∈ children t ->
          exists l1 l2, children t = l1 ++ (node :: l2) /\ (node ∉ l1)
            /\ children_of h' this = l1 ++ l2
            /\ (NoDup (children t) -> node ∉ children_of h' this)
            /\ parentNode_of h' node = None
            /\ parentElement_of h' node = None
            /\ (forall a, a <> this -> a <> node -> h' !! a = h !! a)).
Proof.
  intros Ht [c Hc]. unfold removeChild, RRNode_removeChild. run. rewrite Ht.
  destruct (indexOf node (children t)) as [i|] eqn:Hi.
  - destruct (indexOf_Some _ _ _ Hi) as (l1 & l2 & Hl & Hni & Hlen).
    run. rewrite Ht. simpl.
    set (t' := set_children (splice_remove i (children t)) t).
    assert (Hsp : children t' = l1 ++ l2).
    { subst t'. simpl. rewrite Hl, <- Hlen. apply splice_remove_app. }
    assert (Hex : exists n1, <[this := t']> h !! node = Some n1
                             /\ (node = this -> n1 = t')).
    { destruct (decide (this = node)) as [->|Hne].
      - exists t'. by rewrite lookup_insert_eq.
      - exists c. rewrite lookup_insert_ne by done. split; [done | congruence]. }
    destruct Hex as (n1 & Hn1 & Hn1'). rewrite Hn1. simpl.
    rewrite lookup_insert_eq. simpl. eexists. split; [reflexivity|].
    split.
    { intros Hnin. apply indexOf_None in Hnin. congruence. }
    intros _. exists l1, l2. split; [done|]. split; [done|].
    assert (Hch : children_of
                    (<[node := set_parentNode None (set_parentElement None n1)]>
                       (<[node := set_parentElement None n1]> (<[this := t']> h))) this
                  = l1 ++ l2).
    { unfold children_of. destruct (decide (node = this)) as [->|Hne].
      - rewrite lookup_insert_eq. simpl. by rewrite Hn1'.
      - rewrite !lookup_insert_ne by done. by rewrite lookup_insert_eq. }
    split; [exact Hch|]. split.
    { intros Hnd. rewrite Hch. rewrite Hl in Hnd.
      apply NoDup_app in Hnd as (_ & Hd & Hnd2).
      apply NoDup_cons in Hnd2 as [Hn2 _].
      rewrite elem_of_app. intros [?|?]; done. }
    split; [unfold parentNode_of; by rewrite lookup_insert_eq|].
    split; [unfold parentElement_of; by rewrite lookup_insert_eq|].
    intros a Ha1 Ha2. by rewrite !lookup_insert_ne by done.
  - eexists. split; [reflexivity|]. split; [done|].
    intros Hin. apply indexOf_None in Hi. done.
Qed.

Lemma removeChild_spec_witness :
  exists h', removeChild 1%positive 2%positive sample_store = Ok tt h'
    /\ children_of h' 1%positive = [5%positive]
    /\ parentNode_of h' 2%positive = None
    /\ parentElement_of h' 2%positive = None.
Proof.
  destruct (removeChild_spec sample_store 1%positive 2%positive
              (mkNode None [5; 2]%positive None None (CDocument ∅)))
    as (h' & Hrun & _ & Hin).
  - reflexivity.
  - vm_compute. eauto.
  - exists h'. split; [exact Hrun|].
    vm_compute in Hrun. injection Hrun as <-. vm_compute. auto.
Defined.

(** ** insertBefore *)

(** C5. On an Element or Document target, [insertBefore] with a null
    reference is [appendChild]; with a reference that is not a child it
    raises the reference-not-found error and leaves the store (hence the
    target's children) unchanged; with a reference that is a child it
    returns the new node and splices it immediately before the first
    occurrence of the reference, keeping the order of all other
    children. *)
Theorem insertBefore_spec (h : heap) (this newChild : addr) (t : RRNode) :
  h !! this = Some t ->
  nodeType t = Element \/ nodeType t = Document ->
  insertBefore this newChild None h = appendChild this newChild h
  /\ (forall refChild, refChild ∉ children t ->
        insertBefore this newChild (Some refChild) h = Throw ReferenceNotFound h)
  /\ (forall refChild, refChild ∈ children t ->
        exists l1 l2 h',
          children t = l1 ++ (refChild :: l2) /\ (refChild ∉ l1)
          /\ insertBefore this newChild (Some refChild) h = Ok newChild h'
          /\ children_of h' this = l1 ++ (newChild :: refChild :: l2)
          /\ (forall a, a <> this -> h' !! a = h !! a)).
Proof.
  intros Ht Hk.
  assert (Hcls : (exists m, cls t = CDocument m) \/ (exists e, cls t = CElement e)).
  { unfold nodeType in Hk. destruct (cls t); eauto; destruct Hk; discriminate. }
  split; [|split].
  - unfold insertBefore, appendChild. run. rewrite Ht.
    destruct Hcls as [[m ->]|[e ->]]; reflexivity.
  - intros r Hr. apply indexOf_None in Hr.
    unfold insertBefore, RRDocument_insertBefore, RRElement_insertBefore. run.
    rewrite Ht. destruct Hcls as [[m ->]|[e ->]]; rewrite Ht, Hr; reflexivity.
  - intros r Hr. destruct (indexOf_elem _ _ Hr) as [i Hi].
    destruct (indexOf_Some _ _ _ Hi) as (l1 & l2 & Hl & Hni & Hlen).
    exists l1, l2.
    exists (<[this := set_children (splice_insert i newChild (children t)) t]> h).
    split; [done|]. split; [done|]. split.
    + unfold insertBefore, RRDocument_insertBefore, RRElement_insertBefore. run.
      rewrite Ht. destruct Hcls as [[m ->]|[e ->]]; rewrite Ht, Hi; run;
        rewrite Ht; reflexivity.
    + split.
      * unfold children_of. rewrite lookup_insert_eq. simpl.
        rewrite Hl, <- Hlen. apply splice_insert_app.
      * intros a Ha. by rewrite lookup_insert_ne.
Qed.

Lemma insertBefore_spec_witness :
  insertBefore 1%positive 6%positive None sample_store
    = appendChild 1%positive 6%positive sample_store
  /\ insertBefore 1%positive 6%positive (Some 8%positive) sample_store
     = Throw ReferenceNotFound sample_store
  /\ exists h', insertBefore 1%positive 6%positive (Some 2%positive) sample_store
                = Ok 6%positive h'
                /\ children_of h' 1%positive = [5; 6; 2]%positive.
Proof.
  destruct (insertBefore_spec sample_store 1%positive 6%positive
              (mkNode None [5; 2]%positive None None (CDocument ∅)))
    as (Ha & Hb & Hc).
  - reflexivity.
  - right. reflexivity.
  - split; [exact Ha|]. split.
    + apply Hb. vm_compute. intros H. repeat (apply elem_of_cons in H as [H|H]; [discriminate|]).
      by apply elem_of_nil in H.
    + destruct (Hc 2%positive) as (l1 & l2 & h' & _ & _ & Hrun & _).
      { vm_compute. right. left. }
      exists h'. split; [exact Hrun|].
      vm_compute in Hrun. injection Hrun as <-. reflexivity.
Defined.

(** ** RRDocument.appendChild and the root constraint *)

Lemma some_child_true (h : heap) (p : RRNode -> bool) (l : list addr) :
  some_child h p l = true <->
  exists s n, s ∈ l /\ h !! s = Some n /\ p n = true.
Proof.
  unfold some_child. rewrite existsb_exists. split.
  - intros (s & Hin & Hs). apply list_elem_of_In in Hin.
    destruct (h !! s) as [n|] eqn:E; [|done]. eauto.
  - intros (s & n & Hin & Hn & Hp). exists s. rewrite <- list_elem_of_In.
    split; [done|]. by rewrite Hn.
Qed.

Lemma RRDocument_appendChild_run (h : heap) (this childNode : addr) (d c : RRNode) :
  h !! this = Some d ->
  h !! childNode = Some c ->
  RRDocument_appendChild this childNode h
  = if duplicate_root h d c then Throw (DuplicateRoot (nodeType c)) h
    else Ok childNode (appended h this childNode).
Proof.
  intros Hd Hc. unfold RRDocument_appendChild, duplicate_root. run. rewrite Hc.
  assert (Hok : match
      match h !! childNode with
      | Some n => Ok tt (<[childNode:=set_parentElement None n]> h)
      | None => Throw TypeError h
      end
    with
    | Ok _ s' =>
        match
          match s' !! childNode with
          | Some n => Ok tt (<[childNode:=set_parentNode (Some this) n]> s')
          | None => Throw TypeError s'
          end
        with
        | Ok _ s'0 =>
            match
              match s'0 !! this with
              | Some n =>
                  Ok tt (<[this:=set_children (children n ++ [childNode]) n]> s'0)
              | None => Throw TypeError s'0
              end
            with
            | Ok _ s'1 => Ok childNode s'1
            | Throw e s'1 => Throw e s'1
            end
        | Throw e s'0 => Throw e s'0
        end
    | Throw e s' => Throw e s'
    end = Ok childNode (appended h this childNode)).
  { rewrite Hc. rewrite lookup_insert_eq. rewrite insert_insert_eq.
    unfold appended.
    assert (Hh2 : <[childNode := set_parentNode (Some this) (set_parentElement None c)]> h
                  = alter (fun c => set_parentNode (Some this) (set_parentElement None c))
                      childNode h).
    { apply map_eq. intros a. destruct (decide (childNode = a)) as [<-|Hne].
      - by rewrite lookup_insert_eq, lookup_alter_eq, Hc.
      - by rewrite lookup_insert_ne, lookup_alter_ne. }
    rewrite Hh2.
    set (h2 := alter _ childNode h).
    assert (Hex : exists n, h2 !! this = Some n).
    { subst h2. destruct (decide (childNode = this)) as [->|Hne].
      - rewrite lookup_alter_eq, Hd. simpl. eauto.
      - rewrite lookup_alter_ne by done. eauto. }
    destruct Hex as [n Hn]. rewrite Hn. f_equal.
    apply map_eq. intros a. destruct (decide (this = a)) as [<-|Hne].
    - by rewrite lookup_insert_eq, lookup_alter_eq, Hn.
    - by rewrite lookup_insert_ne, lookup_alter_ne. }
  destruct (decide (nodeType c = Element \/ nodeType c = DocumentType)) as [Hk|Hk].
  - rewrite bool_decide_eq_true_2 by done. simpl. rewrite Hd.
    destruct (some_child h _ (children d)); [reflexivity | exact Hok].
  - rewrite bool_decide_eq_false_2 by done. simpl. exact Hok.
Qed.

Lemma duplicate_root_true (h : heap) (d c : RRNode) :
  duplicate_root h d c = true <->
  (nodeType c = Element
   /\ exists s, s ∈ children d /\ nodeType_of h s = Some Element)
  \/ (nodeType c = DocumentType
      /\ exists s, s ∈ children d /\ nodeType_of h s = Some DocumentType).
Proof.
  unfold duplicate_root. rewrite andb_true_iff, bool_decide_eq_true, some_child_true.
  unfold nodeType_of. split.
  - intros [Hk (s & n & Hin & Hn & Hp)]. apply bool_decide_eq_true in Hp.
    destruct Hk as [Hk|Hk]; [left|right]; (split; [done|]); exists s;
      (split; [done|]); rewrite Hn; simpl; congruence.
  - intros [[Hk (s & Hin & Hs)]|[Hk (s & Hin & Hs)]];
      (split; [tauto|]); destruct (h !! s) as [n|] eqn:E; try discriminate;
      exists s, n; (split; [done|]); (split; [done|]);
      apply bool_decide_eq_true; simpl in Hs; congruence.
Qed.

Lemma appended_children (h : heap) (this childNode : addr) (d : RRNode) :
  h !! this = Some d ->
  children_of (appended h this childNode) this = children d ++ [childNode].
Proof.
  intros Hd. unfold children_of, appended. rewrite lookup_alter_eq.
  destruct (decide (childNode = this)) as [->|Hne].
  - by rewrite lookup_alter_eq, Hd.
  - by rewrite lookup_alter_ne, Hd.
Qed.

Lemma appended_parent (h : heap) (this childNode : addr) (c : RRNode) :
  h !! childNode = Some c ->
  parentNode_of (appended h this childNode) childNode = Some this
  /\ parentElement_of (appended h this childNode) childNode = None.
Proof.
  intros Hc. unfold parentNode_of, parentElement_of, appended.
  destruct (decide (this = childNode)) as [->|Hne].
  - by rewrite !lookup_alter_eq, Hc.
  - rewrite lookup_alter_ne by done. by rewrite lookup_alter_eq, Hc.
Qed.

Lemma appended_nodeType (h : heap) (this childNode a : addr) :
  nodeType_of (appended h this childNode) a = nodeType_of h a.
Proof.
  unfold nodeType_of, appended.
  destruct (decide (this = a)) as [<-|Hne1].
  - rewrite lookup_alter_eq. destruct (decide (childNode = this)) as [->|Hne2].
    + rewrite lookup_alter_eq. by destruct (h !! this).
    + rewrite lookup_alter_ne by done. by destruct (h !! this).
  - rewrite lookup_alter_ne by done. destruct (decide (childNode = a)) as [<-|Hne2].
    + rewrite lookup_alter_eq. by destruct (h !! childNode).
    + by rewrite lookup_alter_ne.
Qed.

(** C10. [appendChild] on a document raises exactly when the new child
    is an Element and the document already has an Element child, or it
    is a DocumentType and the document already has a DocumentType child;
    the error is the duplicate-root one and the store is untouched.  In
    every other case, and so for every Text, Comment and CDATASection
    node whatever the document already holds, the call returns the node,
    appended at the end of [children], its [parentNode] the document. *)
Theorem RRDocument_appendChild_throws_iff
    (h : heap) (this childNode : addr) (d c : RRNode) :
  h !! this = Some d ->
  nodeType d = Document ->
  h !! childNode = Some c ->
  let dup :=
    (nodeType c = Element
     /\ exists s, s ∈ children d /\ nodeType_of h s = Some Element)
    \/ (nodeType c = DocumentType
        /\ exists s, s ∈ children d /\ nodeType_of h s = Some DocumentType) in
  (is_Some (threw (appendChild this childNode h)) <-> dup)
  /\ (dup -> appendChild this childNode h = Throw (DuplicateRoot (nodeType c)) h)
  /\ (~ dup ->
        exists h', appendChild this childNode h = Ok childNode h'
          /\ children_of h' this = children d ++ [childNode]
          /\ parentNode_of h' childNode = Some this
          /\ parentElement_of h' childNode = None)
  /\ (nodeType c ∈ [Text; Comment; CDATA] -> ~ dup).
Proof.
  intros Hd Hk Hc dup.
  assert (Hrun : appendChild this childNode h
                 = if duplicate_root h d c then Throw (DuplicateRoot (nodeType c)) h
                   else Ok childNode (appended h this childNode)).
  { unfold appendChild. run. rewrite Hd. unfold nodeType in Hk.
    destruct (cls d) eqn:E; try discriminate.
    by apply RRDocument_appendChild_run. }
  pose proof (duplicate_root_true h d c) as Hdup. fold dup in Hdup.
  rewrite Hrun. split; [|split; [|split]].
  - destruct (duplicate_root h d c); simpl.
    + split; [intros _; by apply Hdup | eauto].
    + split; [intros [? Hx]; discriminate Hx | intros H; apply Hdup in H; discriminate].
  - intros H. apply Hdup in H. by rewrite H.
  - intros H. destruct (duplicate_root h d c).
    + exfalso. apply H. by apply Hdup.
    + eexists. split; [reflexivity|]. split; [by apply appended_children|].
      by apply (appended_parent h this childNode c).
  - intros Hleaf [[He _]|[He _]]; rewrite He in Hleaf;
      repeat (apply elem_of_cons in Hleaf as [Hleaf|Hleaf]; [discriminate|]);
      by apply elem_of_nil in Hleaf.
Qed.

Lemma RRDocument_appendChild_throws_iff_witness :
  appendChild 1%positive 3%positive sample_store
    = Throw (DuplicateRoot Element) sample_store
  /\ exists h', appendChild 1%positive 4%positive sample_store = Ok 4%positive h'
       /\ children_of h' 1%positive = [5; 2; 4]%positive.
Proof.
  split.
  - destruct (RRDocument_appendChild_throws_iff sample_store 1%positive 3%positive
                (mkNode None [5; 2]%positive None None (CDocument ∅))
                (new_element "div" PlainElement))
      as (_ & Hdup & _); [reflexivity..|].
    apply Hdup. left. split; [reflexivity|]. exists 2%positive.
    split; [vm_compute; right; left | reflexivity].
  - destruct (RRDocument_appendChild_throws_iff sample_store 1%positive 4%positive
                (mkNode None [5; 2]%positive None None (CDocument ∅))
                (new_node (CText "hi")))
      as (_ & _ & Hok & Hleaf); [reflexivity..|].
    destruct Hok as (h' & Hrun & Hch & _).
    { apply Hleaf. vm_compute. left. }
    exists h'. split; [exact Hrun | exact Hch].
Defined.

Lemma count_kind_app (h : heap) (k : NodeType) (l1 l2 : list addr) :
  count_kind h k (l1 ++ l2) = (count_kind h k l1 + count_kind h k l2)%nat.
Proof. unfold count_kind. by rewrite filter_app, length_app. Qed.

Lemma count_kind_ext (h h' : heap) (k : NodeType) (l : list addr) :
  (forall a, nodeType_of h' a = nodeType_of h a) ->
  count_kind h' k l = count_kind h k l.
Proof.
  intros Hext. unfold count_kind. induction l as [|a l IH]; [done|].
  rewrite !filter_cons. rewrite Hext.
  destruct (decide (nodeType_of h a = Some k)); simpl; by rewrite IH.
Qed.

Lemma count_kind_zero (h : heap) (k : NodeType) (l : list addr) :
  (forall s, s ∈ l -> nodeType_of h s <> Some k) -> count_kind h k l = 0%nat.
Proof.
  intros Hno. unfold count_kind. induction l as [|a l IH]; [done|].
  rewrite filter_cons. destruct (decide (nodeType_of h a = Some k)) as [E|E].
  - exfalso. apply (Hno a); [left | done].
  - apply IH. intros s Hs. apply Hno. by right.
Qed.

(** [appendChild] keeps the root constraint of a document, whether it
    returns or raises. *)
Lemma RRDocument_appendChild_root_constraint
    (h : heap) (this childNode : addr) (d c : RRNode) :
  h !! this = Some d ->
  nodeType d = Document ->
  h !! childNode = Some c ->
  root_constraint h this ->
  root_constraint (final (appendChild this childNode h)) this.
Proof.
  intros Hd Hk Hc [HE HD].
  assert (Hrun : appendChild this childNode h
                 = if duplicate_root h d c then Throw (DuplicateRoot (nodeType c)) h
                   else Ok childNode (appended h this childNode)).
  { unfold appendChild. run. rewrite Hd. unfold nodeType in Hk.
    destruct (cls d) eqn:E; try discriminate.
    by apply RRDocument_appendChild_run. }
  rewrite Hrun. destruct (duplicate_root h d c) eqn:Hdup; simpl; [by split|].
  assert (Hch : children_of h this = children d) by (unfold children_of; by rewrite Hd).
  assert (Hnew : forall k,
            (count_kind h k (children d) <= 1)%nat ->
            (nodeType c = k -> forall s, s ∈ children d -> nodeType_of h s <> Some k) ->
            (count_kind (appended h this childNode) k
               (children_of (appended h this childNode) this) <= 1)%nat).
  { intros k Hle Hno.
    rewrite (appended_children h this childNode d Hd).
    rewrite (count_kind_ext h) by apply appended_nodeType.
    rewrite count_kind_app. unfold count_kind at 2. rewrite filter_cons, filter_nil.
    destruct (decide (nodeType_of h childNode = Some k)) as [E|E]; simpl; [|lia].
    unfold nodeType_of in E. rewrite Hc in E. injection E as E.
    rewrite (count_kind_zero h k (children d)); [lia|]. by apply Hno. }
  assert (Hnodup : forall k, k = Element \/ k = DocumentType -> nodeType c = k ->
            forall s, s ∈ children d -> nodeType_of h s <> Some k).
  { intros k Hkk Hck s Hs Hty.
    assert (duplicate_root h d c = true); [|congruence].
    apply duplicate_root_true. destruct Hkk as [-> | ->]; [left|right]; eauto. }
  rewrite Hch in HE, HD. split; apply Hnew; auto.
Qed.

(** C1. The root constraint is what [appendChild] enforces, but
    [insertBefore] with a reference child skips the test: on a document
    that holds the element [html], inserting the element [div] before it
    returns normally and leaves two Element children. *)
Theorem RRDocument_insertBefore_second_root :
  root_constraint sample_store 1%positive
  /\ nodeType_of sample_store 3%positive = Some Element
  /\ appendChild 1%positive 3%positive sample_store
     = Throw (DuplicateRoot Element) sample_store
  /\ exists h',
       insertBefore 1%positive 3%positive (Some 2%positive) sample_store
       = Ok 3%positive h'
       /\ children_of h' 1%positive = [5; 3; 2]%positive
       /\ nodeType_of h' 3%positive = Some Element
       /\ nodeType_of h' 2%positive = Some Element
       /\ ~ root_constraint h' 1%positive.
Proof.
  split; [split; vm_compute; lia|]. split; [reflexivity|]. split; [reflexivity|].
  eexists. split; [reflexivity|]. split; [reflexivity|].
  split; [reflexivity|]. split; [reflexivity|].
  intros [HE _]. vm_compute in HE. lia.
Qed.

(** C2. [insertBefore] with a reference child places the new node in
    [children] but, unlike [appendChild], writes neither of its parent
    back-references: the inserted node is a child of the element while
    its [parentNode] and [parentElement] are still null. *)
Theorem RRElement_insertBefore_no_back_reference :
  (exists h', appendChild 7%positive 3%positive sample_store = Ok 3%positive h'
     /\ children_of h' 7%positive = [8; 3]%positive
     /\ parentNode_of h' 3%positive = Some 7%positive
     /\ parentElement_of h' 3%positive = Some 7%positive)
  /\ exists h',
       insertBefore 7%positive 3%positive (Some 8%positive) sample_store
       = Ok 3%positive h'
       /\ children_of h' 7%positive = [3; 8]%positive
       /\ parentNode_of h' 3%positive = None
       /\ parentElement_of h' 3%positive = None.
Proof.
  split; eexists; (split; [reflexivity|]); repeat split; reflexivity.
Qed.

(** ** contains *)

Lemma contains_not_implemented (h : heap) (this node : addr) :
  contains this node h = Throw NotImplemented h.
Proof. reflexivity. Qed.

(** C9. In [tree-node.ts] the base class answers [contains] with
    [false] for every receiver and argument, and raises nothing. *)
Theorem TreeNode_contains_returns_false (h : heap) (this node : addr) :
  TreeNode.RRNode_contains this node h = Ok false h
  /\ threw (TreeNode.RRNode_contains this node h) = None.
Proof. split; reflexivity. Qed.

(** ** Style projection *)

Lemma prop_set_insert (k : string) (v : AttrVal) (m : gmap string AttrVal) :
  k <> "__proto__" -> prop_set k v m = <[k := v]> m.
Proof. intros Hk. unfold prop_set. by rewrite decide_False. Qed.

Lemma prop_set_proto (v : AttrVal) (m : gmap string AttrVal) :
  prop_set "__proto__" v m = m.
Proof. unfold prop_set. by rewrite decide_True. Qed.

Lemma prop_set_lookup_eq (k : string) (v : AttrVal) (m : gmap string AttrVal) :
  k <> "__proto__" -> prop_set k v m !! k = Some v.
Proof. intros Hk. rewrite prop_set_insert by done. by rewrite lookup_insert_eq. Qed.

Lemma prop_set_lookup_ne (k k' : string) (v : AttrVal) (m : gmap string AttrVal) :
  k' <> k -> prop_set k v m !! k' = m !! k'.
Proof.
  intros Hk. unfold prop_set. destruct (decide (k = "__proto__")); [done|].
  by rewrite lookup_insert_ne.
Qed.

Lemma prop_set_keeps_proto (k : string) (v : AttrVal) (m : gmap string AttrVal) :
  prop_set k v m !! "__proto__" = m !! "__proto__".
Proof.
  unfold prop_set. destruct (decide (k = "__proto__")); [done|].
  by rewrite lookup_insert_ne.
Qed.

Lemma obj_set_put (k : string) (v : StyleVal) (o : list (string * StyleVal)) :
  k <> "__proto__" -> obj_set k v o = obj_put k v o.
Proof. intros Hk. unfold obj_set. by rewrite decide_False. Qed.

Lemma obj_set_proto (v : StyleVal) (o : list (string * StyleVal)) :
  obj_set "__proto__" v o = o.
Proof. unfold obj_set. by rewrite decide_True. Qed.

Lemma obj_get_replace_eq (k : string) (v : StyleVal) (o : list (string * StyleVal)) :
  is_Some (obj_get k o) -> obj_get k (obj_replace k v o) = Some v.
Proof.
  induction o as [|[k' v'] o IH]; simpl; intros Hsome.
  - by destruct Hsome.
  - destruct (decide (k' = k)); simpl.
    + by rewrite decide_True.
    + rewrite decide_False by done. by apply IH.
Qed.

Lemma obj_get_replace_ne (k k' : string) (v : StyleVal) (o : list (string * StyleVal)) :
  k <> k' -> obj_get k' (obj_replace k v o) = obj_get k' o.
Proof.
  intros Hne. induction o as [|[k0 v0] o IH]; simpl; [done|].
  destruct (decide (k0 = k)) as [->|Hk]; simpl.
  - by rewrite !decide_False.
  - destruct (decide (k0 = k')); [done | exact IH].
Qed.

Lemma obj_get_insert_index_eq (n : N) (k : string) (v : StyleVal)
    (o : list (string * StyleVal)) :
  obj_get k o = None -> obj_get k (obj_insert_index n k v o) = Some v.
Proof.
  induction o as [|[k' v'] o IH]; simpl; intros Hnone.
  - by rewrite decide_True.
  - destruct (decide (k' = k)) as [->|Hk]; [discriminate|].
    destruct (array_index k') as [m|]; [destruct (m <? n)%N|]; simpl.
    + rewrite decide_False by done. by apply IH.
    + by rewrite decide_True.
    + by rewrite decide_True.
Qed.

Lemma obj_get_insert_index_ne (n : N) (k k' : string) (v : StyleVal)
    (o : list (string * StyleVal)) :
  k <> k' -> obj_get k' (obj_insert_index n k v o) = obj_get k' o.
Proof.
  intros Hne. induction o as [|[k0 v0] o IH]; simpl.
  - by rewrite decide_False.
  - destruct (array_index k0) as [m|]; [destruct (m <? n)%N|]; simpl.
    + destruct (decide (k0 = k')); [done | exact IH].
    + by rewrite (decide_False (P := k = k')).
    + by rewrite (decide_False (P := k = k')).
Qed.

Lemma obj_get_app_new (k k' : string) (v : StyleVal) (o : list (string * StyleVal)) :
  obj_get k' (o ++ [(k, v)])
  = match obj_get k' o with
    | Some w => Some w
    | None => if decide (k = k') then Some v else None
    end.
Proof.
  induction o as [|[k0 v0] o IH]; simpl; [done|].
  destruct (decide (k0 = k')); [done | exact IH].
Qed.

Lemma obj_get_put_eq (k : string) (v : StyleVal) (o : list (string * StyleVal)) :
  obj_get k (obj_put k v o) = Some v.
Proof.
  unfold obj_put. destruct (obj_get k o) as [w|] eqn:E.
  - apply obj_get_replace_eq. by rewrite E.
  - destruct (array_index k) as [n|].
    + by apply obj_get_insert_index_eq.
    + rewrite obj_get_app_new, E. by rewrite decide_True.
Qed.

Lemma obj_get_put_ne (k k' : string) (v : StyleVal) (o : list (string * StyleVal)) :
  k <> k' -> obj_get k' (obj_put k v o) = obj_get k' o.
Proof.
  intros Hne. unfold obj_put. destruct (obj_get k o) as [w|] eqn:E.
  - by apply obj_get_replace_ne.
  - destruct (array_index k) as [n|].
    + by apply obj_get_insert_index_ne.
    + rewrite obj_get_app_new. destruct (obj_get k' o); [done|].
      by rewrite decide_False.
Qed.

Lemma obj_get_set_eq (k : string) (v : StyleVal) (o : list (string * StyleVal)) :
  k <> "__proto__" -> obj_get k (obj_set k v o) = Some v.
Proof. intros Hk. rewrite obj_set_put by done. apply obj_get_put_eq. Qed.

Lemma obj_get_set_ne (k k' : string) (v : StyleVal) (o : list (string * StyleVal)) :
  k <> k' -> obj_get k' (obj_set k v o) = obj_get k' o.
Proof.
  intros Hne. unfold obj_set. destruct (decide (k = "__proto__")); [done|].
  by apply obj_get_put_ne.
Qed.

Lemma obj_get_delete_eq (k : string) (o : list (string * StyleVal)) :
  obj_get k (obj_delete k o) = None.
Proof.
  induction o as [|[k' v'] o IH]; simpl; [done|].
  destruct (decide (k' = k)); simpl; [done|]. by rewrite decide_False.
Qed.

Lemma obj_get_delete_ne (k k' : string) (o : list (string * StyleVal)) :
  k <> k' -> obj_get k' (obj_delete k o) = obj_get k' o.
Proof.
  intros Hne. induction o as [|[k0 v0] o IH]; simpl; [done|].
  destruct (decide (k0 = k)) as [->|Hk]; simpl.
  - by rewrite decide_False.
  - destruct (decide (k0 = k')); [done | exact IH].
Qed.




Lemma style_view_setProperty parseCSSText (e : ElementData) :
  obj_get "setProperty" (style_view parseCSSText e) = Some SSetProperty.
Proof. unfold style_view. by apply obj_get_set_eq. Qed.


Lemma style_setProperty_run parseCSSText toCSSText camelize
    (h : heap) (this : addr) (n : RRNode) (e : ElementData)
    (name : string) (value : option string) :
  h !! this = Some n ->
  cls n = CElement e ->
  let style := style_view parseCSSText e in
  let style' := if falsy value then obj_delete (camelize name) style
                else obj_set (camelize name) (SStr (default "" value)) style in
  RRElement_style_setProperty parseCSSText toCSSText camelize this name value h
  = Ok style' (<[this := set_attribute "style" (AStr (toCSSText style')) n]> h).
Proof.
  intros Hn Hcls style style'.
  unfold RRElement_style_setProperty, RRElement_style, load_element,
    style_setProperty. run. rewrite Hn, Hcls. simpl.
  rewrite style_view_setProperty. run. rewrite Hn.
  reflexivity.
Qed.



(** ** Reasoning rules *)

Lemma returns_bind {A B} (P : heap -> Prop) (R : A -> heap -> Prop)
    (Q : B -> heap -> Prop) (m : M heap A) (k : A -> M heap B) :
  returns P m R -> (forall a, returns (R a) (k a) Q) -> returns P (bind m k) Q.
Proof.
  intros Hm Hk h b h' HP Hrun. unfold bind in Hrun.
  destruct (m h) as [a s|e s] eqn:E; [|discriminate].
  eapply Hk; [|exact Hrun]. by eapply Hm.
Qed.

Lemma returns_ret {A} (P : heap -> Prop) (Q : A -> heap -> Prop) (a : A) :
  (forall h, P h -> Q a h) -> returns P (ret a) Q.
Proof. intros H h b h' HP [= <- <-]. by apply H. Qed.

Lemma returns_throw {A} (P : heap -> Prop) (Q : A -> heap -> Prop) (e : RRError) :
  returns P (throw e) Q.
Proof. intros h b h' _ [=]. Qed.

Lemma returns_get (P : heap -> Prop) (Q : heap -> heap -> Prop) :
  (forall h, P h -> Q h h) -> returns P get Q.
Proof. intros H h b h' HP [= <- <-]. by apply H. Qed.

Lemma silent_liftH {A} (m : M heap A) : silent (liftH m).
Proof. intros st. unfold liftH. by destruct (m (st_heap st)). Qed.

Lemma silent_ret {A} (a : A) : silent (@ret DomState A a).
Proof. by intros st. Qed.

Lemma silent_throw {A} (e : RRError) : silent (@throw DomState A e).
Proof. by intros st. Qed.

Lemma silent_bind {A B} (m : M DomState A) (k : A -> M DomState B) :
  silent m -> (forall a, silent (k a)) -> silent (bind m k).
Proof.
  intros Hm Hk st. unfold bind. specialize (Hm st).
  destruct (m st) as [a s|e s]; simpl in *; [|done].
  destruct (Hk a s) as [H1 H2]. destruct Hm as [H3 H4]. split; congruence.
Qed.

Lemma silent_attach (this rr : addr) (parent : option lid) :
  silent (attach this rr parent).
Proof.
  unfold attach. destruct parent as [p|]; [|apply silent_ret].
  apply silent_bind; [by intros st|]. intros st.
  destruct (st_live_sn st !! p); [|apply silent_throw].
  apply silent_bind; [apply silent_liftH|]. intros [a|]; [|apply silent_throw].
  repeat (apply silent_bind; [apply silent_liftH | intros ?]).
  apply silent_liftH.
Qed.

(** ** Generated ids *)

Lemma neg_seq_app (c : Z) (n m : nat) :
  neg_seq c (n + m) = neg_seq c n ++ neg_seq (c - Z.of_nat n) m.
Proof.
  revert c. induction n as [|n IH]; intros c; simpl.
  - f_equal. lia.
  - rewrite IH. do 3 f_equal. lia.
Qed.

Lemma neg_seq_bounds (c : Z) (n : nat) (x : Z) :
  x ∈ neg_seq c n -> c - Z.of_nat n < x <= c.
Proof.
  revert c. induction n as [|n IH]; intros c; simpl.
  - intros H. by apply elem_of_nil in H.
  - intros [->|H]%elem_of_cons; [lia|]. apply IH in H. lia.
Qed.

Lemma neg_seq_sorted (c : Z) (n : nat) : StronglySorted Z.gt (neg_seq c n).
Proof.
  revert c. induction n as [|n IH]; intros c; simpl; constructor; [apply IH|].
  apply Forall_forall. intros x Hx. apply neg_seq_bounds in Hx. lia.
Qed.

Lemma neg_seq_NoDup (c : Z) (n : nat) : NoDup (neg_seq c n).
Proof.
  revert c. induction n as [|n IH]; intros c; simpl; constructor; [|apply IH].
  intros Hx. apply neg_seq_bounds in Hx. lia.
Qed.

Lemma neg_seq_negative (c : Z) (n : nat) :
  c < 0 -> Forall (fun i => i < 0) (neg_seq c n).
Proof.
  intros Hc. apply Forall_forall. intros x Hx. apply neg_seq_bounds in Hx. lia.
Qed.

Lemma generated_app (a b : list Visit) :
  generated (a ++ b) = generated a ++ generated b.
Proof. unfold generated. by rewrite filter_app, fmap_app. Qed.

Lemma extends_refl (st : DomState) : extends st st.
Proof.
  exists []. rewrite app_nil_r. simpl. repeat split; try done. lia.
Qed.

Lemma extends_same (st st' : DomState) :
  st_live_sn st' = st_live_sn st ->
  notSerializedId st' = notSerializedId st ->
  visits st' = visits st ->
  extends st st'.
Proof.
  intros H1 H2 H3. exists []. rewrite app_nil_r, H1, H2, H3. simpl.
  repeat split; try done. lia.
Qed.

Lemma extends_trans (st1 st2 st3 : DomState) :
  extends st1 st2 -> extends st2 st3 -> extends st1 st3.
Proof.
  intros (n1 & Hv1 & Hg1 & Hc1 & Hm1 & Hf1) (n2 & Hv2 & Hg2 & Hc2 & Hm2 & Hf2).
  exists (n1 ++ n2). rewrite generated_app, length_app.
  split; [by rewrite Hv2, Hv1, app_assoc|]. split; [|split; [|split]].
  - rewrite neg_seq_app. rewrite <- Hc1. by rewrite <- Hg1, <- Hg2.
  - rewrite Hc2, Hc1. lia.
  - intros l sn H. by apply Hm2, Hm1.
  - apply Forall_app. split.
    + eapply Forall_impl; [exact Hf1|]. intros v [(sn & Hsn & Hid) Hnone].
      split; [|done]. exists sn. split; [by apply Hm2 | done].
    + eapply Forall_impl; [exact Hf2|]. intros v [Hsn Hnone].
      split; [done|]. intros Hv. specialize (Hnone Hv).
      destruct (st_live_sn st1 !! v_node v) as [sn|] eqn:E; [|done].
      apply Hm1 in E. congruence.
Qed.

Lemma preserves_ret {A} (a : A) : preserves (ret a).
Proof. intros st. apply extends_refl. Qed.

Lemma preserves_throw {A} (e : RRError) : preserves (@throw DomState A e).
Proof. intros st. apply extends_refl. Qed.

Lemma preserves_get : preserves (@get DomState).
Proof. intros st. apply extends_refl. Qed.

Lemma preserves_bind {A B} (m : M DomState A) (k : A -> M DomState B) :
  preserves m -> (forall a, preserves (k a)) -> preserves (bind m k).
Proof.
  intros Hm Hk st. unfold bind. specialize (Hm st).
  destruct (m st) as [a st'|e st']; simpl in *; [|done].
  eapply extends_trans; [exact Hm | apply Hk].
Qed.

Lemma preserves_liftH {A} (m : M heap A) : preserves (liftH m).
Proof.
  intros st. unfold liftH. destruct (m (st_heap st)); simpl; by apply extends_same.
Qed.

Lemma preserves_identify (id : lid) (kind : LiveKind) : preserves (identify id kind).
Proof.
  intros st. unfold identify. destruct (st_live_sn st !! id) as [sn|] eqn:E; simpl.
  - exists [mkVisit id true (sn_id sn)]. simpl. repeat split; try done; [lia|].
    constructor; [|constructor]. simpl. split; [eauto | done].
  - exists [mkVisit id false (notSerializedId st)]. simpl. repeat split; try done.
    + intros l sn Hl. rewrite lookup_insert_ne; [done|]. intros <-. congruence.
    + constructor; [|constructor]. simpl. split; [|done].
      eexists. rewrite lookup_insert_eq. split; [reflexivity | done].
Qed.

Lemma preserves_attach (this rrNode : addr) (parent : option lid) :
  preserves (attach this rrNode parent).
Proof.
  unfold attach. destruct parent as [p|]; [|apply preserves_ret].
  apply preserves_bind; [apply preserves_get|]. intros st.
  destruct (st_live_sn st !! p); [|apply preserves_throw].
  apply preserves_bind; [apply preserves_liftH|]. intros [a|]; [|apply preserves_throw].
  repeat (apply preserves_bind; [apply preserves_liftH | intros ?]).
  apply preserves_liftH.
Qed.

(** Induction on live trees. *)
Lemma LNode_ind (P : LNode -> Prop) :
  (forall id parent kind childNodes,
     Forall P childNodes -> P (LN id parent kind childNodes)) ->
  forall node, P node.
Proof.
  intros H. fix IH 1. intros [id parent kind childNodes]. apply H.
  induction childNodes as [|c cs IHcs]; constructor; [apply IH | exact IHcs].
Qed.

Lemma walk_unfold (this : addr) (id : lid) (parent : option lid)
    (kind : LiveKind) (childNodes : list LNode) :
  walk this (LN id parent kind childNodes)
  = (let! serializedNodeWithId := identify id kind in
     let! resolved := liftH (resolve this serializedNodeWithId kind) in
     match resolved with
     | None => ret tt
     | Some rrNode =>
         attach this rrNode parent;;;
         if recurses serializedNodeWithId then walk_all this childNodes
         else ret tt
     end).
Proof. reflexivity. Qed.

Lemma preserves_walk_all (this : addr) (l : list LNode) :
  Forall (fun node => preserves (walk this node)) l -> preserves (walk_all this l).
Proof.
  induction 1 as [|node l Hn Hl IH]; simpl; [apply preserves_ret|].
  apply preserves_bind; [exact Hn | intros _; exact IH].
Qed.

Lemma preserves_walk (this : addr) (node : LNode) : preserves (walk this node).
Proof.
  induction node as [id parent kind childNodes IH] using LNode_ind.
  rewrite walk_unfold.
  apply preserves_bind; [apply preserves_identify|]. intros sn.
  apply preserves_bind; [apply preserves_liftH|]. intros [rrNode|]; [|apply preserves_ret].
  apply preserves_bind; [apply preserves_attach|]. intros _.
  destruct (recurses sn); [by apply preserves_walk_all | apply preserves_ret].
Qed.

Lemma buildFromDom_extends (this : addr) (dom : option LNode) (st : DomState) :
  extends (mkState (st_heap st) (st_live_sn st) (-1) (visits st))
          (final (RRDocument_buildFromDom this dom st)).
Proof.
  unfold RRDocument_buildFromDom. unfold bind at 1, modify.
  set (st1 := mkState _ _ _ _).
  assert (Hp : preserves
            (match dom with
             | Some dom => liftH (RRDocument_destroyTree this);;; walk this dom
             | None => ret tt
             end)).
  { destruct dom as [dom|]; [|apply preserves_ret].
    apply preserves_bind; [apply preserves_liftH | intros _; apply preserves_walk]. }
  apply Hp.
Qed.

Lemma generated_elem (v : Visit) (vs : list Visit) :
  v ∈ vs -> v_had_sn v = false -> v_id v ∈ generated vs.
Proof.
  intros Hin Hv. unfold generated. apply list_elem_of_fmap. exists v.
  split; [done|]. by apply list_elem_of_filter.
Qed.

(** The history of one call, whatever the state, the document and the
    tree: the ids generated are -1, -2, -3, ... in visit order, and each
    visit that generated one is of a node that carried no record and
    carries one, with that id, when the call ends. *)
Lemma buildFromDom_history (this : addr) (dom : option LNode) (st : DomState) :
  let st' := final (RRDocument_buildFromDom this dom st) in
  exists new,
    visits st' = visits st ++ new
    /\ generated new = neg_seq (-1) (length (generated new))
    /\ Forall (fun i => i < 0) (generated new)
    /\ StronglySorted Z.gt (generated new)
    /\ NoDup (generated new)
    /\ Forall (fun v =>
                 v_had_sn v = false ->
                 v_id v < 0
                 /\ v_id v ∈ generated new
                 /\ st_live_sn st !! v_node v = None
                 /\ exists sn, st_live_sn st' !! v_node v = Some sn
                               /\ sn_id sn = v_id v) new.
Proof.
  intros st'. destruct (buildFromDom_extends this dom st)
    as (new & Hv & Hg & _ & _ & Hf). fold st' in Hv, Hf. simpl in *.
  exists new. split; [exact Hv|]. split; [exact Hg|].
  assert (Hneg : Forall (fun i => i < 0) (generated new)).
  { rewrite Hg. by apply neg_seq_negative. }
  split; [exact Hneg|].
  split; [rewrite Hg; apply neg_seq_sorted|].
  split; [rewrite Hg; apply neg_seq_NoDup|].
  apply Forall_forall. intros v Hin Hhad.
  rewrite Forall_forall in Hf. destruct (Hf v Hin) as [Hsn Hnone].
  pose proof (generated_elem v new Hin Hhad) as Hel.
  split; [|split; [exact Hel | split; [by apply Hnone | exact Hsn]]].
  rewrite Forall_forall in Hneg. by apply Hneg.
Qed.

(** The walk of [<html><body><div id="a">hi</div></body></html>] on a
    fresh document: five nodes, five generated ids. *)
Example buildFromDom_sample_ids :
  let r := RRDocument_buildFromDom 1%positive (Some sample_dom) fresh_state in
  threw r = None
  /\ generated (visits (final r)) = [-1; -2; -3; -4; -5]
  /\ v_node <$> visits (final r) = [0; 1; 2; 3; 4]%nat.
Proof. vm_compute. done. Qed.

(** *** Which nodes a walk reaches *)

Lemma walk_order_unfold (id : lid) (parent : option lid) (kind : LiveKind)
    (childNodes : list LNode) :
  walk_order (LN id parent kind childNodes)
  = (id, kind) :: (if descends kind then walk_order_all childNodes else []).
Proof. reflexivity. Qed.

Lemma preorder_all_cons (child : LNode) (l : list LNode) :
  walk_order_all (child :: l) = walk_order child ++ walk_order_all l.
Proof. reflexivity. Qed.

Lemma generated_cons_stamped (id : lid) (i : Z) (vs : list Visit) :
  generated (mkVisit id true i :: vs) = generated vs.
Proof. unfold generated. by rewrite filter_cons_False. Qed.

Lemma generated_cons_new (id : lid) (i : Z) (vs : list Visit) :
  generated (mkVisit id false i :: vs) = i :: generated vs.
Proof. unfold generated. by rewrite filter_cons_True. Qed.

Lemma expected_visits_app (live : gmap lid serializedNodeWithId) (c : Z)
    (l1 l2 : list lid) :
  expected_visits live c (l1 ++ l2)
  = expected_visits live c l1
    ++ expected_visits live
         (c - Z.of_nat (length (generated (expected_visits live c l1)))) l2.
Proof.
  revert c. induction l1 as [|x l1 IH]; intros c; cbn [expected_visits app].
  - f_equal. simpl. lia.
  - destruct (live !! x) as [sn|]; cbn [app].
    + rewrite generated_cons_stamped. f_equal. apply IH.
    + rewrite generated_cons_new. f_equal. rewrite IH. do 2 f_equal.
      cbn [length]. lia.
Qed.

Lemma expected_visits_ext (live live' : gmap lid serializedNodeWithId) (c : Z)
    (l : list lid) :
  (forall x, x ∈ l -> live' !! x = live !! x) ->
  expected_visits live' c l = expected_visits live c l.
Proof.
  revert c. induction l as [|x l IH]; intros c H; simpl; [done|].
  rewrite (H x) by left.
  destruct (live !! x); f_equal; apply IH; intros y Hy; apply H; by right.
Qed.

Lemma expected_visits_nodes (live : gmap lid serializedNodeWithId) (c : Z)
    (l : list lid) :
  v_node <$> expected_visits live c l = l.
Proof.
  revert c. induction l as [|x l IH]; intros c; simpl; [done|].
  destruct (live !! x); simpl; by rewrite IH.
Qed.

Lemma expected_visits_new (live : gmap lid serializedNodeWithId) (c : Z)
    (l : list lid) (x : lid) :
  x ∈ l -> live !! x = None ->
  exists v, v ∈ expected_visits live c l /\ v_node v = x /\ v_had_sn v = false.
Proof.
  revert c. induction l as [|y l IH]; intros c Hin Hx; [by apply elem_of_nil in Hin|].
  apply elem_of_cons in Hin as [->|Hin]; simpl.
  - rewrite Hx. eexists. split; [left|]. done.
  - destruct (live !! y).
    + destruct (IH c Hin Hx) as (v & Hv & Hn & Hh). exists v.
      split; [by right | done].
    + destruct (IH (c - 1) Hin Hx) as (v & Hv & Hn & Hh). exists v.
      split; [by right | done].
Qed.

Lemma extends_counter (st st' : DomState) (new : list Visit) :
  extends st st' ->
  visits st' = visits st ++ new ->
  notSerializedId st' = notSerializedId st - Z.of_nat (length (generated new)).
Proof.
  intros (n & Hv & _ & Hc & _) H. rewrite Hv in H. apply app_inv_head in H.
  by subst.
Qed.

Lemma identify_spec (id : lid) (kind : LiveKind) (st : DomState) :
  exists sn st1,
    identify id kind st = Ok sn st1
    /\ visits st1
       = visits st ++ expected_visits (st_live_sn st) (notSerializedId st) [id]
    /\ (forall l, l <> id -> st_live_sn st1 !! l = st_live_sn st !! l)
    /\ notSerializedId st1
       = notSerializedId st
         - Z.of_nat (length (generated
             (expected_visits (st_live_sn st) (notSerializedId st) [id])))
    /\ sn_type sn = record_type st id kind.
Proof.
  unfold identify, record_type. cbn [expected_visits].
  destruct (st_live_sn st !! id) as [sn|] eqn:E; do 2 eexists;
    (split; [reflexivity|]); cbn [visits st_live_sn notSerializedId sn_type].
  - rewrite generated_cons_stamped. simpl. repeat split; try done. lia.
  - rewrite generated_cons_new. simpl. repeat split; try done.
    intros l Hl. by rewrite lookup_insert_ne.
Qed.

Lemma returns_any {A} (P : heap -> Prop) (m : M heap A) :
  returns P m (fun _ _ => True).
Proof. by intros h a h' _ _. Qed.

(** The only node for which the walk stops before attaching anything is
    one of a kind outside the six of the [switch]. *)
Lemma resolve_None (this : addr) (sn : serializedNodeWithId) (kind : LiveKind)
    (h h' : heap) :
  resolve this sn kind h = Ok None h' -> kind = LOther.
Proof.
  intros Hrun.
  assert (Hret : returns (fun _ => True) (resolve this sn kind)
                   (fun r _ => r = None -> kind = LOther)).
  { unfold resolve. eapply returns_bind; [apply returns_any|]. intros has.
    destruct (negb has).
    - eapply (returns_bind _ (fun created _ => created = None -> kind = LOther)).
      + destruct kind; simpl;
          try (eapply returns_bind; [apply returns_any|]; intros a;
               apply returns_ret; intros; discriminate).
        * destruct (bool_decide _).
          -- eapply returns_bind; [apply returns_any|]. intros a.
             apply returns_ret. intros; discriminate.
          -- apply returns_ret. intros; discriminate.
        * apply returns_ret. done.
      + intros [rr|]; [|by apply returns_ret].
        eapply returns_bind; [apply returns_any|]. intros ?.
        eapply returns_bind; [apply returns_any|]. intros ?.
        apply returns_ret. intros; discriminate.
    - eapply returns_bind; [apply returns_any|]. intros [rr|]; [|apply returns_throw].
      eapply returns_bind; [apply returns_any|]. intros ?.
      eapply returns_bind; [apply returns_any|]. intros ?.
      eapply returns_bind; [apply returns_any|]. intros ?.
      apply returns_ret. intros; discriminate. }
  by apply (Hret h None h' I Hrun).
Qed.

Lemma silent_counter {A} (m : M DomState A) (st : DomState) :
  silent m -> preserves m -> notSerializedId (final (m st)) = notSerializedId st.
Proof.
  intros Hs Hp. destruct (Hs st) as [Hv _].
  rewrite (extends_counter st (final (m st)) [] (Hp st)).
  - simpl. lia.
  - by rewrite app_nil_r.
Qed.

Lemma walk_all_reaches (this : addr) (l : list LNode) :
  Forall (fun node => forall st,
            NoDup (walk_order node).*1 ->
            records_match (st_live_sn st) (walk_order node) ->
            exists seen later,
              (walk_order node).*1 = l_id node :: seen ++ later
              /\ reaches st (walk this node st) (l_id node :: seen) later) l ->
  forall st,
    NoDup (walk_order_all l).*1 ->
    records_match (st_live_sn st) (walk_order_all l) ->
    exists seen later,
      (walk_order_all l).*1 = seen ++ later
      /\ reaches st (walk_all this l st) seen later.
Proof.
  induction 1 as [|c l Hc Hl IH]; intros st Hnd Hrm.
  { exists [], []. split; [done|]. unfold reaches. simpl.
    split; [by rewrite app_nil_r|]. by split. }
  rewrite preorder_all_cons in Hnd, Hrm |- *. rewrite fmap_app in Hnd |- *.
  apply NoDup_app in Hnd as (Hnd1 & Hdisj & Hnd2).
  destruct (Hc st Hnd1) as (seen1 & later1 & Hpre1 & Hv1 & Ht1 & Hf1).
  { intros id kind sn Hin. apply Hrm. apply elem_of_app. by left. }
  change (walk_all this (c :: l) st) with ((walk this c;;; walk_all this l) st).
  unfold bind.
  pose proof (preserves_walk this c st) as Hext.
  destruct (walk this c st) as [[] st1|e st1] eqn:E;
    cbn [final threw] in Hv1, Ht1, Hf1, Hext.
  - specialize (Ht1 eq_refl). subst later1. rewrite app_nil_r in Hpre1.
    pose proof (extends_counter _ _ _ Hext Hv1) as Hc1.
    assert (Hout : forall x, x ∈ (walk_order_all l).*1 ->
                     st_live_sn st1 !! x = st_live_sn st !! x).
    { intros x Hx. apply Hf1. rewrite <- Hpre1. intros Hx1.
      by apply (Hdisj x). }
    destruct (IH st1 Hnd2) as (seen2 & later2 & Hpre2 & Hv2 & Ht2 & Hf2).
    { intros id kind sn Hin Hsn. apply (Hrm id kind sn).
      - apply elem_of_app. by right.
      - rewrite <- Hout; [done|]. apply list_elem_of_fmap. by exists (id, kind). }
    exists ((l_id c :: seen1) ++ seen2), later2.
    split; [by rewrite Hpre1, Hpre2, app_assoc|].
    split; [|split].
    + rewrite Hv2, Hv1, expected_visits_app, <- app_assoc. do 2 f_equal.
      rewrite Hc1. apply expected_visits_ext.
      intros x Hx. apply Hout. rewrite Hpre2. apply elem_of_app. by left.
    + exact Ht2.
    + intros x Hx. apply not_elem_of_app in Hx as [Hx1 Hx2].
      rewrite Hf2 by done. by apply Hf1.
  - exists (l_id c :: seen1), (later1 ++ (walk_order_all l).*1).
    split; [rewrite Hpre1; simpl; by rewrite <- app_assoc|].
    split; [exact Hv1|]. split; [intros [=] | exact Hf1].
Qed.

Lemma walk_reaches (this : addr) (node : LNode) (st : DomState) :
  NoDup (walk_order node).*1 ->
  records_match (st_live_sn st) (walk_order node) ->
  exists seen later,
    (walk_order node).*1 = l_id node :: seen ++ later
    /\ reaches st (walk this node st) (l_id node :: seen) later.
Proof.
  revert st. induction node as [id parent kind childNodes IH] using LNode_ind.
  intros st Hnd Hrm. rewrite walk_order_unfold in Hnd, Hrm |- *.
  rewrite fmap_cons in Hnd |- *. cbn [fst l_id] in *.
  apply NoDup_cons in Hnd as [Hid Hnd].
  rewrite walk_unfold. unfold bind at 1.
  destruct (identify_spec id kind st) as (sn & st1 & -> & Hv1 & Hl1 & Hc1 & Hty).
  assert (Hrec : recurses sn = descends kind).
  { unfold recurses, descends. rewrite Hty. unfold record_type.
    destruct (st_live_sn st !! id) as [sn0|] eqn:Hsn0; [|done].
    rewrite (Hrm id kind sn0); [done | by left | done]. }
  rewrite Hrec.
  assert (Hone : forall (o : Outcome DomState unit) later,
             visits (final o) = visits st1 ->
             st_live_sn (final o) = st_live_sn st1 ->
             (threw o = None -> later = []) ->
             reaches st o [id] later).
  { intros o later Hv Hl Ht. split; [by rewrite Hv, Hv1|]. split; [exact Ht|].
    intros l Hl'. rewrite Hl. apply Hl1. intros ->. apply Hl'. left. }
  unfold bind at 1, liftH at 1.
  destruct (resolve this sn kind (st_heap st1)) as [[rr|] h2|e h2] eqn:Er.
  - set (st2 := mkState h2 (st_live_sn st1) (notSerializedId st1) (visits st1)).
    unfold bind at 1.
    pose proof (silent_attach this rr parent st2) as [Hav Hal].
    pose proof (silent_counter (attach this rr parent) st2
                  (silent_attach this rr parent) (preserves_attach this rr parent))
      as Hac.
    destruct (attach this rr parent st2) as [[] st3|e st3] eqn:Ea;
      cbn [final] in Hav, Hal, Hac.
    + destruct (descends kind) eqn:Ed.
      * assert (Hout : forall x, x ∈ (walk_order_all childNodes).*1 ->
                         st_live_sn st3 !! x = st_live_sn st !! x).
        { intros x Hx. rewrite Hal. apply Hl1. intros ->. by apply Hid. }
        destruct (walk_all_reaches this childNodes IH st3 Hnd)
          as (seen & later & Hpre & Hv & Ht & Hf).
        { intros i k s Hin Hs. apply (Hrm i k s); [by right|].
          rewrite <- Hout; [done|]. apply list_elem_of_fmap. by exists (i, k). }
        exists seen, later. split; [by rewrite Hpre|].
        split; [|split].
        -- rewrite Hv, Hav. subst st2. cbn [visits]. rewrite Hv1, <- app_assoc.
           f_equal. rewrite (expected_visits_app _ _ [id] seen). f_equal.
           rewrite Hac. cbn [notSerializedId]. rewrite Hc1.
           apply expected_visits_ext. intros x Hx. apply Hout.
           rewrite Hpre. apply elem_of_app. by left.
        -- exact Ht.
        -- intros x Hx. apply not_elem_of_cons in Hx as [Hx1 Hx2].
           rewrite Hf by done. rewrite Hal. by apply Hl1.
      * exists [], []. split; [done|]. by apply Hone.
    + exists [], ((if descends kind then walk_order_all childNodes else []).*1).
      split; [done|]. apply Hone; [done | done | intros [=]].
  - apply resolve_None in Er as ->. exists [], []. split; [done|].
    by apply Hone.
  - exists [], ((if descends kind then walk_order_all childNodes else []).*1).
    split; [done|]. apply Hone; [done | done | intros [=]].
Qed.

Lemma destroyTree_ok (h : heap) (this : addr) (d : RRNode) :
  h !! this = Some d ->
  nodeType d = Document ->
  exists h', RRDocument_destroyTree this h = Ok tt h'.
Proof.
  intros Hd Hk. unfold nodeType in Hk. destruct (cls d) eqn:Hcls; try discriminate.
  unfold RRDocument_destroyTree, load_mirror. run. rewrite Hd. simpl.
  rewrite lookup_insert_eq. simpl. rewrite Hcls. simpl.
  rewrite lookup_insert_eq. eauto.
Qed.

Lemma NoDup_fmap_eq {A B} (f : A -> B) (l : list A) (x y : A) :
  NoDup (f <$> l) -> x ∈ l -> y ∈ l -> f x = f y -> x = y.
Proof.
  induction l as [|a l IH]; intros Hnd Hx Hy Hf; [by apply elem_of_nil in Hx|].
  rewrite fmap_cons in Hnd. apply NoDup_cons in Hnd as [Ha Hnd].
  apply elem_of_cons in Hx as [->|Hx]; apply elem_of_cons in Hy as [->|Hy].
  - done.
  - exfalso. apply Ha. rewrite Hf. by apply list_elem_of_fmap_2.
  - exfalso. apply Ha. rewrite <- Hf. by apply list_elem_of_fmap_2.
  - by apply IH.
Qed.

Lemma walk_first_visit (this : addr) (node : LNode) (st : DomState) :
  exists rest,
    visits (final (walk this node st))
    = visits st
      ++ expected_visits (st_live_sn st) (notSerializedId st) [l_id node] ++ rest.
Proof.
  destruct node as [id parent kind childNodes]. rewrite walk_unfold.
  cbn [l_id]. unfold bind at 1.
  destruct (identify_spec id kind st) as (sn & st1 & -> & Hv1 & _).
  assert (Hrest : preserves
            (let! resolved := liftH (resolve this sn kind) in
             match resolved with
             | None => ret tt
             | Some rrNode =>
                 attach this rrNode parent;;;
                 if recurses sn then walk_all this childNodes else ret tt
             end)).
  { apply preserves_bind; [apply preserves_liftH|].
    intros [rrNode|]; [|apply preserves_ret].
    apply preserves_bind; [apply preserves_attach|]. intros _.
    destruct (recurses sn); [|apply preserves_ret].
    apply preserves_walk_all, Forall_forall. intros ? _. apply preserves_walk. }
  destruct (Hrest st1) as (new & Hnew & _).
  exists new. by rewrite Hnew, Hv1, <- app_assoc.
Qed.

(** C6. One [buildFromDom] call on a document visits the root of the
    live tree first.  Every visited node that carried no record is
    given an id: -1 for the first such node, -2 for the next, and so on
    in visit order, so the generated ids are negative, strictly
    decreasing and pairwise distinct, and two different nodes never get
    the same one.  That id is stamped on the live node itself, in a
    record that the node carries when the call ends; records present
    before the call are kept.  When the nodes of the tree are distinct
    and every record present has the type of its node, the nodes
    visited are those of the tree in document order, without what lies
    below a node that is neither a document nor an element: all of
    them when the call returns, an initial part of them when it raises;
    nodes not visited are left without a record. *)
Theorem buildFromDom_generated_ids
    (this : addr) (d : RRNode) (dom : LNode) (st : DomState) :
  st_heap st !! this = Some d ->
  nodeType d = Document ->
  let o := RRDocument_buildFromDom this (Some dom) st in
  let st' := final o in
  exists new rest,
    visits st' = visits st ++ new
    /\ v_node <$> new = l_id dom :: rest
    /\ generated new = neg_seq (-1) (length (generated new))
    /\ Forall (fun i => i < 0) (generated new)
    /\ StronglySorted Z.gt (generated new)
    /\ NoDup (generated new)
    /\ Forall (fun v =>
                 v_had_sn v = false ->
                 v_id v < 0
                 /\ v_id v ∈ generated new
                 /\ st_live_sn st !! v_node v = None
                 /\ exists sn, st_live_sn st' !! v_node v = Some sn
                               /\ sn_id sn = v_id v) new
    /\ (forall v1 v2, v1 ∈ new -> v2 ∈ new ->
          v_had_sn v1 = false -> v_had_sn v2 = false ->
          v_node v1 <> v_node v2 -> v_id v1 <> v_id v2)
    /\ (st_live_sn st !! l_id dom = None ->
          sn_id <$> st_live_sn st' !! l_id dom = Some (-1))
    /\ (forall l sn, st_live_sn st !! l = Some sn -> st_live_sn st' !! l = Some sn)
    /\ (NoDup (walk_order dom).*1 ->
        records_match (st_live_sn st) (walk_order dom) ->
        exists seen later,
          (walk_order dom).*1 = l_id dom :: seen ++ later
          /\ (threw o = None -> later = [])
          /\ new = expected_visits (st_live_sn st) (-1) (l_id dom :: seen)
          /\ (forall l, l ∈ l_id dom :: seen -> st_live_sn st !! l = None ->
                exists sn, st_live_sn st' !! l = Some sn
                           /\ sn_id sn ∈ generated new
                           /\ sn_id sn < 0)
          /\ (forall l1 l2 sn1 sn2,
                l1 ∈ l_id dom :: seen -> l2 ∈ l_id dom :: seen -> l1 <> l2 ->
                st_live_sn st !! l1 = None -> st_live_sn st !! l2 = None ->
                st_live_sn st' !! l1 = Some sn1 -> st_live_sn st' !! l2 = Some sn2 ->
                sn_id sn1 <> sn_id sn2)
          /\ (forall l, (l ∉ l_id dom :: seen) ->
                st_live_sn st' !! l = st_live_sn st !! l)).
Proof.
  intros Hd Hk o st'.
  destruct (buildFromDom_history this (Some dom) st)
    as (new & Hvis & Hgen & Hneg & Hsort & Hdup & Hnew).
  fold o in Hvis, Hnew. fold st' in Hvis, Hnew.
  destruct (buildFromDom_extends this (Some dom) st)
    as (new' & Hvis' & _ & _ & Hkeep & _).
  fold o in Hvis', Hkeep. fold st' in Hvis', Hkeep.
  cbn [visits st_live_sn] in Hvis', Hkeep.
  destruct (destroyTree_ok (st_heap st) this d Hd Hk) as (h1 & Hdestroy).
  set (st0 := mkState h1 (st_live_sn st) (-1) (visits st)).
  assert (Ho : o = walk this dom st0).
  { subst o. unfold RRDocument_buildFromDom. unfold bind at 1, modify.
    unfold bind at 1, liftH at 1. cbn [st_heap]. by rewrite Hdestroy. }
  destruct (walk_first_visit this dom st0) as (rest0 & Hfirst).
  rewrite <- Ho in Hfirst. fold st' in Hfirst.
  subst st0. cbn [visits st_live_sn notSerializedId] in Hfirst.
  assert (Hhead : new = expected_visits (st_live_sn st) (-1) [l_id dom] ++ rest0).
  { rewrite Hvis in Hfirst. by apply app_inv_head in Hfirst. }
  pose proof Hnew as Hall. rewrite Forall_forall in Hall.
  assert (Hinj : forall v1 v2, v1 ∈ new -> v2 ∈ new ->
            v_had_sn v1 = false -> v_had_sn v2 = false ->
            v_id v1 = v_id v2 -> v1 = v2).
  { intros v1 v2 H1 H2 Hh1 Hh2.
    apply (NoDup_fmap_eq v_id (filter (fun v => v_had_sn v = false) new) v1 v2 Hdup);
      by apply list_elem_of_filter. }
  exists new, (v_node <$> rest0).
  split; [exact Hvis|].
  split; [by rewrite Hhead, fmap_app, expected_visits_nodes|].
  split; [exact Hgen|]. split; [exact Hneg|].
  split; [exact Hsort|]. split; [exact Hdup|]. split; [exact Hnew|].
  split; [|split; [|split; [exact Hkeep|]]].
  { intros v1 v2 H1 H2 Hh1 Hh2 Hne Hid. apply Hne. f_equal. by apply Hinj. }
  { intros Hnone.
    assert (Hin : mkVisit (l_id dom) false (-1) ∈ new).
    { rewrite Hhead. simpl. rewrite Hnone. left. }
    destruct (Hall _ Hin eq_refl) as (_ & _ & _ & sn & Hsn & Hid).
    cbn [v_node v_id] in Hsn, Hid. by rewrite Hsn, <- Hid. }
  intros Hnd Hrm.
  destruct (walk_reaches this dom (mkState h1 (st_live_sn st) (-1) (visits st)) Hnd Hrm)
    as (seen & later & Hpre & Hv & Ht & Hf).
  rewrite <- Ho in Hv, Ht, Hf. fold st' in Hv, Hf.
  cbn [visits st_live_sn notSerializedId] in Hv, Hf.
  assert (Heq : new = expected_visits (st_live_sn st) (-1) (l_id dom :: seen)).
  { rewrite Hvis in Hv. by apply app_inv_head in Hv. }
  exists seen, later.
  split; [exact Hpre|]. split; [exact Ht|]. split; [exact Heq|].
  assert (Hstamp : forall l, l ∈ l_id dom :: seen -> st_live_sn st !! l = None ->
            exists v sn, v ∈ new /\ v_node v = l /\ v_had_sn v = false
                         /\ st_live_sn st' !! l = Some sn /\ sn_id sn = v_id v
                         /\ v_id v ∈ generated new /\ v_id v < 0).
  { intros l Hl Hnone.
    destruct (expected_visits_new (st_live_sn st) (-1) _ l Hl Hnone)
      as (v & Hv0 & Hn & Hh).
    rewrite <- Heq in Hv0.
    destruct (Hall v Hv0 Hh) as (Hlt & Hin & _ & sn & Hsn & Hid).
    rewrite Hn in Hsn. exists v, sn. by repeat split. }
  split; [|split; [|exact Hf]].
  - intros l Hl Hnone.
    destruct (Hstamp l Hl Hnone) as (v & sn & _ & _ & _ & Hsn & Hid & Hin & Hlt).
    exists sn. rewrite Hid. by repeat split.
  - intros l1 l2 sn1 sn2 Hl1 Hl2 Hne Hn1 Hn2 Hs1 Hs2 Hsame.
    destruct (Hstamp l1 Hl1 Hn1) as (v1 & s1 & Hv1 & Hvn1 & Hh1 & Hs1' & Hid1 & _).
    destruct (Hstamp l2 Hl2 Hn2) as (v2 & s2 & Hv2 & Hvn2 & Hh2 & Hs2' & Hid2 & _).
    assert (s1 = sn1) by congruence. assert (s2 = sn2) by congruence. subst s1 s2.
    apply Hne. rewrite <- Hvn1, <- Hvn2. f_equal.
    apply Hinj; [done | done | done | done | congruence].
Qed.

Lemma buildFromDom_generated_ids_witness :
  let o := RRDocument_buildFromDom 1%positive (Some sample_dom) stamped_state in
  threw o = None
  /\ v_node <$> visits (final o) = [0; 1; 2; 3; 4]%nat
  /\ generated (visits (final o)) = [-1; -2; -3; -4]
  /\ (forall l, l ∈ [0; 1; 3; 4]%nat ->
        exists sn, st_live_sn (final o) !! l = Some sn /\ sn_id sn < 0)
  /\ sn_id <$> st_live_sn (final o) !! 0%nat = Some (-1)
  /\ sn_id <$> st_live_sn (final o) !! 2%nat = Some 7.
Proof.
  intros o. subst o.
  assert (Hin : forall l : nat, l ∈ [0; 1; 3; 4]%nat -> l ∈ 0%nat :: [1; 2; 3; 4]%nat).
  { intros l Hl. apply elem_of_cons in Hl as [->|Hl]; [left|]. right.
    apply elem_of_cons in Hl as [->|Hl]; [left|]. do 2 right. exact Hl. }
  assert (Hnd : NoDup (walk_order sample_dom).*1).
  { apply (bool_decide_unpack _). vm_compute. reflexivity. }
  assert (Hrm : records_match (st_live_sn stamped_state) (walk_order sample_dom)).
  { clear Hin Hnd. intros id kind sn Hin Hsn.
    destruct (decide (id = 2%nat)) as [->|Hne].
    - assert (sn = mkSN (Some Element) None 7 None) as ->.
      { unfold stamped_state in Hsn. cbn [st_live_sn] in Hsn.
        rewrite lookup_singleton_eq in Hsn. congruence. }
      assert (Hp : walk_order sample_dom
                   = [(0%nat, LDocument);
                      (1%nat, LElement (sample_live_element "HTML" []));
                      (2%nat, LElement (sample_live_element "BODY" []));
                      (3%nat, LElement (sample_live_element "DIV" [("id", "a")]));
                      (4%nat, LText "hi")]) by reflexivity.
      rewrite Hp in Hin.
      apply elem_of_cons in Hin as [Hin|Hin]; [discriminate Hin|].
      apply elem_of_cons in Hin as [Hin|Hin]; [discriminate Hin|].
      apply elem_of_cons in Hin as [Hin|Hin]; [by injection Hin as ->|].
      apply elem_of_cons in Hin as [Hin|Hin]; [discriminate Hin|].
      apply elem_of_cons in Hin as [Hin|Hin]; [discriminate Hin|].
      apply elem_of_nil in Hin. destruct Hin.
    - unfold stamped_state in Hsn. cbn [st_live_sn] in Hsn.
      rewrite lookup_singleton_ne in Hsn by done. discriminate Hsn. }
  destruct (buildFromDom_generated_ids 1%positive (new_node (CDocument ∅))
              sample_dom stamped_state eq_refl eq_refl)
    as (new & rest & Hvis & _ & _ & _ & _ & _ & _ & _ & Hroot & Hkeep & Htree).
  destruct (Htree Hnd Hrm) as (seen & later & Hpre & Hlater & Hnew & Hstamp & _).
  clear Htree Hnd Hrm.
  assert (Hthrew : threw (RRDocument_buildFromDom 1%positive (Some sample_dom)
                            stamped_state) = None) by (vm_compute; reflexivity).
  specialize (Hlater Hthrew). subst later. rewrite app_nil_r in Hpre.
  assert (Hseen : seen = [1; 2; 3; 4]%nat).
  { vm_compute in Hpre. injection Hpre as <-. reflexivity. }
  subst seen. split; [exact Hthrew|]. clear Hthrew Hpre.
  split; [rewrite Hvis, Hnew; vm_compute; reflexivity|].
  split; [rewrite Hvis, Hnew; vm_compute; reflexivity|].
  clear Hvis.
  split; [|split].
  - intros l Hl.
    assert (Hnone : st_live_sn stamped_state !! l = None).
    { repeat (apply elem_of_cons in Hl as [->|Hl]; [reflexivity|]).
      apply elem_of_nil in Hl. destruct Hl. }
    destruct (Hstamp l (Hin l Hl) Hnone) as (sn & Hsn & _ & Hlt).
    exists sn. split; [exact Hsn | exact Hlt].
  - apply Hroot. reflexivity.
  - rewrite (Hkeep 2%nat (mkSN (Some Element) None 7 None) eq_refl). reflexivity.
Defined.

(** C3. Two calls on the same document: the first walks a lone live
    document, the second the same document after the host gave it an
    element.  Both calls return, and both generate -1: the ids generated
    over the lifetime of the document are neither decreasing nor
    distinct, and the live document and the live element carry the same
    id.  The second call therefore finds that id in the mirror and takes
    the new element for the document: no virtual element is built, and
    the document ends up as its own child and its own parent. *)
Theorem generated_ids_reused_across_calls :
  let o1 := RRDocument_buildFromDom 1%positive (Some lone_dom) fresh_state in
  let o2 := RRDocument_buildFromDom 1%positive (Some grown_dom) (final o1) in
  let st2 := final o2 in
  threw o1 = None
  /\ threw o2 = None
  /\ generated (visits st2) = [-1; -1]
  /\ ~ StronglySorted Z.gt (generated (visits st2))
  /\ ~ NoDup (generated (visits st2))
  /\ sn_id <$> st_live_sn st2 !! 0%nat = Some (-1)
  /\ sn_id <$> st_live_sn st2 !! 1%nat = Some (-1)
  /\ mirror_of (st_heap st2) 1%positive = {[ -1 := 1%positive ]}
  /\ dom (st_heap st2) = {[ 1%positive ]}
  /\ children_of (st_heap st2) 1%positive = [1%positive]
  /\ parentNode_of (st_heap st2) 1%positive = Some 1%positive.
Proof.
  intros o1 o2 st2.
  assert (E : generated (visits st2) = [-1; -1]) by (vm_compute; reflexivity).
  rewrite E. split; [vm_compute; reflexivity|]. split; [vm_compute; reflexivity|].
  split; [reflexivity|]. split; [|split].
  - intros H. inversion H as [|? ? _ HF]. inversion HF. lia.
  - intros H. inversion H as [|? ? Hnin _]. apply Hnin. left.
  - repeat split; vm_compute; reflexivity.
Qed.

(** * Further properties *)

(** ** Stores *)

Lemma update_alter (h : heap) (a : addr) (f : RRNode -> RRNode) :
  is_Some (h !! a) -> update a f h = Ok tt (alter f a h).
Proof.
  intros [n Hn]. unfold update. rewrite Hn. f_equal.
  apply map_eq. intros b. destruct (decide (a = b)) as [<-|Hne].
  - by rewrite lookup_insert_eq, lookup_alter_eq, Hn.
  - by rewrite lookup_insert_ne, lookup_alter_ne.
Qed.

Lemma alter_is_Some (h : heap) (a b : addr) (f : RRNode -> RRNode) :
  is_Some (h !! b) -> is_Some (alter f a h !! b).
Proof.
  intros [n Hn]. destruct (decide (a = b)) as [<-|Hne].
  - rewrite lookup_alter_eq, Hn. simpl. eauto.
  - rewrite lookup_alter_ne by done. eauto.
Qed.

Lemma indexOf_app_new (x : addr) (l : list addr) :
  x ∉ l -> indexOf x (l ++ [x]) = Some (length l).
Proof.
  induction l as [|y l IH]; simpl; intros Hx.
  - by rewrite decide_True.
  - apply not_elem_of_cons in Hx as [Hne Hx].
    rewrite decide_False by congruence. by rewrite IH.
Qed.

Lemma splice_remove_last (x : addr) (l : list addr) :
  splice_remove (length l) (l ++ [x]) = l.
Proof. rewrite splice_remove_app. apply app_nil_r. Qed.

Lemma RRElement_appendChild_run (h : heap) (this newChild : addr) :
  is_Some (h !! this) ->
  is_Some (h !! newChild) ->
  RRElement_appendChild this newChild h
  = Ok newChild (element_appended h this newChild).
Proof.
  intros Ht Hc. unfold RRElement_appendChild, bind, ret.
  rewrite update_alter by done.
  rewrite update_alter by by apply alter_is_Some.
  rewrite update_alter by by do 2 apply alter_is_Some.
  unfold element_appended. f_equal. by rewrite alter_alter_eq.
Qed.

Lemma removeChild_run (h : heap) (this node : addr) (t : RRNode) (i : nat) :
  h !! this = Some t ->
  is_Some (h !! node) ->
  indexOf node (children t) = Some i ->
  removeChild this node h = Ok tt (removed h this node i).
Proof.
  intros Ht Hn Hi. unfold removeChild, RRNode_removeChild, bind, load.
  rewrite Ht, Hi. rewrite update_alter by eauto.
  rewrite update_alter by by apply alter_is_Some.
  rewrite update_alter by by do 2 apply alter_is_Some.
  unfold removed. f_equal. by rewrite alter_alter_eq.
Qed.

Lemma set_children_id (n : RRNode) : set_children (children n) n = n.
Proof. by destruct n. Qed.

Lemma appendChild_run (h : heap) (this newChild : addr) (t c : RRNode) :
  h !! this = Some t ->
  h !! newChild = Some c ->
  nodeType t = Element \/ nodeType t = Document ->
  appendChild this newChild h
  = match cls t with
    | CDocument _ =>
        if duplicate_root h t c then Throw (DuplicateRoot (nodeType c)) h
        else Ok newChild (appended h this newChild)
    | _ => Ok newChild (element_appended h this newChild)
    end.
Proof.
  intros Ht Hc Hk. unfold appendChild, bind, load. rewrite Ht.
  unfold nodeType in Hk. destruct (cls t) eqn:E;
    try (destruct Hk; discriminate).
  - by apply RRDocument_appendChild_run.
  - apply RRElement_appendChild_run; eauto.
Qed.

(** ** appendChild *)

Lemma appendChild_ok_store (h h' : heap) (this newChild a : addr) (t c : RRNode) :
  h !! this = Some t ->
  h !! newChild = Some c ->
  nodeType t = Element \/ nodeType t = Document ->
  appendChild this newChild h = Ok a h' ->
  a = newChild
  /\ (h' = appended h this newChild \/ h' = element_appended h this newChild).
Proof.
  intros Ht Hc Hk Hrun. rewrite (appendChild_run h this newChild t c) in Hrun by done.
  destruct (cls t); try (injection Hrun as <- <-; auto).
  destruct (duplicate_root h t c); [discriminate|]. injection Hrun as <- <-; auto.
Qed.

Lemma appendChild_ok_facts
    (h h' : heap) (this newChild a : addr) (t c : RRNode) :
  h !! this = Some t ->
  h !! newChild = Some c ->
  nodeType t = Element \/ nodeType t = Document ->
  appendChild this newChild h = Ok a h' ->
  a = newChild
  /\ children_of h' this = children t ++ [newChild]
  /\ (forall b n, h !! b = Some n ->
        exists n', h' !! b = Some n' /\ cls n' = cls n
                   /\ (b <> this -> children n' = children n)).
Proof.
  intros Ht Hc Hk Hrun.
  destruct (appendChild_ok_store h h' this newChild a t c Ht Hc Hk Hrun)
    as [-> [-> | ->]]; (split; [done|]).
  - split; [by apply appended_children|].
    intros b n Hb. unfold appended.
    destruct (decide (this = b)) as [Hb1|Hb1];
      destruct (decide (newChild = b)) as [Hb2|Hb2];
      try (rewrite <- Hb1 in * ); try (rewrite <- Hb2 in * ); alter_lookup;
      rewrite ?Hb; simpl;
      (eexists; split; [reflexivity|]; split; [done|]; intros; first [done | congruence]).
  - split.
    + unfold element_appended, children_of.
      destruct (decide (newChild = this)) as [->|Hne]; alter_lookup; by rewrite Ht.
    + intros b n Hb. unfold element_appended.
      destruct (decide (this = b)) as [Hb1|Hb1];
        destruct (decide (newChild = b)) as [Hb2|Hb2];
        try (rewrite <- Hb1 in * ); try (rewrite <- Hb2 in * ); alter_lookup;
        rewrite ?Hb; simpl;
      (eexists; split; [reflexivity|]; split; [done|]; intros; first [done | congruence]).
Qed.



(** X2. Appending a detached node that the receiver does not hold yet
    and removing it again gives back the store the calls started from:
    [removeChild] undoes [appendChild]. *)
Theorem appendChild_removeChild_roundtrip
    (h h' : heap) (this newChild a : addr) (t c : RRNode) :
  h !! this = Some t ->
  h !! newChild = Some c ->
  nodeType t = Element \/ nodeType t = Document ->
  newChild ∉ children t ->
  parentNode c = None ->
  parentElement c = None ->
  appendChild this newChild h = Ok a h' ->
  removeChild this newChild h' = Ok tt h.
Proof.
  intros Ht Hc Hk Hnew Hpn Hpe Hrun.
  destruct (appendChild_ok_store h h' this newChild a t c Ht Hc Hk Hrun)
    as [-> Hh'].
  assert (Hch : children_of h' this = children t ++ [newChild]).
  { by destruct (appendChild_ok_facts h h' this newChild newChild t c)
      as (_ & ? & _). }
  assert (Hsome : forall b, is_Some (h !! b) -> is_Some (h' !! b)).
  { intros b Hb. destruct Hh' as [-> | ->]; unfold appended, element_appended;
      by do 2 apply alter_is_Some. }
  destruct (Hsome this) as [t' Ht']; [eauto|].
  assert (Hct' : children t' = children t ++ [newChild]).
  { unfold children_of in Hch. by rewrite Ht' in Hch. }
  rewrite (removeChild_run h' this newChild t' (length (children t))); eauto.
  2:{ rewrite Hct'. by apply indexOf_app_new. }
  f_equal. unfold removed. apply map_eq. intros b.
  assert (Hc0 : forall x y, set_parentNode None (set_parentElement None
                   (set_parentElement x (set_parentNode y c))) = c).
  { intros x y. destruct c. simpl in *. by subst. }
  assert (Ht0 : set_children (splice_remove (length (children t))
                                (children t ++ [newChild])) t = t).
  { rewrite splice_remove_last. apply set_children_id. }
  destruct Hh' as [-> | ->]; unfold appended, element_appended;
    destruct (decide (this = b)) as [Hb1|Hb1];
    destruct (decide (newChild = b)) as [Hb2|Hb2];
    try (rewrite <- Hb1 in * ); try (rewrite <- Hb2 in * ); alter_lookup;
    try done; rewrite ?Ht, ?Hc; simpl; f_equal;
    first [ exact Ht0
          | apply Hc0
          | apply (Hc0 None (Some this))
          | idtac ].
  all: assert (c = t) as -> by congruence.
  all: rewrite splice_remove_last; destruct t; simpl in *; by subst.
Qed.

Lemma appendChild_removeChild_roundtrip_witness :
  exists h', appendChild 7%positive 3%positive sample_store = Ok 3%positive h'
    /\ removeChild 7%positive 3%positive h' = Ok tt sample_store.
Proof.
  assert (E : exists h', appendChild 7%positive 3%positive sample_store
                         = Ok 3%positive h') by (eexists; reflexivity).
  destruct E as [h' E]. exists h'. split; [exact E|].
  apply (appendChild_removeChild_roundtrip sample_store h' 7%positive 3%positive
           3%positive
           (mkNode None [8%positive] None None
              (CElement (mkElement "body" ∅ 0 0 None PlainElement)))
           (new_element "div" PlainElement));
    [reflexivity | reflexivity | by left | | reflexivity | reflexivity | exact E].
  simpl. intros H. apply list_elem_of_singleton in H. discriminate.
Defined.

(** ** The root constraint along a sequence of attempts *)

Lemma appendChild_final_nodeType (h : heap) (this childNode a : addr) :
  nodeType_of h this = Some Document ->
  is_Some (h !! childNode) ->
  nodeType_of (final (appendChild this childNode h)) a = nodeType_of h a.
Proof.
  intros Hd [c Hc]. unfold nodeType_of in Hd.
  destruct (h !! this) as [d|] eqn:Ht; [|discriminate]. injection Hd as Hd.
  rewrite (appendChild_run h this childNode d c) by auto.
  unfold nodeType in Hd. destruct (cls d); try discriminate.
  destruct (duplicate_root h d c); simpl; [done | apply appended_nodeType].
Qed.

(** X3. Whatever nodes a document is asked to append, in whatever
    order, and whether each attempt returns or raises, a document that
    satisfies the root constraint satisfies it after the whole sequence:
    at most one Element child and at most one DocumentType child. *)
Theorem appendChild_attempts_root_constraint
    (h : heap) (this : addr) (l : list addr) :
  nodeType_of h this = Some Document ->
  Forall (fun childNode => is_Some (h !! childNode)) l ->
  root_constraint h this ->
  root_constraint (attempts this l h) this.
Proof.
  revert h. induction l as [|c l IH]; intros h Hd Hl Hrc; simpl; [done|].
  apply Forall_cons in Hl as [Hc Hl].
  assert (Hty : forall a, nodeType_of (final (appendChild this c h)) a
                          = nodeType_of h a).
  { intros a. by apply appendChild_final_nodeType. }
  apply IH.
  - by rewrite Hty.
  - eapply Forall_impl; [exact Hl|]. intros a Ha. simpl in Ha.
    specialize (Hty a). unfold nodeType_of in Hty.
    destruct Ha as [n Hn]. rewrite Hn in Hty.
    destruct (final (appendChild this c h) !! a); [eauto | discriminate].
  - unfold nodeType_of in Hd. destruct (h !! this) as [d|] eqn:Ht; [|discriminate].
    injection Hd as Hd. destruct Hc as [n Hn].
    by apply (RRDocument_appendChild_root_constraint h this c d n).
Qed.

Lemma appendChild_attempts_root_constraint_witness :
  root_constraint
    (attempts 1%positive [3; 4; 5; 6; 8]%positive sample_store) 1%positive
  /\ children_of (attempts 1%positive [3; 4; 5; 6; 8]%positive sample_store)
       1%positive = [5; 2; 4; 6]%positive.
Proof.
  split; [|reflexivity].
  apply (appendChild_attempts_root_constraint sample_store 1%positive
           [3; 4; 5; 6; 8]%positive).
  - reflexivity.
  - repeat constructor; vm_compute; eauto.
  - split; vm_compute; lia.
Defined.

(** ** documentElement, head and body *)

Lemma head_filter_Some {A} (P : A -> Prop) `{forall x, Decision (P x)}
    (l : list A) (x : A) :
  head (filter P l) = Some x <->
  exists l1 l2, l = l1 ++ (x :: l2) /\ P x /\ Forall (fun y => ~ P y) l1.
Proof.
  induction l as [|y l IH]; simpl.
  - split; [done|]. intros (l1 & l2 & Hl & _). by destruct l1.
  - rewrite filter_cons. destruct (decide (P y)) as [Hy|Hy]; simpl.
    + split.
      * intros [= <-]. exists [], l. by repeat split.
      * intros (l1 & l2 & Hl & Hx & Hno). destruct l1 as [|z l1].
        -- by injection Hl as ->.
        -- injection Hl as <- _. by apply Forall_cons in Hno as [? _].
    + rewrite IH. split.
      * intros (l1 & l2 & -> & Hx & Hno). exists (y :: l1), l2.
        split; [done|]. split; [done|]. by constructor.
      * intros (l1 & l2 & Hl & Hx & Hno). destruct l1 as [|z l1].
        -- injection Hl as -> _. done.
        -- injection Hl as <- ->. apply Forall_cons in Hno as [_ Hno]. eauto.
Qed.

Lemma head_filter_None {A} (P : A -> Prop) `{forall x, Decision (P x)}
    (l : list A) :
  head (filter P l) = None <-> Forall (fun y => ~ P y) l.
Proof.
  induction l as [|y l IH]; simpl; [by split|].
  rewrite filter_cons. destruct (decide (P y)) as [Hy|Hy]; simpl.
  - split; [done|]. by intros [? _]%Forall_cons.
  - rewrite IH. split; [by constructor | by intros [_ ?]%Forall_cons].
Qed.

(** X4. [documentElement] is the first child of the document that is
    an element tagged [html], in the order of [children], and is
    undefined exactly when no child is one; [head] and [body] are the
    first children of that element tagged [head] and [body], and both
    are null when there is no [documentElement]. *)
Theorem documentElement_first_html (h : heap) (this : addr) :
  (forall de,
     RRDocument_documentElement h this = Some de <->
     exists l1 l2, children_of h this = l1 ++ (de :: l2)
       /\ is_element_tagged h "html" de = true
       /\ Forall (fun y => is_element_tagged h "html" y <> true) l1)
  /\ (RRDocument_documentElement h this = None <->
      Forall (fun y => is_element_tagged h "html" y <> true) (children_of h this))
  /\ (RRDocument_documentElement h this = None ->
      RRDocument_body h this = None /\ RRDocument_head h this = None)
  /\ (forall de b,
        RRDocument_documentElement h this = Some de ->
        (RRDocument_body h this = Some b <->
         exists l1 l2, children_of h de = l1 ++ (b :: l2)
           /\ is_element_tagged h "body" b = true
           /\ Forall (fun y => is_element_tagged h "body" y <> true) l1)
        /\ (RRDocument_head h this = Some b <->
            exists l1 l2, children_of h de = l1 ++ (b :: l2)
              /\ is_element_tagged h "head" b = true
              /\ Forall (fun y => is_element_tagged h "head" y <> true) l1)).
Proof.
  split; [|split; [|split]].
  - intros de.
    apply (head_filter_Some (fun node => is_element_tagged h "html" node = true)).
  - apply (head_filter_None (fun node => is_element_tagged h "html" node = true)).
  - intros Hnone. unfold RRDocument_body, RRDocument_head. by rewrite Hnone.
  - intros de b Hde. unfold RRDocument_body, RRDocument_head. rewrite Hde. split.
    + apply (head_filter_Some (fun node => is_element_tagged h "body" node = true)).
    + apply (head_filter_Some (fun node => is_element_tagged h "head" node = true)).
Qed.

Lemma appended_tagged (h : heap) (this childNode a : addr) (tag : string) :
  is_element_tagged (appended h this childNode) tag a = is_element_tagged h tag a.
Proof.
  unfold is_element_tagged, appended.
  destruct (decide (this = a)) as [Ha1|Ha1];
    destruct (decide (childNode = a)) as [Ha2|Ha2];
    try (rewrite <- Ha1 in * ); try (rewrite <- Ha2 in * ); alter_lookup;
    try done.
  all: repeat match goal with |- context [@lookup _ _ _ _ ?x ?m] => destruct (m !! x) end; done.
Qed.

Lemma is_element_tagged_nodeType (h : heap) (tag : string) (a : addr) :
  is_element_tagged h tag a = true -> nodeType_of h a = Some Element.
Proof.
  unfold is_element_tagged, nodeType_of, nodeType.
  destruct (h !! a) as [n|]; [|done]. simpl. by destruct (cls n).
Qed.

(** X5. When [appendChild] on a document accepts an element tagged
    [html], that element is the document's [documentElement] from then
    on: the root test has made sure no other element precedes it. *)
Theorem appendChild_html_documentElement
    (h h' : heap) (this childNode a : addr) (d c : RRNode) (e : ElementData) :
  h !! this = Some d ->
  nodeType d = Document ->
  h !! childNode = Some c ->
  cls c = CElement e ->
  tagName e = "html" ->
  appendChild this childNode h = Ok a h' ->
  RRDocument_documentElement h' this = Some childNode.
Proof.
  intros Hd Hk Hc Hcls Htag Hrun.
  rewrite (appendChild_run h this childNode d c) in Hrun by auto.
  unfold nodeType in Hk. destruct (cls d) eqn:Ed; try discriminate.
  destruct (duplicate_root h d c) eqn:Hdup; [discriminate|].
  injection Hrun as <- <-.
  apply (head_filter_Some (fun node =>
           is_element_tagged (appended h this childNode) "html" node = true)).
  exists (children d), []. split; [by apply appended_children|]. split.
  - rewrite appended_tagged. unfold is_element_tagged. rewrite Hc, Hcls.
    by apply bool_decide_eq_true_2.
  - apply Forall_forall. intros y Hy Htagged. rewrite appended_tagged in Htagged.
    apply is_element_tagged_nodeType in Htagged.
    assert (duplicate_root h d c = true); [|congruence].
    apply duplicate_root_true. left. split; [|eauto].
    unfold nodeType. by rewrite Hcls.
Qed.

Lemma appendChild_html_documentElement_witness :
  RRDocument_documentElement empty_document_store 1%positive = None
  /\ exists h', appendChild 1%positive 2%positive empty_document_store
                = Ok 2%positive h'
       /\ RRDocument_documentElement h' 1%positive = Some 2%positive.
Proof.
  split; [reflexivity|].
  assert (E : exists h', appendChild 1%positive 2%positive empty_document_store
                         = Ok 2%positive h') by (eexists; vm_compute; reflexivity).
  destruct E as [h' E]. exists h'. split; [exact E|].
  apply (appendChild_html_documentElement empty_document_store h' 1%positive
           2%positive 2%positive (new_node (CDocument ∅))
           (new_element "html" PlainElement)
           (mkElement "html" ∅ 0 0 None PlainElement));
    [reflexivity | reflexivity | reflexivity | reflexivity | reflexivity | exact E].
Defined.

(** ** Factory methods *)

Lemma alloc_fresh (h : heap) (n : RRNode) :
  exists a, alloc n h = Ok a (<[a := n]> h) /\ h !! a = None.
Proof.
  exists (fresh (dom h)). split; [reflexivity|].
  apply not_elem_of_dom. apply is_fresh.
Qed.

Lemma lower_ascii_idemp (c : Ascii.ascii) :
  lower_ascii (lower_ascii c) = lower_ascii c.
Proof. destruct c as [[] [] [] [] [] [] [] []]; reflexivity. Qed.

Lemma toLowerCase_idemp (s : string) : toLowerCase (toLowerCase s) = toLowerCase s.
Proof. induction s as [|c s IH]; simpl; [done|]. by rewrite lower_ascii_idemp, IH. Qed.

(** X6. [createElement] never touches an existing object: it returns a
    new, detached element (no children, no parent, no attributes, no
    shadow root).  For a tag made of ASCII characters, the [tagName] of
    the element is the lower-cased argument and its class follows the
    lower-cased tag: media for [audio] and [video], image for [img],
    plain otherwise; for [iframe] the element owns a second new object,
    an empty document with its own empty mirror; and the call depends
    on the tag only through its lower-case form. *)
Theorem createElement_detached (h : heap) (this : addr) (tag : string) :
  exists a h' e,
    RRDocument_createElement this tag h = Ok a h'
    /\ h !! a = None
    /\ h ⊆ h'
    /\ h' !! a = Some (new_node (CElement e))
    /\ attributes e = ∅
    /\ shadowRoot e = None
    /\ (ascii_only tag = true ->
        tagName e = toLowerCase tag
        /\ (toLowerCase tag <> "iframe" -> eclass e = simple_class (toLowerCase tag))
        /\ (toLowerCase tag = "iframe" ->
              exists contentDocument,
                eclass e = IframeElement "" "" "" contentDocument (mkWindow 0 0)
                /\ contentDocument <> a
                /\ h !! contentDocument = None
                /\ h' !! contentDocument = Some (new_node (CDocument ∅)))
        /\ RRDocument_createElement this (toLowerCase tag) h
           = RRDocument_createElement this tag h).
Proof.
  assert (Hidem : RRDocument_createElement this (toLowerCase tag) h
                  = RRDocument_createElement this tag h).
  { unfold RRDocument_createElement; by rewrite toLowerCase_idemp. }
  revert Hidem. generalize (RRDocument_createElement this (toLowerCase tag) h).
  intros o.
  unfold RRDocument_createElement, simple_class.
  destruct (decide (toLowerCase tag = "audio" \/ toLowerCase tag = "video")) as [Hm|Hm].
  { destruct (alloc_fresh h (new_element (toLowerCase tag) (MediaElement 0 true)))
      as (a & -> & Ha). intros Hidem.
    exists a. do 2 eexists. split; [reflexivity|]. split; [done|].
    split; [by apply insert_subseteq|]. rewrite lookup_insert_eq.
    split; [reflexivity|]. repeat split; try done.
    intros Hif. destruct Hm as [Hm|Hm]; rewrite Hm in Hif; discriminate. }
  destruct (decide (toLowerCase tag = "iframe")) as [Hi|Hi].
  { unfold bind.
    destruct (alloc_fresh h (new_node (CDocument ∅))) as (cd & -> & Hcd).
    destruct (alloc_fresh (<[cd := new_node (CDocument ∅)]> h)
                (new_element (toLowerCase tag)
                   (IframeElement "" "" "" cd (mkWindow 0 0)))) as (a & -> & Ha).
    intros Hidem.
    assert (Hne : cd <> a).
    { intros <-. by rewrite lookup_insert_eq in Ha. }
    rewrite lookup_insert_ne in Ha by done.
    exists a. do 2 eexists. split; [reflexivity|]. split; [done|]. split.
    { etrans; [apply (insert_subseteq h cd); done|].
      apply insert_subseteq. by rewrite lookup_insert_ne. }
    rewrite lookup_insert_eq. split; [reflexivity|]. repeat split; try done.
    intros _. exists cd. split; [done|]. split; [done|]. split; [done|].
    rewrite lookup_insert_ne by congruence. by rewrite lookup_insert_eq. }
  destruct (decide (toLowerCase tag = "img")) as [Himg|Himg].
  { destruct (alloc_fresh h (new_element "img" (ImageElement None None None)))
      as (a & -> & Ha). intros Hidem.
    exists a. do 2 eexists. split; [reflexivity|]. split; [done|].
    split; [by apply insert_subseteq|]. rewrite lookup_insert_eq.
    split; [reflexivity|]. repeat split; try done. }
  destruct (alloc_fresh h (new_element (toLowerCase tag) PlainElement))
    as (a & -> & Ha). intros Hidem.
  exists a. do 2 eexists. split; [reflexivity|]. split; [done|].
  split; [by apply insert_subseteq|]. rewrite lookup_insert_eq.
  split; [reflexivity|]. repeat split; try done.
Qed.

Lemma createElement_detached_witness :
  exists a h' e contentDocument,
    RRDocument_createElement 1%positive "IFrame" sample_store = Ok a h'
    /\ h' !! a = Some (new_node (CElement e))
    /\ tagName e = "iframe"
    /\ eclass e = IframeElement "" "" "" contentDocument (mkWindow 0 0)
    /\ h' !! contentDocument = Some (new_node (CDocument ∅)).
Proof.
  destruct (createElement_detached sample_store 1%positive "IFrame")
    as (a & h' & e & Hrun & _ & _ & Ha & _ & _ & Hascii).
  destruct (Hascii eq_refl) as (Htag & _ & Hif & _).
  destruct (Hif eq_refl) as (cd & Hec & _ & _ & Hcd).
  exists a, h', e, cd. split; [exact Hrun|]. split; [exact Ha|].
  split; [exact Htag|]. split; [exact Hec | exact Hcd].
Defined.

(** The other factory methods ([createDocument],
    [createDocumentType], [createComment], [createCDATASection],
    [createTextNode]) each return a new object of their class, detached
    and without children, and leave every existing object, the calling
    document included, as it was. *)
Theorem factory_methods_detached (h : heap) (this : addr) :
  (exists a, RRDocument_createDocument this h
             = Ok a (<[a := new_node (CDocument ∅)]> h) /\ h !! a = None)
  /\ (forall qualifiedName publicId systemId,
        exists a, RRDocument_createDocumentType this qualifiedName publicId systemId h
                  = Ok a (<[a := new_node (CDocumentType qualifiedName publicId systemId)]> h)
                  /\ h !! a = None)
  /\ (forall data,
        exists a, RRDocument_createComment this data h
                  = Ok a (<[a := new_node (CComment data)]> h) /\ h !! a = None)
  /\ (forall data,
        exists a, RRDocument_createCDATASection this data h
                  = Ok a (<[a := new_node (CCDATASection data)]> h) /\ h !! a = None)
  /\ (forall data,
        exists a, RRDocument_createTextNode this data h
                  = Ok a (<[a := new_node (CText data)]> h) /\ h !! a = None).
Proof.
  repeat split; intros; apply alloc_fresh.
Qed.

Lemma alloc_then_append (h : heap) (this : addr) (d : RRNode) (k : NodeClass) :
  h !! this = Some d ->
  nodeType d = Document ->
  nodeType (new_node k) <> Element ->
  nodeType (new_node k) <> DocumentType ->
  exists a h1 h2,
    alloc (new_node k) h = Ok a h1
    /\ h !! a = None
    /\ appendChild this a h1 = Ok a h2
    /\ children_of h2 this = children d ++ [a]
    /\ parentNode_of h2 a = Some this
    /\ parentElement_of h2 a = None
    /\ (forall b, b <> this -> b <> a -> h2 !! b = h !! b).
Proof.
  intros Hd Hk Hne1 Hne2.
  destruct (alloc_fresh h (new_node k)) as (a & Halloc & Ha).
  assert (Hta : this <> a) by congruence.
  set (h1 := <[a := new_node k]> h).
  assert (Hd1 : h1 !! this = Some d) by (subst h1; by rewrite lookup_insert_ne).
  assert (Ha1 : h1 !! a = Some (new_node k)) by (subst h1; by rewrite lookup_insert_eq).
  assert (Hrun : appendChild this a h1 = Ok a (appended h1 this a)).
  { rewrite (appendChild_run h1 this a d (new_node k)) by auto.
    unfold nodeType in Hk. destruct (cls d); try discriminate.
    unfold duplicate_root. rewrite bool_decide_eq_false_2; [done|]. tauto. }
  exists a, h1, (appended h1 this a). split; [exact Halloc|]. split; [done|].
  split; [exact Hrun|]. split; [by apply appended_children|].
  destruct (appended_parent h1 this a (new_node k) Ha1) as [Hp1 Hp2].
  split; [done|]. split; [done|].
  intros b Hb1 Hb2. unfold appended. alter_lookup. subst h1.
  by rewrite lookup_insert_ne.
Qed.

(** X7. A Text, Comment or CDATASection node fresh from its factory
    can always be appended to the document that made it: the call
    returns, the node becomes the last child with the document as its
    [parentNode], and no other object changes, whatever the document
    already holds.  The same holds for a document made by
    [createDocument]: the root test looks at Element and DocumentType
    children only. *)
Theorem created_leaf_appendable (h : heap) (this : addr) (d : RRNode) :
  h !! this = Some d ->
  nodeType d = Document ->
  let accepted (create : M heap addr) :=
    exists a h1 h2,
      create h = Ok a h1
      /\ h !! a = None
      /\ appendChild this a h1 = Ok a h2
      /\ children_of h2 this = children d ++ [a]
      /\ parentNode_of h2 a = Some this
      /\ parentElement_of h2 a = None
      /\ (forall b, b <> this -> b <> a -> h2 !! b = h !! b) in
  (forall data, accepted (RRDocument_createTextNode this data))
  /\ (forall data, accepted (RRDocument_createComment this data))
  /\ (forall data, accepted (RRDocument_createCDATASection this data))
  /\ accepted (RRDocument_createDocument this).
Proof.
  intros Hd Hk accepted. subst accepted. simpl.
  repeat split; try intros data; by apply alloc_then_append.
Qed.

Lemma created_leaf_appendable_witness :
  exists a h1 h2,
    RRDocument_createTextNode 1%positive "hi" sample_store = Ok a h1
    /\ appendChild 1%positive a h1 = Ok a h2
    /\ children_of h2 1%positive = [5%positive; 2%positive; a].
Proof.
  destruct (created_leaf_appendable sample_store 1%positive
              (mkNode None [5; 2]%positive None None (CDocument ∅)))
    as (Htext & _); [reflexivity | reflexivity |].
  destruct (Htext "hi") as (a & h1 & h2 & Hc & _ & Happ & Hch & _).
  exists a, h1, h2. split; [exact Hc|]. split; [exact Happ | exact Hch].
Defined.

(** ** Attributes *)

Lemma set_attribute_lookup (n : RRNode) (e : ElementData) (k : string) (v : AttrVal) :
  cls n = CElement e ->
  cls (set_attribute k v n) = CElement (set_attributes (prop_set k v (attributes e)) e).
Proof. intros H. unfold set_attribute. by rewrite H. Qed.

Lemma set_cls_id (n : RRNode) (e : ElementData) :
  cls n = CElement e ->
  set_cls (CElement (set_attributes (attributes e) e)) n = n.
Proof. intros H. destruct n, e. simpl in *. by subst. Qed.

Lemma set_attribute_proto (n : RRNode) (v : AttrVal) :
  set_attribute "__proto__" v n = n.
Proof.
  unfold set_attribute. destruct (cls n) eqn:Hcls; try done.
  rewrite prop_set_proto. by apply set_cls_id.
Qed.

(** X8. [setAttribute(name, value)] on an element never raises.  For
    every name but [__proto__] the attribute then reads back as that
    string under [name].  The name [__proto__] is the one key that the
    plain object [attributes] does not take as a property: there the
    call changes nothing at all.  In both cases every other attribute,
    the element's children and parents, and every other object are
    unchanged.  [setAttributeNS] does the same whatever the
    namespace. *)
Theorem setAttribute_lookup
    (h : heap) (this : addr) (n : RRNode) (e : ElementData) (name value : string) :
  h !! this = Some n ->
  cls n = CElement e ->
  exists h',
    RRElement_setAttribute this name value h = Ok tt h'
    /\ (forall ns, RRElement_setAttributeNS this ns name value h = Ok tt h')
    /\ (name <> "__proto__" -> attribute_of h' this name = Some (AStr value))
    /\ (name = "__proto__" -> h' = h)
    /\ (forall k, k <> name -> attribute_of h' this k = attribute_of h this k)
    /\ children_of h' this = children n
    /\ parentNode_of h' this = parentNode n
    /\ (forall b, b <> this -> h' !! b = h !! b).
Proof.
  intros Hn Hcls. exists (<[this := set_attribute name (AStr value) n]> h).
  assert (Hrun : RRElement_setAttribute this name value h
                 = Ok tt (<[this := set_attribute name (AStr value) n]> h)).
  { unfold RRElement_setAttribute, load_element. run. rewrite Hn, Hcls. simpl.
    by rewrite Hn. }
  split; [exact Hrun|]. split; [intros ns; exact Hrun|].
  split; [|split].
  { intros Hname. unfold attribute_of. rewrite lookup_insert_eq.
    rewrite (set_attribute_lookup n e) by done. simpl.
    by apply prop_set_lookup_eq. }
  { intros ->. rewrite set_attribute_proto. by apply insert_id. }
  unfold attribute_of, children_of, parentNode_of. rewrite !lookup_insert_eq.
  rewrite (set_attribute_lookup n e) by done. simpl. rewrite Hn, Hcls.
  split; [intros k Hk; by apply prop_set_lookup_ne|].
  unfold set_attribute. rewrite Hcls. simpl.
  split; [done|]. split; [done|]. intros b Hb. by rewrite lookup_insert_ne.
Qed.

Lemma setAttribute_lookup_witness :
  (exists h',
     RRElement_setAttribute 3%positive "id" "a" sample_store = Ok tt h'
     /\ attribute_of h' 3%positive "id" = Some (AStr "a")
     /\ attribute_of h' 3%positive "class" = None)
  /\ RRElement_setAttribute 3%positive "__proto__" "a" sample_store
     = Ok tt sample_store.
Proof.
  split.
  - destruct (setAttribute_lookup sample_store 3%positive
                (new_element "div" PlainElement)
                (mkElement "div" ∅ 0 0 None PlainElement) "id" "a")
      as (h' & Hrun & _ & Hget & _ & Hother & _); [reflexivity | reflexivity |].
    exists h'. split; [exact Hrun|]. split; [by apply Hget|].
    rewrite (Hother "class") by done. reflexivity.
  - destruct (setAttribute_lookup sample_store 3%positive
                (new_element "div" PlainElement)
                (mkElement "div" ∅ 0 0 None PlainElement) "__proto__" "a")
      as (h' & Hrun & _ & _ & Hsame & _); [reflexivity | reflexivity |].
    rewrite Hrun. f_equal. by apply Hsame.
Defined.

(** X9. [removeAttribute(name)] never raises on an element.  When the
    attribute is absent the store is unchanged; otherwise exactly that
    attribute disappears.  Removing an attribute that [setAttribute]
    has just added gives back the store as it was before both calls. *)
Theorem removeAttribute_spec
    (h : heap) (this : addr) (n : RRNode) (e : ElementData) (name : string) :
  h !! this = Some n ->
  cls n = CElement e ->
  (exists h',
     RRElement_removeAttribute this name h = Ok tt h'
     /\ attribute_of h' this name = None
     /\ (forall k, k <> name -> attribute_of h' this k = attribute_of h this k)
     /\ (forall b, b <> this -> h' !! b = h !! b)
     /\ (attributes e !! name = None -> h' = h))
  /\ (attributes e !! name = None ->
      forall value h1,
        RRElement_setAttribute this name value h = Ok tt h1 ->
        RRElement_removeAttribute this name h1 = Ok tt h).
Proof.
  intros Hn Hcls.
  assert (Hdel : forall (h0 : heap) n0 e0, h0 !! this = Some n0 -> cls n0 = CElement e0 ->
            RRElement_removeAttribute this name h0
            = Ok tt (<[this := delete_attribute name n0]> h0)).
  { intros h0 n0 e0 H0 Hc0. unfold RRElement_removeAttribute, load_element. run.
    rewrite H0, Hc0. simpl. by rewrite H0. }
  assert (Hgone : attributes e !! name = None -> delete_attribute name n = n).
  { intros Hnone. unfold delete_attribute. rewrite Hcls.
    rewrite delete_id by done. by apply set_cls_id. }
  split.
  - exists (<[this := delete_attribute name n]> h).
    split; [by apply (Hdel h n e)|].
    unfold attribute_of. rewrite !lookup_insert_eq. unfold delete_attribute.
    rewrite Hcls. simpl. rewrite Hn, Hcls.
    split; [by rewrite lookup_delete_eq|].
    split; [intros k Hk; by rewrite lookup_delete_ne|].
    split; [intros b Hb; by rewrite lookup_insert_ne|].
    intros Hnone. rewrite delete_id by done.
    rewrite (set_cls_id n e Hcls). by apply insert_id.
  - intros Hnone value h1 Hset.
    unfold RRElement_setAttribute, load_element in Hset. revert Hset. run.
    rewrite Hn, Hcls. simpl. rewrite Hn. intros [= <-].
    destruct (decide (name = "__proto__")) as [Hp|Hp].
    { rewrite Hp, set_attribute_proto, <- Hp. rewrite (insert_id h this n Hn).
      rewrite (Hdel h n e Hn Hcls). f_equal. rewrite Hgone by done.
      by apply insert_id. }
    rewrite (Hdel _ (set_attribute name (AStr value) n)
               (set_attributes (prop_set name (AStr value) (attributes e)) e));
      [|by rewrite lookup_insert_eq | by apply set_attribute_lookup].
    f_equal. rewrite insert_insert_eq. unfold delete_attribute.
    rewrite (set_attribute_lookup n e) by done. simpl.
    rewrite prop_set_insert by done.
    rewrite delete_insert_eq, delete_id by done.
    unfold set_attribute. rewrite Hcls.
    replace (set_cls _ (set_cls _ n)) with n; [by apply insert_id|].
    destruct n, e. simpl in *. by subst.
Qed.

Lemma removeAttribute_spec_witness :
  RRElement_removeAttribute 3%positive "id" sample_store = Ok tt sample_store
  /\ forall h1, RRElement_setAttribute 3%positive "id" "a" sample_store = Ok tt h1 ->
                RRElement_removeAttribute 3%positive "id" h1 = Ok tt sample_store.
Proof.
  destruct (removeAttribute_spec sample_store 3%positive
              (new_element "div" PlainElement)
              (mkElement "div" ∅ 0 0 None PlainElement) "id")
    as [(h' & Hrun & _ & _ & _ & Hsame) Hundo]; [reflexivity | reflexivity |].
  split.
  - rewrite Hrun. f_equal. by apply Hsame.
  - intros h1. by apply Hundo.
Defined.

(** ** Style projection: what setProperty leaves alone *)

(** X10. [style.setProperty(name, value)] changes at most one key of
    the view, the normalised name: every other key of the view reads as
    before.  After a falsy value ([null] or the empty text) the view
    has no property under that key.  After any other value the key
    holds that value, unless the key is [__proto__], which a plain
    object does not take as a property: then the view is left as it
    was.  Of the element only the [style] attribute is rewritten; no
    other object changes. *)
Theorem style_setProperty_frame
    (parseCSSText : AttrVal -> list (string * string))
    (toCSSText : list (string * StyleVal) -> string)
    (camelize : string -> string)
    (h : heap) (this : addr) (n : RRNode) (e : ElementData)
    (name : string) (value : option string) :
  h !! this = Some n ->
  cls n = CElement e ->
  exists style' h',
    RRElement_style_setProperty parseCSSText toCSSText camelize this name value h
    = Ok style' h'
    /\ (forall k, k <> camelize name ->
          obj_get k style' = obj_get k (style_view parseCSSText e))
    /\ (value = None \/ value = Some "" -> obj_get (camelize name) style' = None)
    /\ (forall v, value = Some v -> v <> "" -> camelize name <> "__proto__" ->
          obj_get (camelize name) style' = Some (SStr v))
    /\ (forall v, value = Some v -> v <> "" -> camelize name = "__proto__" ->
          style' = style_view parseCSSText e)
    /\ (forall k, k <> "style" -> attribute_of h' this k = attribute_of h this k)
    /\ children_of h' this = children n
    /\ (forall b, b <> this -> h' !! b = h !! b).
Proof.
  intros Hn Hcls. do 2 eexists.
  split; [by apply (style_setProperty_run _ _ _ h this n e)|]. simpl.
  split; [|split; [|split; [|split; [|split; [|split]]]]].
  - intros k Hk. destruct (falsy value).
    + by rewrite obj_get_delete_ne.
    + by rewrite obj_get_set_ne.
  - intros Hv. assert (Hf : falsy value = true) by (by destruct Hv as [-> | ->]).
    rewrite Hf. apply obj_get_delete_eq.
  - intros v -> Hv Hk. simpl. rewrite (proj2 (String.eqb_neq v "")) by done.
    by apply obj_get_set_eq.
  - intros v -> Hv Hk. simpl. rewrite (proj2 (String.eqb_neq v "")) by done.
    rewrite Hk. apply obj_set_proto.
  - intros k Hk. unfold attribute_of. rewrite lookup_insert_eq.
    rewrite (set_attribute_lookup n e) by done. simpl. rewrite Hn, Hcls.
    by apply prop_set_lookup_ne.
  - unfold children_of. rewrite lookup_insert_eq. unfold set_attribute.
    by rewrite Hcls.
  - intros b Hb. by rewrite lookup_insert_ne.
Qed.

Lemma style_setProperty_frame_witness :
  (exists style' h',
     RRElement_style_setProperty sample_parseCSSText sample_toCSSText sample_camelize
       3%positive "background-color" None sample_store = Ok style' h'
     /\ obj_get "backgroundColor" style' = None
     /\ obj_get "setProperty" style' = Some SSetProperty)
  /\ (exists style' h',
        RRElement_style_setProperty sample_parseCSSText sample_toCSSText
          sample_camelize 3%positive "color" (Some "green") styled_store
        = Ok style' h'
        /\ obj_get "color" style' = Some (SStr "green")
        /\ obj_get "backgroundColor" style' = Some (SStr "red")).
Proof.
  split.
  - destruct (style_setProperty_frame sample_parseCSSText sample_toCSSText
                sample_camelize sample_store 3%positive
                (new_element "div" PlainElement)
                (mkElement "div" ∅ 0 0 None PlainElement) "background-color" None)
      as (style' & h' & Hrun & Hother & Hgone & _); [reflexivity | reflexivity |].
    exists style', h'. split; [exact Hrun|]. split; [apply Hgone; by left|].
    rewrite (Hother "setProperty") by done. reflexivity.
  - destruct (style_setProperty_frame sample_parseCSSText sample_toCSSText
                sample_camelize styled_store 3%positive
                (new_node (CElement styled_element)) styled_element
                "color" (Some "green"))
      as (style' & h' & Hrun & Hother & _ & Hset & _); [reflexivity | reflexivity |].
    exists style', h'. split; [exact Hrun|].
    split; [by apply (Hset "green")|].
    rewrite (Hother "backgroundColor") by done. reflexivity.
Defined.

(** ** RRWindow *)

(** X11. [scrollTo] sets each coordinate that [options] gives as a
    number and keeps the other one; without [options] the window is
    unchanged.  So repeating a call changes nothing more, and of two
    calls in a row the later one decides every coordinate it gives. *)
Theorem RRWindow_scrollTo_spec (w : RRWindow) :
  RRWindow_scrollTo w None = w
  /\ (forall o,
        w_scrollLeft (RRWindow_scrollTo w (Some o))
          = default (w_scrollLeft w) (opt_left o)
        /\ w_scrollTop (RRWindow_scrollTo w (Some o))
           = default (w_scrollTop w) (opt_top o))
  /\ (forall o, RRWindow_scrollTo (RRWindow_scrollTo w o) o = RRWindow_scrollTo w o)
  /\ (forall o1 o2,
        RRWindow_scrollTo (RRWindow_scrollTo w (Some o1)) (Some o2)
        = RRWindow_scrollTo w
            (Some (mkScrollTo (from_option Some (opt_left o1) (opt_left o2))
                              (from_option Some (opt_top o1) (opt_top o2))))).
Proof.
  destruct w as [x y]. split; [done|]. split; [|split].
  - intros [[l|] [t|]]; done.
  - intros [[[l|] [t|]]|]; done.
  - intros [[l1|] [t1|]] [[l2|] [t2|]]; done.
Qed.

(** ** getElementsByTagName *)

Lemma collect_child_None (h : heap) (recur : addr -> option (list addr))
    (l : list addr) :
  foldl (collect_child h recur) None l = None.
Proof. induction l; simpl; done. Qed.

Lemma collect_child_spec (h : heap) (recur : addr -> option (list addr))
    (Q : addr -> addr -> Prop) (cs : list addr) :
  (forall c lc, c ∈ cs -> recur c = Some lc -> forall a, a ∈ lc <-> Q c a) ->
  forall acc l,
    foldl (collect_child h recur) (Some acc) cs = Some l ->
    forall a, a ∈ l <->
              a ∈ acc \/ exists c, c ∈ cs /\ isRRElement_at h c = true /\ Q c a.
Proof.
  induction cs as [|c cs IH]; intros Hrec acc l Hfold a; simpl in Hfold.
  - injection Hfold as <-. split; [auto|]. intros [?|(c & Hc & _)]; [done|].
    by apply elem_of_nil in Hc.
  - assert (Hrec' : forall c' lc, c' ∈ cs -> recur c' = Some lc ->
                                  forall a, a ∈ lc <-> Q c' a).
    { intros c' lc Hc'. apply Hrec. by right. }
    destruct (isRRElement_at h c) eqn:Hel.
    + destruct (recur c) as [found|] eqn:Hr.
      * rewrite (IH Hrec' _ _ Hfold a). rewrite elem_of_app.
        rewrite (Hrec c found (list_elem_of_here _ _) Hr a). split.
        -- intros [[?|?]|(c' & Hc' & ?)]; [auto | right | right].
           ++ exists c. split; [left | done].
           ++ exists c'. split; [by right | done].
        -- intros [?|(c' & Hc' & Hel' & HQ)]; [auto|].
           apply elem_of_cons in Hc' as [->|Hc']; [auto|].
           right. eauto.
      * by rewrite collect_child_None in Hfold.
    + rewrite (IH Hrec' _ _ Hfold a). split.
      * intros [?|(c' & Hc' & ?)]; [auto|]. right. exists c'. split; [by right | done].
      * intros [?|(c' & Hc' & Hel' & HQ)]; [auto|].
        apply elem_of_cons in Hc' as [->|Hc']; [congruence|]. right. eauto.
Qed.

Lemma element_descendant_inv (h : heap) (this a : addr) :
  element_descendant h this a <->
  a = this
  \/ exists c, c ∈ children_of h this /\ isRRElement_at h c = true
               /\ element_descendant h c a.
Proof.
  split.
  - intros H. inversion H; subst; [auto|]. right. eauto.
  - intros [->|(c & Hc & Hel & Hd)]; [constructor|]. by eapply ed_step.
Qed.

(** X12. Whenever [getElementsByTagName(tag)] returns, its result holds
    exactly the elements tagged [tag] among the receiver and the nodes
    below it that are reached through element children only.  A
    document is never in its own result, and nothing below a child that
    is not an element is ever found. *)
Theorem getElementsByTagName_spec
    (fuel : nat) (h : heap) (this : addr) (tag : string) (l : list addr) :
  getElementsByTagName fuel h this tag = Some l ->
  forall a, a ∈ l <->
            element_descendant h this a /\ is_element_tagged h tag a = true.
Proof.
  revert this l. induction fuel as [|fuel IH]; intros this l Hrun a; [done|].
  simpl in Hrun.
  rewrite (collect_child_spec h _
             (fun c a => element_descendant h c a /\ is_element_tagged h tag a = true)
             (children_of h this) (fun c lc _ Hc => IH c lc Hc) _ _ Hrun a).
  rewrite (element_descendant_inv h this a). split.
  - intros [Hself|(c & Hc & Hel & Hd & Htag)].
    + destruct (is_element_tagged h tag this) eqn:E.
      * apply list_elem_of_singleton in Hself as ->. auto.
      * by apply elem_of_nil in Hself.
    + split; [|done]. right. eauto.
  - intros [[->|(c & Hc & Hel & Hd)] Htag].
    + left. rewrite Htag. by left.
    + right. eauto.
Qed.

Lemma getElementsByTagName_spec_witness :
  getElementsByTagName 6 tree_store 1%positive "div" = Some [5; 9; 7]%positive
  /\ forall a, a ∈ [5; 9; 7]%positive <->
               element_descendant tree_store 1%positive a
               /\ is_element_tagged tree_store "div" a = true.
Proof.
  split; [reflexivity|].
  apply (getElementsByTagName_spec 6 tree_store 1%positive "div"). reflexivity.
Defined.

Lemma collect_child_mono (h : heap) (r1 r2 : addr -> option (list addr))
    (cs : list addr) :
  (forall c lc, c ∈ cs -> r1 c = Some lc -> r2 c = Some lc) ->
  forall acc l,
    foldl (collect_child h r1) acc cs = Some l ->
    foldl (collect_child h r2) acc cs = Some l.
Proof.
  induction cs as [|c cs IH]; intros Hr acc l Hfold; simpl in *; [done|].
  assert (Hr' : forall c' lc, c' ∈ cs -> r1 c' = Some lc -> r2 c' = Some lc).
  { intros c' lc Hc'. apply Hr. by right. }
  destruct acc as [acc|]; simpl in *; [|by rewrite collect_child_None in Hfold].
  destruct (isRRElement_at h c); [|by apply IH].
  destruct (r1 c) as [found|] eqn:E; [|by rewrite collect_child_None in Hfold].
  rewrite (Hr c found (list_elem_of_here _ _) E). by apply IH.
Qed.

Lemma getElementsByTagName_S (fuel : nat) (h : heap) (this : addr) (tag : string)
    (l : list addr) :
  getElementsByTagName fuel h this tag = Some l ->
  getElementsByTagName (S fuel) h this tag = Some l.
Proof.
  revert this l. induction fuel as [|fuel IH]; intros this l Hrun; [done|].
  simpl in Hrun. change (getElementsByTagName (S (S fuel)) h this tag)
    with (foldl (collect_child h (fun c => getElementsByTagName (S fuel) h c tag))
            (Some (if is_element_tagged h tag this then [this] else []))
            (children_of h this)).
  eapply collect_child_mono; [|exact Hrun]. intros c lc _. apply IH.
Qed.

Lemma collect_child_total (h : heap) (recur : addr -> option (list addr))
    (cs : list addr) :
  (forall c, c ∈ cs -> isRRElement_at h c = true -> is_Some (recur c)) ->
  forall acc, is_Some (foldl (collect_child h recur) (Some acc) cs).
Proof.
  induction cs as [|c cs IH]; intros Hr acc; simpl; [eauto|].
  assert (Hr' : forall c', c' ∈ cs -> isRRElement_at h c' = true -> is_Some (recur c')).
  { intros c' Hc'. apply Hr. by right. }
  destruct (isRRElement_at h c) eqn:Hel; [|by apply IH].
  destruct (Hr c (list_elem_of_here _ _) Hel) as [found ->]. by apply IH.
Qed.

(** X13. [getElementsByTagName] returns on every receiver below which
    the chains of element children are bounded: with chains of at most
    [n] links, [n + 1] nested calls suffice, and allowing more nested
    calls never changes the result. *)
Theorem getElementsByTagName_terminates
    (n : nat) (h : heap) (this : addr) (tag : string) :
  height_le h n this ->
  exists l,
    getElementsByTagName (S n) h this tag = Some l
    /\ forall extra, getElementsByTagName (extra + S n) h this tag = Some l.
Proof.
  intros Hh.
  assert (Hsome : is_Some (getElementsByTagName (S n) h this tag)).
  { revert this Hh. induction n as [|n IH]; intros this Hh; simpl in *.
    - apply collect_child_total. intros c Hc Hel. rewrite (Hh c Hc) in Hel.
      discriminate.
    - apply collect_child_total. intros c Hc Hel. apply IH. by apply Hh. }
  destruct Hsome as [l Hl]. exists l. split; [exact Hl|].
  intros extra. induction extra as [|extra IHe]; [exact Hl|].
  by apply getElementsByTagName_S.
Qed.

Lemma getElementsByTagName_terminates_witness :
  exists l,
    getElementsByTagName 6 tree_store 1%positive "span" = Some l
    /\ forall extra, getElementsByTagName (extra + 6) tree_store 1%positive "span"
                     = Some l.
Proof.
  apply (getElementsByTagName_terminates 5 tree_store 1%positive "span").
  simpl. intros c1 H1 _ c2 H2 _ c3 H3 _ c4 H4 _ c5 H5 _ c6 H6.
  vm_compute in H1. apply list_elem_of_singleton in H1 as ->.
  vm_compute in H2.
  repeat (apply elem_of_cons in H2 as [->|H2]);
    try (by apply elem_of_nil in H2);
    vm_compute in H3;
    repeat (apply elem_of_cons in H3 as [->|H3]);
    try (by apply elem_of_nil in H3);
    vm_compute in H4;
    repeat (apply elem_of_cons in H4 as [->|H4]);
    try (by apply elem_of_nil in H4);
    vm_compute in H5;
    repeat (apply elem_of_cons in H5 as [->|H5]);
    try (by apply elem_of_nil in H5);
    vm_compute in H6;
    repeat (apply elem_of_cons in H6 as [->|H6]);
    try (by apply elem_of_nil in H6).
Defined.

(** ** buildFromDom: stamps and unrecognised nodes *)

(** X14. [buildFromDom] never replaces or removes a record that a live
    node already carries: every [__sn] present before the call is
    there, unchanged, after it, whether the call returns or raises. *)
Theorem buildFromDom_keeps_stamps
    (this : addr) (dom : option LNode) (st : DomState)
    (l : lid) (sn : serializedNodeWithId) :
  st_live_sn st !! l = Some sn ->
  st_live_sn (final (RRDocument_buildFromDom this dom st)) !! l = Some sn.
Proof.
  intros Hl. destruct (buildFromDom_extends this dom st) as (_ & _ & _ & _ & Hm & _).
  by apply Hm.
Qed.

Lemma buildFromDom_keeps_stamps_witness :
  st_live_sn (final (RRDocument_buildFromDom 1%positive (Some grown_dom) walked_state))
    !! 0%nat
  = Some (mkSN (Some Document) (Some "") (-1) None).
Proof.
  apply (buildFromDom_keeps_stamps 1%positive (Some grown_dom) walked_state).
  vm_compute. reflexivity.
Defined.

(** X15. When the root handed to [buildFromDom] is of a kind the walk
    does not recognise, the call returns after emptying the document
    (no children, empty mirror): no virtual node is created or changed,
    and none of the root's children is visited.  The root is still
    stamped: if it carried no record it now carries one with the
    generated id -1 and no type. *)
Theorem buildFromDom_unrecognised_root
    (this : addr) (st : DomState) (d : RRNode)
    (id : lid) (parent : option lid) (childNodes : list LNode) :
  st_heap st !! this = Some d ->
  nodeType d = Document ->
  exists st' v,
    RRDocument_buildFromDom this (Some (LN id parent LOther childNodes)) st
    = Ok tt st'
    /\ st_heap st' = <[this := set_cls (CDocument ∅) (set_children [] d)]> (st_heap st)
    /\ children_of (st_heap st') this = []
    /\ mirror_of (st_heap st') this = ∅
    /\ visits st' = visits st ++ [v]
    /\ v_node v = id
    /\ (st_live_sn st !! id = None ->
        st_live_sn st' = <[id := mkSN None (Some "") (-1) None]> (st_live_sn st))
    /\ (is_Some (st_live_sn st !! id) -> st_live_sn st' = st_live_sn st).
Proof.
  intros Hd Hk. unfold nodeType in Hk. destruct (cls d) eqn:Hcls; try discriminate.
  unfold RRDocument_buildFromDom. rewrite walk_unfold.
  unfold bind, modify, liftH, RRDocument_destroyTree, load_mirror, bind, load,
    update, ret, identify, resolve, mirror_has, load_mirror, bind, load, ret.
  simpl. rewrite Hd. simpl. rewrite lookup_insert_eq. simpl. rewrite Hcls. simpl.
  rewrite lookup_insert_eq, insert_insert_eq.
  cbn [st_heap st_live_sn notSerializedId visits].
  destruct (st_live_sn st !! id) as [sn|] eqn:Hsn;
    cbn [st_heap st_live_sn notSerializedId visits];
    rewrite lookup_insert_eq; cbn [cls set_cls]; rewrite lookup_empty; simpl;
    (do 2 eexists); (split; [reflexivity|]); simpl;
    (split; [reflexivity|]); unfold children_of, mirror_of;
    rewrite lookup_insert_eq; simpl; repeat split; try done;
    intros [? ?]; discriminate.
Qed.

Lemma buildFromDom_unrecognised_root_witness :
  exists st',
    RRDocument_buildFromDom 1%positive (Some (LN 7 None LOther [lone_dom]))
      (mkState sample_store ∅ 0 []) = Ok tt st'
    /\ children_of (st_heap st') 1%positive = []
    /\ length (visits st') = 1%nat.
Proof.
  destruct (buildFromDom_unrecognised_root 1%positive (mkState sample_store ∅ 0 [])
              (mkNode None [5; 2]%positive None None (CDocument ∅))
              7%nat None [lone_dom])
    as (st' & v & Hrun & _ & Hch & _ & Hv & _); [reflexivity | reflexivity |].
  exists st'. split; [exact Hrun|]. split; [exact Hch|]. by rewrite Hv.
Defined.

(** ** build_element: what is captured from a live element *)

Lemma returns_set_attribute (rr : addr) (Φ Φ' : gmap string AttrVal -> Prop)
    (k : string) (v : AttrVal) :
  (forall m, Φ m -> Φ' (prop_set k v m)) ->
  returns (element_with rr Φ) (update rr (set_attribute k v))
          (fun _ => element_with rr Φ').
Proof.
  intros Himp h [] h' (n & e & Hn & Hcls & HΦ) Hrun. unfold update in Hrun.
  rewrite Hn in Hrun. injection Hrun as <-.
  exists (set_attribute k v n), (set_attributes (prop_set k v (attributes e)) e).
  rewrite lookup_insert_eq. split; [done|].
  split; [by apply set_attribute_lookup | by apply Himp].
Qed.

Lemma returns_update_keep (rr : addr) (Φ : gmap string AttrVal -> Prop)
    (f : RRNode -> RRNode) :
  (forall n e, cls n = CElement e ->
     exists e', cls (f n) = CElement e' /\ attributes e' = attributes e) ->
  returns (element_with rr Φ) (update rr f) (fun _ => element_with rr Φ).
Proof.
  intros Hf h [] h' (n & e & Hn & Hcls & HΦ) Hrun. unfold update in Hrun.
  rewrite Hn in Hrun. injection Hrun as <-.
  destruct (Hf n e Hcls) as (e' & Hcls' & Hattr).
  exists (f n), e'. rewrite lookup_insert_eq, Hattr. done.
Qed.

Lemma set_media_keeps (p : bool) (t : Z) (n : RRNode) (e : ElementData) :
  cls n = CElement e ->
  exists e', cls (set_media p t n) = CElement e' /\ attributes e' = attributes e.
Proof.
  intros H. unfold set_media. rewrite H. destruct (eclass e); simpl; eauto.
Qed.

Lemma set_scrollLeft_keeps (v : Z) (n : RRNode) (e : ElementData) :
  cls n = CElement e ->
  exists e', cls (set_scrollLeft v n) = CElement e' /\ attributes e' = attributes e.
Proof. intros H. unfold set_scrollLeft. rewrite H. simpl. eauto. Qed.

Lemma set_scrollTop_keeps (v : Z) (n : RRNode) (e : ElementData) :
  cls n = CElement e ->
  exists e', cls (set_scrollTop v n) = CElement e' /\ attributes e' = attributes e.
Proof. intros H. unfold set_scrollTop. rewrite H. simpl. eauto. Qed.

Lemma copy_attributes_keeps (rr : addr) (k : string) (v : AttrVal)
    (l : list (string * string)) :
  k ∉ l.*1 ->
  returns (element_with rr (fun m => m !! k = Some v)) (copy_attributes rr l)
          (fun _ => element_with rr (fun m => m !! k = Some v)).
Proof.
  induction l as [|[k0 v0] l IH]; simpl; intros Hk.
  - by apply returns_ret.
  - apply not_elem_of_cons in Hk as [Hne Hk].
    eapply returns_bind; [|intros ?; by apply IH].
    apply returns_set_attribute. intros m Hm. by rewrite prop_set_lookup_ne.
Qed.

Lemma copy_attributes_sets (rr : addr) (k v : string) (l : list (string * string)) :
  NoDup l.*1 ->
  (k, v) ∈ l ->
  k <> "__proto__" ->
  returns (element_with rr (fun _ => True)) (copy_attributes rr l)
          (fun _ => element_with rr (fun m => m !! k = Some (AStr v))).
Proof.
  induction l as [|[k0 v0] l IH]; simpl; intros Hnd Hin Hproto.
  - by apply elem_of_nil in Hin.
  - apply NoDup_cons in Hnd as [Hk0 Hnd].
    apply elem_of_cons in Hin as [Heq|Hin].
    + injection Heq as Hk Hv. subst k0 v0.
      eapply returns_bind; [|intros ?; by apply copy_attributes_keeps].
      apply returns_set_attribute. intros m _. by apply prop_set_lookup_eq.
    + eapply returns_bind; [|intros ?; by apply IH].
      by apply returns_set_attribute.
Qed.

Lemma copy_attributes_no_proto (rr : addr) (l : list (string * string)) :
  returns (element_with rr (fun m => m !! "__proto__" = None)) (copy_attributes rr l)
          (fun _ => element_with rr (fun m => m !! "__proto__" = None)).
Proof.
  induction l as [|[k0 v0] l IH]; simpl.
  - by apply returns_ret.
  - eapply returns_bind; [|intros ?; exact IH].
    apply returns_set_attribute. intros m Hm. by rewrite prop_set_keeps_proto.
Qed.

Lemma copy_attributes_element (rr : addr) (l : list (string * string)) :
  returns (element_with rr (fun _ => True)) (copy_attributes rr l)
          (fun _ => element_with rr (fun _ => True)).
Proof.
  induction l as [|[k0 v0] l IH]; simpl.
  - by apply returns_ret.
  - eapply returns_bind; [|intros ?; exact IH]. by apply returns_set_attribute.
Qed.

Lemma createElement_new (h : heap) (this : addr) (tag : string) :
  exists a h1 ec,
    RRDocument_createElement this tag h = Ok a h1
    /\ h !! a = None
    /\ (h1 !! a = Some (new_element (toLowerCase tag) ec)
        \/ h1 !! a = Some (new_element "img" ec)).
Proof.
  unfold RRDocument_createElement.
  destruct (decide (toLowerCase tag = "audio" \/ toLowerCase tag = "video")).
  { destruct (alloc_fresh h (new_element (toLowerCase tag) (MediaElement 0 true)))
      as (a & -> & Ha).
    exists a. do 2 eexists. split; [reflexivity|]. split; [done|].
    left. by rewrite lookup_insert_eq. }
  destruct (decide (toLowerCase tag = "iframe")).
  { unfold bind.
    destruct (alloc_fresh h (new_node (CDocument ∅))) as (cd & -> & Hcd).
    destruct (alloc_fresh (<[cd := new_node (CDocument ∅)]> h)
                (new_element (toLowerCase tag)
                   (IframeElement "" "" "" cd (mkWindow 0 0)))) as (a & -> & Ha).
    assert (Hne : cd <> a) by (intros <-; by rewrite lookup_insert_eq in Ha).
    rewrite lookup_insert_ne in Ha by done.
    exists a. do 2 eexists. split; [reflexivity|]. split; [done|].
    left. by rewrite lookup_insert_eq. }
  destruct (decide (toLowerCase tag = "img")).
  { destruct (alloc_fresh h (new_element "img" (ImageElement None None None)))
      as (a & -> & Ha).
    exists a. do 2 eexists. split; [reflexivity|]. split; [done|].
    right. by rewrite lookup_insert_eq. }
  destruct (alloc_fresh h (new_element (toLowerCase tag) PlainElement))
    as (a & -> & Ha).
  exists a. do 2 eexists. split; [reflexivity|]. split; [done|].
  left. by rewrite lookup_insert_eq.
Qed.

Lemma build_element_unfold (this : addr) (elementNode : LiveElement) :
  build_element this elementNode
  = (let tagName := getValidTagName elementNode in
     let! rrNode := RRDocument_createElement this tagName in
     copy_attributes rrNode (le_attributes elementNode);;;
     capture_form rrNode elementNode tagName;;;
     capture_option rrNode elementNode tagName;;;
     capture_canvas rrNode elementNode tagName;;;
     capture_tail rrNode elementNode tagName).
Proof. reflexivity. Qed.

Lemma returns_get_same (P : heap -> Prop) : returns P get (fun _ => P).
Proof. by apply returns_get. Qed.

Lemma capture_form_keeps (rr : addr) (el : LiveElement) (tag : string)
    (Φ : gmap string AttrVal -> Prop) :
  (forall k v m, k ∈ captured_names -> Φ m -> Φ (<[k := v]> m)) ->
  returns (element_with rr Φ) (capture_form rr el tag) (fun _ => element_with rr Φ).
Proof.
  intros Hst. unfold capture_form.
  destruct (decide _); [|by apply returns_ret].
  eapply returns_bind; [apply returns_get_same|]. intros h0. simpl.
  destruct (_ && _).
  - apply returns_set_attribute. intros m. rewrite prop_set_insert by done.
    apply Hst. left.
  - destruct (le_checked el); [|by apply returns_ret].
    apply returns_set_attribute. intros m. rewrite prop_set_insert by done.
    apply Hst. right. left.
Qed.

Lemma capture_option_keeps (rr : addr) (el : LiveElement) (tag : string)
    (Φ : gmap string AttrVal -> Prop) :
  (forall k v m, k ∈ captured_names -> Φ m -> Φ (<[k := v]> m)) ->
  returns (element_with rr Φ) (capture_option rr el tag) (fun _ => element_with rr Φ).
Proof.
  intros Hst. unfold capture_option.
  destruct (decide _); [|by apply returns_ret].
  destruct (le_parentValue el); [|apply returns_throw].
  eapply returns_bind; [apply returns_get_same|]. intros h0. simpl.
  destruct (decide _); [|by apply returns_ret].
  apply returns_set_attribute. intros m. rewrite prop_set_insert by done.
  apply Hst. right. right. left.
Qed.

Lemma capture_canvas_keeps (rr : addr) (el : LiveElement) (tag : string)
    (Φ : gmap string AttrVal -> Prop) :
  (forall k v m, k ∈ captured_names -> Φ m -> Φ (<[k := v]> m)) ->
  returns (element_with rr Φ) (capture_canvas rr el tag) (fun _ => element_with rr Φ).
Proof.
  intros Hst. unfold capture_canvas.
  destruct (decide _); [|by apply returns_ret].
  apply returns_set_attribute. intros m. rewrite prop_set_insert by done.
  apply Hst. do 3 right. left.
Qed.

Lemma capture_canvas_sets (rr : addr) (el : LiveElement) :
  returns (element_with rr (fun _ => True)) (capture_canvas rr el "canvas")
    (fun _ => element_with rr
                (fun m => m !! "rr_dataURL" = Some (AStr (le_dataURL el)))).
Proof.
  unfold capture_canvas. rewrite decide_True by done.
  apply returns_set_attribute. intros m _. by apply prop_set_lookup_eq.
Qed.

Lemma capture_tail_keeps (rr : addr) (el : LiveElement) (tag : string)
    (Φ : gmap string AttrVal -> Prop) :
  returns (element_with rr Φ) (capture_tail rr el tag)
          (fun r h => r = rr /\ element_with rr Φ h).
Proof.
  unfold capture_tail.
  eapply (returns_bind _ (fun _ => element_with rr Φ)).
  { destruct (decide _); [|by apply returns_ret].
    apply returns_update_keep, set_media_keeps. }
  intros _. eapply (returns_bind _ (fun _ => element_with rr Φ)).
  { destruct (_ =? _); [by apply returns_ret|].
    apply returns_update_keep, set_scrollLeft_keeps. }
  intros _. eapply (returns_bind _ (fun _ => element_with rr Φ)).
  { destruct (_ =? _); [by apply returns_ret|].
    apply returns_update_keep, set_scrollTop_keeps. }
  intros _. by apply returns_ret.
Qed.

Lemma element_with_attribute (rr : addr) (k : string) (v : AttrVal) (h : heap) :
  element_with rr (fun m => m !! k = Some v) h -> attribute_of h rr k = Some v.
Proof.
  intros (n & e & Hn & Hcls & Hm). unfold attribute_of. by rewrite Hn, Hcls.
Qed.

(** X16. When the element branch of the walk returns, the node it
    returns is a new element, and every attribute of the live element
    (their names being distinct) is on it as a string under the same
    name, unless the name is one the walk itself writes ([value],
    [checked], [selected], [rr_dataURL]) or is [__proto__], the one
    name that the plain object [attributes] does not take as a
    property: the new element never has an attribute of that name.
    For a [canvas] the attribute [rr_dataURL] holds the data URL of the
    live canvas. *)
Theorem build_element_captures
    (this : addr) (el : LiveElement) (h h' : heap) (rr : addr) :
  build_element this el h = Ok rr h' ->
  h !! rr = None
  /\ nodeType_of h' rr = Some Element
  /\ (NoDup (le_attributes el).*1 ->
      forall k v, (k, v) ∈ le_attributes el -> k ∉ captured_names ->
                  k <> "__proto__" ->
                  attribute_of h' rr k = Some (AStr v))
  /\ attribute_of h' rr "__proto__" = None
  /\ (getValidTagName el = "canvas" ->
      attribute_of h' rr "rr_dataURL" = Some (AStr (le_dataURL el))).
Proof.
  rewrite build_element_unfold. cbv zeta. unfold bind at 1.
  destruct (createElement_new h this (getValidTagName el))
    as (a & h1 & ec & -> & Hfresh & Hnew).
  intros Hrun.
  assert (Hel : element_with a (fun _ => True) h1).
  { destruct Hnew as [Hnew|Hnew]; do 2 eexists; (split; [exact Hnew|]); done. }
  assert (Hel0 : element_with a (fun m => m !! "__proto__" = None) h1).
  { destruct Hnew as [Hnew|Hnew]; do 2 eexists; (split; [exact Hnew|]); done. }
  assert (Hall : forall (Pre : heap -> Prop) Φ,
            (forall k v m, k ∈ captured_names -> Φ m -> Φ (<[k := v]> m)) ->
            forall m0 : M heap unit,
              returns Pre m0 (fun _ => element_with a Φ) ->
              returns Pre
                (m0;;; capture_form a el (getValidTagName el);;;
                 capture_option a el (getValidTagName el);;;
                 capture_canvas a el (getValidTagName el);;;
                 capture_tail a el (getValidTagName el))
                (fun r s => r = a /\ element_with a Φ s)).
  { intros Pre Φ Hst m0 Hm0.
    eapply returns_bind; [exact Hm0|]. intros ?.
    eapply returns_bind; [by apply capture_form_keeps|]. intros ?.
    eapply returns_bind; [by apply capture_option_keeps|]. intros ?.
    eapply returns_bind; [by apply capture_canvas_keeps|]. intros ?.
    apply capture_tail_keeps. }
  assert (Hra : rr = a).
  { eapply (Hall _ (fun _ => True)); [done | apply copy_attributes_element | exact Hel
                                      | exact Hrun]. }
  subst a. split; [done|]. split; [|split; [|split]].
  - destruct (Hall _ (fun _ => True) ltac:(done) _ (copy_attributes_element rr _)
                _ _ _ Hel Hrun) as (_ & n & e & Hn & Hcls & _).
    unfold nodeType_of. rewrite Hn. simpl. unfold nodeType. by rewrite Hcls.
  - intros Hnd k v Hin Hk Hproto. apply element_with_attribute.
    eapply (Hall _ (fun m => m !! k = Some (AStr v)));
      [|by apply copy_attributes_sets | exact Hel | exact Hrun].
    intros k' v' m Hk' Hm. rewrite lookup_insert_ne; [done|]. by intros <-.
  - assert (Hst : forall (k' : string) (v' : AttrVal) (m : gmap string AttrVal),
              k' ∈ captured_names -> m !! "__proto__" = None ->
              <[k' := v']> m !! "__proto__" = None).
    { intros k' v' m Hk' Hm. rewrite lookup_insert_ne; [done|].
      intros ->. unfold captured_names in Hk'.
      repeat (apply elem_of_cons in Hk' as [Hk'|Hk']; [discriminate|]).
      by apply elem_of_nil in Hk'. }
    destruct (Hall _ (fun m => m !! "__proto__" = None) Hst _
                (copy_attributes_no_proto rr _) _ _ _ Hel0 Hrun)
      as (_ & n & e & Hn & Hcls & Hm).
    unfold attribute_of. by rewrite Hn, Hcls.
  - intros Htag. apply element_with_attribute. rewrite Htag in Hrun.
    assert (Hret : returns (element_with rr (fun _ => True))
              (copy_attributes rr (le_attributes el);;;
               capture_form rr el "canvas";;; capture_option rr el "canvas";;;
               capture_canvas rr el "canvas";;; capture_tail rr el "canvas")
              (fun r s => element_with rr
                 (fun m => m !! "rr_dataURL" = Some (AStr (le_dataURL el))) s)).
    { eapply returns_bind; [apply copy_attributes_element|]. intros ?.
      eapply returns_bind; [by apply capture_form_keeps|]. intros ?.
      eapply returns_bind; [by apply capture_option_keeps|]. intros ?.
      eapply returns_bind; [apply capture_canvas_sets|]. intros ?.
      intros s r s' Hs Hr. by eapply capture_tail_keeps. }
    eapply Hret; [exact Hel | exact Hrun].
Qed.

Lemma build_element_captures_witness :
  (exists rr h',
     build_element 1%positive sample_canvas sample_store = Ok rr h'
     /\ attribute_of h' rr "id" = Some (AStr "c")
     /\ attribute_of h' rr "width" = Some (AStr "300")
     /\ attribute_of h' rr "rr_dataURL" = Some (AStr "data:image/png;base64,AAAA"))
  /\ (exists rr h',
        build_element 1%positive sample_proto_div sample_store = Ok rr h'
        /\ attribute_of h' rr "id" = Some (AStr "c")
        /\ attribute_of h' rr "__proto__" = None).
Proof.
  assert (Hno : forall k, k = "id" \/ k = "width" -> k ∉ captured_names).
  { intros k Hk Hin. unfold captured_names in Hin.
    repeat (apply elem_of_cons in Hin as [->|Hin];
            [destruct Hk; discriminate|]).
    by apply elem_of_nil in Hin. }
  assert (Hnd : forall a b : string, a <> b -> NoDup [a; b]).
  { intros a b Hab. apply NoDup_cons. split; [|apply NoDup_singleton].
    intros H. by apply list_elem_of_singleton in H. }
  split.
  - assert (E : exists rr h', build_element 1%positive sample_canvas sample_store
                              = Ok rr h') by (do 2 eexists; vm_compute; reflexivity).
    destruct E as (rr & h' & E). exists rr, h'. split; [exact E|].
    destruct (build_element_captures 1%positive sample_canvas sample_store h' rr E)
      as (_ & _ & Hattr & _ & Hcanvas).
    specialize (Hattr (Hnd "id" "width" ltac:(discriminate))).
    split; [apply Hattr; [left | apply Hno; by left | discriminate]|].
    split; [apply Hattr; [right; left | apply Hno; by right | discriminate]|].
    apply Hcanvas. reflexivity.
  - assert (E : exists rr h', build_element 1%positive sample_proto_div sample_store
                              = Ok rr h') by (do 2 eexists; vm_compute; reflexivity).
    destruct E as (rr & h' & E). exists rr, h'. split; [exact E|].
    destruct (build_element_captures 1%positive sample_proto_div sample_store h' rr E)
      as (_ & _ & Hattr & Hproto & _).
    specialize (Hattr (Hnd "__proto__" "id" ltac:(discriminate))).
    split; [apply Hattr; [right; left | apply Hno; by left | discriminate]|].
    exact Hproto.
Defined.

Lemma capture_form_value (rr : addr) (el : LiveElement) (tag t v : string) :
  tag = "input" \/ tag = "textarea" \/ tag = "select" ->
  t ∈ ["radio"; "checkbox"; "submit"; "button"] ->
  le_value el = Some v ->
  v <> "" ->
  returns (element_with rr (fun m => m !! "type" = Some (AStr t)))
          (capture_form rr el tag)
          (fun _ => element_with rr (fun m => m !! "value" = Some (AStr v))).
Proof.
  intros Htag Ht Hv Hne h [] h' HP Hrun.
  unfold capture_form in Hrun. rewrite decide_True in Hrun by done.
  unfold bind, get in Hrun.
  rewrite (element_with_attribute rr "type" (AStr t) h HP) in Hrun.
  rewrite Hv in Hrun. simpl in Hrun.
  rewrite (proj2 (String.eqb_neq v "")) in Hrun by done.
  rewrite bool_decide_eq_true_2 in Hrun.
  - simpl in Hrun. eapply returns_set_attribute; [|exact HP|exact Hrun].
    intros m _. by apply prop_set_lookup_eq.
  - apply (list_elem_of_fmap_2 (fun s => Some (AStr s))) in Ht. exact Ht.
Qed.

(** X17. For a live [input], [textarea] or [select] whose [type]
    attribute is [radio], [checkbox], [submit] or [button] and whose
    current value is not empty, the element the walk builds carries
    that value as its [value] attribute, whatever [value] attribute the
    live element had. *)
Theorem build_element_form_value
    (this : addr) (el : LiveElement) (h h' : heap) (rr : addr) (t v : string) :
  getValidTagName el = "input" \/ getValidTagName el = "textarea"
    \/ getValidTagName el = "select" ->
  NoDup (le_attributes el).*1 ->
  ("type", t) ∈ le_attributes el ->
  t ∈ ["radio"; "checkbox"; "submit"; "button"] ->
  le_value el = Some v ->
  v <> "" ->
  build_element this el h = Ok rr h' ->
  attribute_of h' rr "value" = Some (AStr v).
Proof.
  intros Htag Hnd Hty Ht Hv Hne. rewrite build_element_unfold. cbv zeta.
  unfold bind at 1.
  destruct (createElement_new h this (getValidTagName el))
    as (a & h1 & ec & -> & Hfresh & Hnew).
  intros Hrun.
  assert (Hel : element_with a (fun _ => True) h1).
  { destruct Hnew as [Hnew|Hnew]; do 2 eexists; (split; [exact Hnew|]); done. }
  assert (Hnotopt : getValidTagName el <> "option")
    by (destruct Htag as [->|[->| ->]]; discriminate).
  assert (Hnotcv : getValidTagName el <> "canvas")
    by (destruct Htag as [->|[->| ->]]; discriminate).
  set (Φ := fun m : gmap string AttrVal => m !! "value" = Some (AStr v)).
  assert (Hret : returns (element_with a (fun _ => True))
            (copy_attributes a (le_attributes el);;;
             capture_form a el (getValidTagName el);;;
             capture_option a el (getValidTagName el);;;
             capture_canvas a el (getValidTagName el);;;
             capture_tail a el (getValidTagName el))
            (fun r s => r = a /\ element_with a Φ s)).
  { eapply returns_bind; [by apply (copy_attributes_sets a "type" t)|]. intros ?.
    eapply returns_bind; [by apply (capture_form_value a el _ t v)|]. intros ?.
    eapply (returns_bind _ (fun _ => element_with a Φ)).
    { unfold capture_option. rewrite decide_False by done. by apply returns_ret. }
    intros ?. eapply (returns_bind _ (fun _ => element_with a Φ)).
    { unfold capture_canvas. rewrite decide_False by done. by apply returns_ret. }
    intros ?. apply capture_tail_keeps. }
  destruct (Hret h1 rr h' Hel Hrun) as [-> HΦ].
  by apply element_with_attribute.
Qed.

Lemma build_element_form_value_witness :
  exists rr h',
    build_element 1%positive sample_radio sample_store = Ok rr h'
    /\ attribute_of h' rr "value" = Some (AStr "yes").
Proof.
  assert (E : exists rr h', build_element 1%positive sample_radio sample_store
                            = Ok rr h') by (do 2 eexists; vm_compute; reflexivity).
  destruct E as (rr & h' & E). exists rr, h'. split; [exact E|].
  apply (build_element_form_value 1%positive sample_radio sample_store h' rr
           "radio" "yes").
  - left. reflexivity.
  - simpl. apply NoDup_cons. split; [|apply NoDup_singleton].
    intros H. apply list_elem_of_singleton in H. discriminate.
  - left.
  - left.
  - reflexivity.
  - discriminate.
  - exact E.
Defined.

Lemma returns_update_sat (rr : addr) (Ψ Ψ' : ElementData -> Prop)
    (f : RRNode -> RRNode) :
  (forall n e, cls n = CElement e -> Ψ e ->
     exists e', cls (f n) = CElement e' /\ Ψ' e') ->
  returns (element_sat rr Ψ) (update rr f) (fun _ => element_sat rr Ψ').
Proof.
  intros Hf h [] h' (n & e & Hn & Hcls & HΨ) Hrun. unfold update in Hrun.
  rewrite Hn in Hrun. injection Hrun as <-.
  destruct (Hf n e Hcls HΨ) as (e' & Hcls' & HΨ').
  exists (f n), e'. by rewrite lookup_insert_eq.
Qed.

Lemma returns_set_attribute_sat (rr : addr) (Ψ : ElementData -> Prop)
    (k : string) (v : AttrVal) :
  (forall e m, Ψ e -> Ψ (set_attributes m e)) ->
  returns (element_sat rr Ψ) (update rr (set_attribute k v))
          (fun _ => element_sat rr Ψ).
Proof.
  intros Hb. apply returns_update_sat. intros n e Hcls HΨ.
  eexists. split; [by apply set_attribute_lookup | by apply Hb].
Qed.

Lemma capture_attributes_sat {A} (rr : addr) (el : LiveElement) (tag : string)
    (Ψ : ElementData -> Prop) (k : M heap A) (Q : A -> heap -> Prop) :
  (forall e m, Ψ e -> Ψ (set_attributes m e)) ->
  returns (element_sat rr Ψ) k Q ->
  returns (element_sat rr Ψ)
          (copy_attributes rr (le_attributes el);;;
           capture_form rr el tag;;; capture_option rr el tag;;;
           capture_canvas rr el tag;;; k)
          Q.
Proof.
  intros Hb Hk.
  eapply (returns_bind _ (fun _ => element_sat rr Ψ)).
  { induction (le_attributes el) as [|[k0 v0] l IH]; simpl;
      [by apply returns_ret|].
    eapply returns_bind; [by apply returns_set_attribute_sat|]. intros ?. exact IH. }
  intros ?. eapply (returns_bind _ (fun _ => element_sat rr Ψ)).
  { unfold capture_form. destruct (decide _); [|by apply returns_ret].
    eapply returns_bind; [apply returns_get_same|]. intros h0. simpl.
    destruct (_ && _); [by apply returns_set_attribute_sat|].
    destruct (le_checked el); [by apply returns_set_attribute_sat|].
    by apply returns_ret. }
  intros ?. eapply (returns_bind _ (fun _ => element_sat rr Ψ)).
  { unfold capture_option. destruct (decide _); [|by apply returns_ret].
    destruct (le_parentValue el); [|apply returns_throw].
    eapply returns_bind; [apply returns_get_same|]. intros h0. simpl.
    destruct (decide _); [by apply returns_set_attribute_sat|].
    by apply returns_ret. }
  intros ?. eapply (returns_bind _ (fun _ => element_sat rr Ψ)); [|intros ?; exact Hk].
  unfold capture_canvas. destruct (decide _); [|by apply returns_ret].
  by apply returns_set_attribute_sat.
Qed.

Lemma createElement_new_sat (h : heap) (this : addr) (tag : string) :
  exists a h1,
    RRDocument_createElement this tag h = Ok a h1
    /\ element_sat a
         (fun e => tagName e = toLowerCase tag
                   /\ scrollLeft e = 0 /\ scrollTop e = 0
                   /\ (toLowerCase tag = "audio" \/ toLowerCase tag = "video" ->
                       eclass e = MediaElement 0 true)) h1.
Proof.
  unfold RRDocument_createElement.
  destruct (decide (toLowerCase tag = "audio" \/ toLowerCase tag = "video")) as [Hm|Hm].
  { destruct (alloc_fresh h (new_element (toLowerCase tag) (MediaElement 0 true)))
      as (a & -> & Ha).
    exists a. eexists. split; [reflexivity|]. do 2 eexists.
    rewrite lookup_insert_eq. split; [reflexivity|]. by split. }
  destruct (decide (toLowerCase tag = "iframe")).
  { unfold bind.
    destruct (alloc_fresh h (new_node (CDocument ∅))) as (cd & -> & Hcd).
    destruct (alloc_fresh (<[cd := new_node (CDocument ∅)]> h)
                (new_element (toLowerCase tag)
                   (IframeElement "" "" "" cd (mkWindow 0 0)))) as (a & -> & Ha).
    exists a. eexists. split; [reflexivity|]. do 2 eexists.
    rewrite lookup_insert_eq. split; [reflexivity|]. split; [reflexivity|].
    simpl. repeat split; try done. }
  destruct (decide (toLowerCase tag = "img")) as [Himg|Himg].
  { destruct (alloc_fresh h (new_element "img" (ImageElement None None None)))
      as (a & -> & Ha).
    exists a. eexists. split; [reflexivity|]. do 2 eexists.
    rewrite lookup_insert_eq. split; [reflexivity|]. split; [reflexivity|].
    simpl. repeat split; try done. }
  destruct (alloc_fresh h (new_element (toLowerCase tag) PlainElement))
    as (a & -> & Ha).
  exists a. eexists. split; [reflexivity|]. do 2 eexists.
  rewrite lookup_insert_eq. split; [reflexivity|]. split; [reflexivity|].
  simpl. repeat split; try done.
Qed.

(** X18. The element the walk builds has the scroll offsets of the
    live element (zero offsets included) and, for [audio] and [video],
    the [paused] flag and [currentTime] of the live media element.
    When the tag name of the live element is made of ASCII characters,
    the [tagName] of the built element is the lower-cased valid tag. *)
Theorem build_element_scroll_media
    (this : addr) (el : LiveElement) (h h' : heap) (rr : addr) :
  build_element this el h = Ok rr h' ->
  exists e,
    element_of h' rr = Some e
    /\ (ascii_only (le_tagName el) = true ->
        tagName e = toLowerCase (getValidTagName el))
    /\ scrollLeft e = le_scrollLeft el
    /\ scrollTop e = le_scrollTop el
    /\ (getValidTagName el = "audio" \/ getValidTagName el = "video" ->
        eclass e = MediaElement (le_currentTime el) (le_paused el)).
Proof.
  rewrite build_element_unfold. cbv zeta. unfold bind at 1.
  set (tag := getValidTagName el).
  destruct (createElement_new_sat h this tag) as (a & h1 & -> & Hsat).
  intros Hrun.
  set (media := tag = "audio" \/ tag = "video").
  assert (Hlow : media -> toLowerCase tag = "audio" \/ toLowerCase tag = "video").
  { intros [Ht|Ht]; rewrite Ht; [left | right]; reflexivity. }
  set (Ψ := fun (sl st : Z) (ct : Z) (p : bool) (e : ElementData) =>
              tagName e = toLowerCase tag /\ scrollLeft e = sl /\ scrollTop e = st
              /\ (media -> eclass e = MediaElement ct p)).
  assert (Hret : returns (element_sat a (Ψ 0 0 0 true))
            (copy_attributes a (le_attributes el);;;
             capture_form a el tag;;; capture_option a el tag;;;
             capture_canvas a el tag;;; capture_tail a el tag)
            (fun r s => r = a /\
               element_sat a (Ψ (le_scrollLeft el) (le_scrollTop el)
                                (le_currentTime el) (le_paused el)) s)).
  { apply capture_attributes_sat.
    { intros e m (? & ? & ? & ?). by repeat split. }
    unfold capture_tail.
    eapply (returns_bind _ (fun _ => element_sat a
              (Ψ 0 0 (le_currentTime el) (le_paused el)))).
    { destruct (decide (tag = "audio" \/ tag = "video")) as [Hm|Hm].
      - apply returns_update_sat. intros n e Hcls (Htn & Hsl & Hst & Hec).
        unfold set_media. rewrite Hcls, (Hec Hm). eexists. split; [reflexivity|].
        by repeat split.
      - apply returns_ret. intros s (n & e & Hn & Hcls & Htn & Hsl & Hst & Hec).
        exists n, e. repeat split; try done. }
    intros ?. eapply (returns_bind _ (fun _ => element_sat a
              (Ψ (le_scrollLeft el) 0 (le_currentTime el) (le_paused el)))).
    { destruct (le_scrollLeft el =? 0) eqn:E.
      - apply Z.eqb_eq in E. rewrite E. by apply returns_ret.
      - apply returns_update_sat. intros n e Hcls (Htn & Hsl & Hst & Hec).
        unfold set_scrollLeft. rewrite Hcls. eexists. split; [reflexivity|].
        by repeat split. }
    intros ?. eapply (returns_bind _ (fun _ => element_sat a
              (Ψ (le_scrollLeft el) (le_scrollTop el)
                 (le_currentTime el) (le_paused el)))).
    { destruct (le_scrollTop el =? 0) eqn:E.
      - apply Z.eqb_eq in E. rewrite E. by apply returns_ret.
      - apply returns_update_sat. intros n e Hcls (Htn & Hsl & Hst & Hec).
        unfold set_scrollTop. rewrite Hcls. eexists. split; [reflexivity|].
        by repeat split. }
    intros ?. by apply returns_ret. }
  assert (Hsat0 : element_sat a (Ψ 0 0 0 true) h1).
  { destruct Hsat as (n & e & Hn & Hcls & Htn & Hsl & Hst & Hec).
    exists n, e. repeat split; try done. intros Hm. by apply Hec, Hlow. }
  destruct (Hret h1 rr h' Hsat0 Hrun) as (-> & n & e & Hn & Hcls & Htn & Hsl & Hst & Hec).
  exists e. unfold element_of. rewrite Hn, Hcls. by repeat split.
Qed.

Lemma build_element_scroll_media_witness :
  exists rr h' e,
    build_element 1%positive sample_video sample_store = Ok rr h'
    /\ element_of h' rr = Some e
    /\ tagName e = "video"
    /\ scrollTop e = 120
    /\ eclass e = MediaElement 42 false.
Proof.
  assert (E : exists rr h', build_element 1%positive sample_video sample_store
                            = Ok rr h') by (do 2 eexists; vm_compute; reflexivity).
  destruct E as (rr & h' & E).
  destruct (build_element_scroll_media 1%positive sample_video sample_store h' rr E)
    as (e & He & Htn & _ & Hst & Hm).
  exists rr, h', e. split; [exact E|]. split; [exact He|].
  split; [by apply Htn|]. split; [exact Hst|]. apply Hm. right. reflexivity.
Defined.

Lemma build_steps_invariant (rr : addr) (el : LiveElement) (tag : string)
    (I : heap -> Prop) :
  (forall f, returns I (update rr f) (fun _ => I)) ->
  returns I
    (copy_attributes rr (le_attributes el);;;
     capture_form rr el tag;;; capture_option rr el tag;;;
     capture_canvas rr el tag;;; capture_tail rr el tag)
    (fun r h => r = rr /\ I h).
Proof.
  intros Hup.
  eapply (returns_bind _ (fun _ => I)).
  { induction (le_attributes el) as [|[k0 v0] l IH]; simpl;
      [by apply returns_ret|].
    eapply returns_bind; [apply Hup|]. intros ?. exact IH. }
  intros ?. eapply (returns_bind _ (fun _ => I)).
  { unfold capture_form. destruct (decide _); [|by apply returns_ret].
    eapply returns_bind; [apply returns_get_same|]. intros h0. simpl.
    destruct (_ && _); [apply Hup|].
    destruct (le_checked el); [apply Hup | by apply returns_ret]. }
  intros ?. eapply (returns_bind _ (fun _ => I)).
  { unfold capture_option. destruct (decide _); [|by apply returns_ret].
    destruct (le_parentValue el); [|apply returns_throw].
    eapply returns_bind; [apply returns_get_same|]. intros h0. simpl.
    destruct (decide _); [apply Hup | by apply returns_ret]. }
  intros ?. eapply (returns_bind _ (fun _ => I)).
  { unfold capture_canvas. destruct (decide _); [apply Hup | by apply returns_ret]. }
  intros ?. unfold capture_tail.
  eapply (returns_bind _ (fun _ => I)).
  { destruct (decide _); [apply Hup | by apply returns_ret]. }
  intros ?. eapply (returns_bind _ (fun _ => I)).
  { destruct (_ =? _); [by apply returns_ret | apply Hup]. }
  intros ?. eapply (returns_bind _ (fun _ => I)).
  { destruct (_ =? _); [by apply returns_ret | apply Hup]. }
  intros ?. by apply returns_ret.
Qed.

Lemma createElement_frame (h : heap) (this : addr) (tag : string) :
  exists a h1,
    RRDocument_createElement this tag h = Ok a h1
    /\ h !! a = None
    /\ is_Some (h1 !! a)
    /\ (forall b, is_Some (h !! b) -> h1 !! b = h !! b).
Proof.
  assert (Hins : forall (h0 : heap) a n b,
            h0 !! a = None -> is_Some (h0 !! b) -> <[a := n]> h0 !! b = h0 !! b).
  { intros h0 a n b Ha [x Hb]. rewrite lookup_insert_ne; [done|]. congruence. }
  unfold RRDocument_createElement.
  destruct (decide (toLowerCase tag = "audio" \/ toLowerCase tag = "video")).
  { destruct (alloc_fresh h (new_element (toLowerCase tag) (MediaElement 0 true)))
      as (a & -> & Ha).
    exists a. eexists. split; [reflexivity|]. split; [done|].
    rewrite lookup_insert_eq. split; [eauto|]. intros b. by apply Hins. }
  destruct (decide (toLowerCase tag = "iframe")).
  { unfold bind.
    destruct (alloc_fresh h (new_node (CDocument ∅))) as (cd & -> & Hcd).
    destruct (alloc_fresh (<[cd := new_node (CDocument ∅)]> h)
                (new_element (toLowerCase tag)
                   (IframeElement "" "" "" cd (mkWindow 0 0)))) as (a & -> & Ha).
    assert (Hne : cd <> a) by (intros <-; by rewrite lookup_insert_eq in Ha).
    exists a. eexists. split; [reflexivity|].
    split; [by rewrite lookup_insert_ne in Ha|].
    rewrite lookup_insert_eq. split; [eauto|]. intros b Hb.
    rewrite Hins; [by apply Hins | done |].
    rewrite Hins by done. done. }
  destruct (decide (toLowerCase tag = "img")).
  { destruct (alloc_fresh h (new_element "img" (ImageElement None None None)))
      as (a & -> & Ha).
    exists a. eexists. split; [reflexivity|]. split; [done|].
    rewrite lookup_insert_eq. split; [eauto|]. intros b. by apply Hins. }
  destruct (alloc_fresh h (new_element (toLowerCase tag) PlainElement))
    as (a & -> & Ha).
  exists a. eexists. split; [reflexivity|]. split; [done|].
  rewrite lookup_insert_eq. split; [eauto|]. intros b. by apply Hins.
Qed.

(** X19. The element branch of the walk changes no object that
    existed before it ran: whatever it writes, it writes on the element
    it has just created. *)
Theorem build_element_frame
    (this : addr) (el : LiveElement) (h h' : heap) (rr : addr) :
  build_element this el h = Ok rr h' ->
  h !! rr = None
  /\ is_Some (h' !! rr)
  /\ forall b, is_Some (h !! b) -> h' !! b = h !! b.
Proof.
  rewrite build_element_unfold. cbv zeta. unfold bind at 1.
  destruct (createElement_frame h this (getValidTagName el))
    as (a & h1 & -> & Hfresh & Hnew & Hframe).
  intros Hrun.
  set (I := fun s : heap =>
              is_Some (s !! a) /\ forall b, is_Some (h !! b) -> s !! b = h !! b).
  assert (Hup : forall f, returns I (update a f) (fun _ => I)).
  { intros f s [] s' [[n Hn] Hfr] Hr. unfold update in Hr. rewrite Hn in Hr.
    injection Hr as <-. split; [rewrite lookup_insert_eq; eauto|].
    intros b Hb. rewrite lookup_insert_ne; [by apply Hfr|].
    intros <-. destruct Hb as [x Hb]. congruence. }
  destruct (build_steps_invariant a el (getValidTagName el) I Hup h1 rr h')
    as (-> & Hsome & Hfr); [by split | exact Hrun |].
  by repeat split.
Qed.

Lemma build_element_frame_witness :
  exists rr h',
    build_element 1%positive sample_canvas sample_store = Ok rr h'
    /\ sample_store !! rr = None
    /\ h' !! 1%positive = sample_store !! 1%positive.
Proof.
  assert (E : exists rr h', build_element 1%positive sample_canvas sample_store
                            = Ok rr h') by (do 2 eexists; vm_compute; reflexivity).
  destruct E as (rr & h' & E).
  destruct (build_element_frame 1%positive sample_canvas sample_store h' rr E)
    as (Hfresh & _ & Hframe).
  exists rr, h'. split; [exact E|]. split; [exact Hfresh|].
  apply Hframe. vm_compute. eauto.
Defined.

(** ** resolve: reuse or create *)

Lemma alloc_new (h : heap) (n : RRNode) (a : addr) (h' : heap) :
  alloc n h = Ok a h' ->
  h !! a = None /\ is_Some (h' !! a)
  /\ forall b, is_Some (h !! b) -> h' !! b = h !! b.
Proof.
  destruct (alloc_fresh h n) as (a0 & -> & Ha). intros [= <- <-].
  split; [done|]. rewrite lookup_insert_eq. split; [eauto|].
  intros b [x Hb]. rewrite lookup_insert_ne; [done|]. congruence.
Qed.

Lemma create_node_new (this : addr) (sn : serializedNodeWithId) (kind : LiveKind)
    (h h' : heap) (rr : addr) :
  create_node this sn kind h = Ok (Some rr) h' ->
  (rr = this /\ h' = h)
  \/ (h !! rr = None /\ is_Some (h' !! rr)
      /\ forall b, is_Some (h !! b) -> h' !! b = h !! b).
Proof.
  assert (Hal : forall (m : M heap addr),
            (forall a s, m h = Ok a s ->
               h !! a = None /\ is_Some (s !! a)
               /\ forall b, is_Some (h !! b) -> s !! b = h !! b) ->
            (let! a := m in ret (Some a)) h = Ok (Some rr) h' ->
            h !! rr = None /\ is_Some (h' !! rr)
            /\ forall b, is_Some (h !! b) -> h' !! b = h !! b).
  { intros m Hm Hrun. unfold bind, ret in Hrun.
    destruct (m h) as [a s|] eqn:E; [|discriminate].
    injection Hrun as <- <-. by apply Hm. }
  destruct kind; simpl; intros Hrun.
  - destruct (bool_decide _).
    + right. apply (Hal _ (fun a s => alloc_new h _ a s) Hrun).
    + left. by injection Hrun as <- <-.
  - right. apply (Hal _ (fun a s => alloc_new h _ a s) Hrun).
  - right. refine (Hal _ _ Hrun). intros a s Hb.
    rewrite build_element_unfold in Hb. cbv zeta in Hb. unfold bind at 1 in Hb.
    destruct (createElement_frame h this (getValidTagName el))
      as (a0 & h1 & Hc & Hfresh & Hnew & Hframe).
    rewrite Hc in Hb.
    set (I := fun s0 : heap =>
                is_Some (s0 !! a0) /\ forall b, is_Some (h !! b) -> s0 !! b = h !! b).
    assert (Hup : forall f, returns I (update a0 f) (fun _ => I)).
    { intros f s0 [] s' [[n Hn] Hfr] Hr. unfold update in Hr. rewrite Hn in Hr.
      injection Hr as <-. split; [rewrite lookup_insert_eq; eauto|].
      intros b Hb'. rewrite lookup_insert_ne; [by apply Hfr|].
      intros <-. destruct Hb' as [x Hb']. congruence. }
    destruct (build_steps_invariant a0 el (getValidTagName el) I Hup h1 a s)
      as (-> & Hsome & Hfr); [by split | exact Hb |].
    by repeat split.
  - right. apply (Hal _ (fun a s => alloc_new h _ a s) Hrun).
  - right. apply (Hal _ (fun a s => alloc_new h _ a s) Hrun).
  - right. apply (Hal _ (fun a s => alloc_new h _ a s) Hrun).
  - discriminate.
Qed.

Lemma bind_ok {S A B} (m : M S A) (k : A -> M S B) (s s' : S) (a : A) :
  m s = Ok a s' -> bind m k s = k a s'.
Proof. intros H. unfold bind. by rewrite H. Qed.

Lemma load_mirror_run (h : heap) (this : addr) (d : RRNode) (m : gmap Z positive) :
  h !! this = Some d -> cls d = CDocument m -> load_mirror this h = Ok m h.
Proof. intros Hd Hcls. unfold load_mirror, bind, load. by rewrite Hd, Hcls. Qed.

Lemma mirror_has_run (h : heap) (this : addr) (d : RRNode) (m : gmap Z positive)
    (id : Z) :
  h !! this = Some d -> cls d = CDocument m ->
  mirror_has this id h = Ok (bool_decide (is_Some (m !! id))) h.
Proof.
  intros Hd Hcls. unfold mirror_has.
  by rewrite (bind_ok _ _ _ _ _ (load_mirror_run h this d m Hd Hcls)).
Qed.

Lemma mirror_get_run (h : heap) (this : addr) (d : RRNode) (m : gmap Z positive)
    (id : Z) :
  h !! this = Some d -> cls d = CDocument m ->
  mirror_get this id h = Ok (m !! id) h.
Proof.
  intros Hd Hcls. unfold mirror_get.
  by rewrite (bind_ok _ _ _ _ _ (load_mirror_run h this d m Hd Hcls)).
Qed.

Lemma mirror_set_run (h : heap) (this : addr) (d : RRNode) (m : gmap Z positive)
    (id : Z) (a : addr) :
  h !! this = Some d -> cls d = CDocument m ->
  mirror_set this id a h
  = Ok tt (alter (set_cls (CDocument (<[id := a]> m))) this h).
Proof.
  intros Hd Hcls. unfold mirror_set.
  rewrite (bind_ok _ _ _ _ _ (load_mirror_run h this d m Hd Hcls)).
  apply update_alter. eauto.
Qed.

(** X20. When the resolve step of the walk returns a node for a record,
    the mirror maps the record's id to that node.  If the id was not
    registered, the node is the document itself or an object created by
    this step, it now carries the record as its [__sn], the mirror has
    gained exactly this entry, and no other existing object has changed.
    If the id was registered, the node is the registered one, stripped
    of its children and of both parent back-references, and the mirror
    is unchanged. *)
Theorem resolve_registers
    (this : addr) (sn : serializedNodeWithId) (kind : LiveKind)
    (h h' : heap) (rr : addr) (d : RRNode) (m : gmap Z positive) :
  h !! this = Some d ->
  cls d = CDocument m ->
  resolve this sn kind h = Ok (Some rr) h' ->
  mirror_of h' this !! sn_id sn = Some rr
  /\ (m !! sn_id sn = None ->
      (rr = this \/ h !! rr = None)
      /\ mirror_of h' this = <[sn_id sn := rr]> m
      /\ (exists n, h' !! rr = Some n /\ __sn n = Some sn)
      /\ forall b, is_Some (h !! b) -> b <> this -> b <> rr -> h' !! b = h !! b)
  /\ (forall rr0, m !! sn_id sn = Some rr0 ->
        rr = rr0
        /\ mirror_of h' this = m
        /\ children_of h' rr = []
        /\ parentNode_of h' rr = None
        /\ parentElement_of h' rr = None).
Proof.
  intros Hd Hcls Hrun. unfold resolve in Hrun.
  rewrite (bind_ok _ _ _ _ _ (mirror_has_run h this d m (sn_id sn) Hd Hcls)) in Hrun.
  destruct (m !! sn_id sn) as [rr0|] eqn:Hm.
  - rewrite bool_decide_eq_true_2 in Hrun by eauto.
    change (negb true) with false in Hrun. cbv iota in Hrun.
    rewrite (bind_ok _ _ _ _ _ (mirror_get_run h this d m (sn_id sn) Hd Hcls)) in Hrun.
    rewrite Hm in Hrun.
    destruct (h !! rr0) as [n0|] eqn:Hn0.
    2:{ unfold bind, update in Hrun. rewrite Hn0 in Hrun. discriminate. }
    rewrite (bind_ok _ _ _ _ _ (update_alter h rr0 _ (ltac:(eauto)))) in Hrun.
    rewrite (bind_ok _ _ _ _ _ (update_alter _ rr0 _
               (alter_is_Some h rr0 rr0 _ (ltac:(eauto))))) in Hrun.
    rewrite (bind_ok _ _ _ _ _ (update_alter _ rr0 _
               (alter_is_Some _ rr0 rr0 _
                  (alter_is_Some h rr0 rr0 _ (ltac:(eauto)))))) in Hrun.
    injection Hrun as <- <-.
    assert (Hmir : mirror_of
              (alter (set_children [])
                 rr0 (alter (set_parentNode None) rr0
                        (alter (set_parentElement None) rr0 h))) this = m).
    { unfold mirror_of. destruct (decide (rr0 = this)) as [->|Hne]; alter_lookup.
      - rewrite Hd. simpl. by rewrite Hcls.
      - by rewrite Hd, Hcls. }
    split; [by rewrite Hmir|]. split; [done|].
    intros rr1 [= <-]. split; [done|]. split; [exact Hmir|].
    unfold children_of, parentNode_of, parentElement_of. alter_lookup.
    rewrite Hn0. done.
  - rewrite bool_decide_eq_false_2 in Hrun by (intros [? ?]; discriminate).
    change (negb false) with true in Hrun. cbv iota in Hrun.
    destruct (create_node this sn kind h) as [[a|] h1|] eqn:Hc;
      rewrite ?(bind_ok _ _ _ _ _ Hc) in Hrun;
      try (unfold bind in Hrun; rewrite Hc in Hrun; discriminate);
      try discriminate.
    assert (Hh1 : is_Some (h1 !! a) /\ h1 !! this = Some d
                  /\ (a = this \/ h !! a = None)
                  /\ forall b, is_Some (h !! b) -> h1 !! b = h !! b).
    { destruct (create_node_new this sn kind h h1 a Hc)
        as [[-> ->]|(Hfresh & Hsome & Hfr)].
      - repeat split; eauto.
      - split; [done|]. split; [rewrite Hfr; eauto|]. split; [auto | done]. }
    destruct Hh1 as (Hsome & Hd1 & Horigin & Hfr).
    rewrite (bind_ok _ _ _ _ _ (update_alter h1 a _ Hsome)) in Hrun.
    set (h2 := alter (set_sn (Some sn)) a h1) in *.
    assert (Hd2 : exists d2, h2 !! this = Some d2 /\ cls d2 = CDocument m).
    { subst h2. destruct (decide (a = this)) as [->|Hne]; alter_lookup.
      - rewrite Hd1. simpl. eauto.
      - eauto. }
    destruct Hd2 as (d2 & Hd2 & Hcls2).
    rewrite (bind_ok _ _ _ _ _ (mirror_set_run h2 this d2 m (sn_id sn) a Hd2 Hcls2))
      in Hrun.
    injection Hrun as <- <-.
    assert (Hmir : mirror_of (alter (set_cls (CDocument (<[sn_id sn := a]> m))) this h2)
                     this = <[sn_id sn := a]> m).
    { unfold mirror_of. alter_lookup. by rewrite Hd2. }
    split; [by rewrite Hmir, lookup_insert_eq|]. split; [|done].
    intros _. split; [exact Horigin|]. split; [exact Hmir|]. split.
    + destruct Hsome as [n Hn]. subst h2.
      destruct (decide (this = a)) as [->|Hne]; alter_lookup; rewrite Hn; simpl; eauto.
    + intros b Hb Hb1 Hb2. subst h2. alter_lookup. by apply Hfr.
Qed.

Lemma resolve_registers_witness :
  exists rr h',
    resolve 1%positive (mkSN (Some Text) None 7 None) (LText "hi")
      (st_heap fresh_state) = Ok (Some rr) h'
    /\ mirror_of h' 1%positive !! 7 = Some rr
    /\ (exists n, h' !! rr = Some n
                  /\ __sn n = Some (mkSN (Some Text) None 7 None)).
Proof.
  assert (E : exists rr h',
             resolve 1%positive (mkSN (Some Text) None 7 None) (LText "hi")
               (st_heap fresh_state) = Ok (Some rr) h')
    by (do 2 eexists; vm_compute; reflexivity).
  destruct E as (rr & h' & E).
  destruct (resolve_registers 1%positive (mkSN (Some Text) None 7 None) (LText "hi")
              (st_heap fresh_state) h' rr (new_node (CDocument ∅)) ∅)
    as (Hreg & Hnew & _); [reflexivity | reflexivity | exact E |].
  exists rr, h'. split; [exact E|]. split; [exact Hreg|].
  by destruct (Hnew eq_refl) as (_ & _ & Hsn & _).
Defined.

(** ** attach: linking a node under its live parent *)


(** X21. The attach step of the walk.  A live node without parent is
    left alone.  A live parent that carries no record, or whose id the
    mirror does not hold, makes the step raise a TypeError and change
    nothing.  Otherwise the node is appended to the virtual node the
    mirror holds for the parent: when that [appendChild] returns, the
    node is the last child there, its [parentNode] is that virtual
    node, and its [parentElement] is that node if it is an element and
    null if it is a document. *)
Theorem attach_spec (this rr : addr) (st : DomState) :
  attach this rr None st = Ok tt st
  /\ (forall p, st_live_sn st !! p = None ->
        attach this rr (Some p) st = Throw TypeError st)
  /\ (forall p parentSN d m,
        st_live_sn st !! p = Some parentSN ->
        st_heap st !! this = Some d ->
        cls d = CDocument m ->
        (m !! sn_id parentSN = None ->
         attach this rr (Some p) st = Throw TypeError st)
        /\ (forall parentRRNode t c a h1,
              m !! sn_id parentSN = Some parentRRNode ->
              st_heap st !! parentRRNode = Some t ->
              nodeType t = Element \/ nodeType t = Document ->
              st_heap st !! rr = Some c ->
              appendChild parentRRNode rr (st_heap st) = Ok a h1 ->
              exists st',
                attach this rr (Some p) st = Ok tt st'
                /\ children_of (st_heap st') parentRRNode = children t ++ [rr]
                /\ parentNode_of (st_heap st') rr = Some parentRRNode
                /\ parentElement_of (st_heap st') rr
                   = (if isRRElement t then Some parentRRNode else None)
                /\ st_live_sn st' = st_live_sn st
                /\ visits st' = visits st)).
Proof.
  destruct st as [h live ctr vs]. cbn [st_heap st_live_sn notSerializedId visits].
  split; [reflexivity|]. split.
  { intros p Hp. unfold attach, bind, get. simpl. by rewrite Hp. }
  intros p psn d m Hp Hd Hcls.
  assert (Hatt : attach this rr (Some p) (mkState h live ctr vs)
            = match m !! sn_id psn with
              | None => Throw TypeError (mkState h live ctr vs)
              | Some parentRRNode =>
                  (liftH (appendChild parentRRNode rr);;;
                   liftH (update rr (set_parentNode (Some parentRRNode)));;;
                   let! p := liftH (load parentRRNode) in
                   liftH (update rr
                            (set_parentElement
                               (if isRRElement p then Some parentRRNode else None))))
                    (mkState h live ctr vs)
              end).
  { unfold attach. unfold bind at 1, get. cbn [st_live_sn]. rewrite Hp.
    unfold bind at 1. unfold liftH at 1. cbn [st_heap st_live_sn notSerializedId visits].
    rewrite (mirror_get_run h this d m (sn_id psn) Hd Hcls).
    by destruct (m !! sn_id psn). }
  rewrite Hatt. clear Hatt. split.
  { by intros ->. }
  intros prr t c a h1 -> Ht Hk Hc Happ.
  destruct (appendChild_ok_facts h h1 prr rr a t c Ht Hc Hk Happ)
    as (-> & Hch & Hpres).
  destruct (Hpres rr c Hc) as (c1 & Hc1 & _).
  destruct (Hpres prr t Ht) as (t1 & Ht1 & Hclst1 & _).
  unfold bind, liftH. simpl. rewrite Happ. simpl.
  rewrite update_alter by eauto. simpl.
  set (h2 := alter (set_parentNode (Some prr)) rr h1).
  assert (Ht2 : exists t2, h2 !! prr = Some t2 /\ cls t2 = cls t
                           /\ children t2 = children t ++ [rr]).
  { unfold children_of in Hch. rewrite Ht1 in Hch. subst h2.
    destruct (decide (rr = prr)) as [->|Hne]; alter_lookup.
    - rewrite Ht1. simpl. eauto.
    - eauto. }
  destruct Ht2 as (t2 & Ht2 & Hclst2 & Hcht2).
  unfold load. rewrite Ht2. simpl.
  rewrite update_alter by (subst h2; apply alter_is_Some; eauto). simpl.
  eexists. split; [reflexivity|]. simpl.
  assert (Hel : isRRElement t2 = isRRElement t).
  { unfold isRRElement. by rewrite Hclst2. }
  rewrite Hel. unfold children_of, parentNode_of, parentElement_of.
  split; [|split; [|split]].
  - destruct (decide (rr = prr)) as [->|Hne]; alter_lookup.
    + rewrite Ht2. simpl. done.
    + by rewrite Ht2.
  - alter_lookup. subst h2. alter_lookup. by rewrite Hc1.
  - alter_lookup. subst h2. alter_lookup. by rewrite Hc1.
  - done.
Qed.

(** ** walk: when children are visited *)

(** X22. Whether the walk goes down into the children of a live node
    depends on the type written on the node's record, the one it
    carried or the one just generated from its kind: unless that type is
    Document or Element, the visit of the node is the only visit made,
    whatever children the live node has. *)
Theorem walk_leaf_record
    (this : addr) (st : DomState) (id : lid) (parent : option lid)
    (kind : LiveKind) (childNodes : list LNode) :
  record_type st id kind <> Some Document ->
  record_type st id kind <> Some Element ->
  exists v,
    visits (final (walk this (LN id parent kind childNodes) st)) = visits st ++ [v]
    /\ v_node v = id.
Proof.
  intros Hd He. rewrite walk_unfold. unfold bind at 1.
  assert (Hid : exists sn st1 v,
             identify id kind st = Ok sn st1
             /\ visits st1 = visits st ++ [v] /\ v_node v = id
             /\ sn_type sn = record_type st id kind).
  { unfold identify, record_type.
    destruct (st_live_sn st !! id) as [sn|]; do 3 eexists;
      (split; [reflexivity|]); simpl; done. }
  destruct Hid as (sn & st1 & v & -> & Hv & Hn & Hty).
  exists v. split; [|done]. rewrite <- Hv.
  assert (Hrec : recurses sn = false).
  { unfold recurses. apply bool_decide_eq_false_2. rewrite Hty. tauto. }
  rewrite Hrec.
  assert (Hs : silent
            (let! resolved := liftH (resolve this sn kind) in
             match resolved with
             | None => ret tt
             | Some rrNode => attach this rrNode parent;;; ret tt
             end)).
  { apply silent_bind; [apply silent_liftH|]. intros [rrNode|]; [|apply silent_ret].
    apply silent_bind; [apply silent_attach | intros ?; apply silent_ret]. }
  apply Hs.
Qed.

Lemma walk_leaf_record_witness :
  exists v,
    visits (final (walk 1%positive
                     (LN 3 None (LText "hi") [lone_dom; grown_dom]) fresh_state))
    = [v]
    /\ v_node v = 3%nat.
Proof.
  apply (walk_leaf_record 1%positive fresh_state 3%nat None (LText "hi")
           [lone_dom; grown_dom]); discriminate.
Defined.
